(* ===== verification/_CoqProject ===== *)
-Q . S2P
Prelude.v
Clock.v
Replay.v
Meter.v
MeterImage.v
SceneChanger.v
Timeline.v
Drawers.v
Play.v
Result.v
Audio.v
Background.v
Input.v
Note.v
Assets.v
