(* ===== verification/Prelude.v ===== *)
(** * A verification library for the gosu play-session core

    The repository (x86chi/gosu, Go) is the real-time core of a rhythm game.
    Six source files are present under src/:

    - [src/mode/play.go]: the play scene template [ScenePlay]: the tick
      clock ([TimeToTick], [TickToTime], [Time], [SetTick]), the
      timing-point cursor ([SetInitTransPoint], [UpdateTransPoint]) with
      its volume bookkeeping, the scroll speed ([BeatRatio], [Speed]),
      the background ([SetBackground]), the music and the sample sounds
      ([SetMusicPlayer], [SetSoundMap]) and the key actions
      ([KeyAction]);
    - [src/mode/piano/replay.go]: [NewReplayListener], the closure that
      replays a decoded osu! replay, one call per millisecond;
    - [src/drawer.go]: the visual feedback of a play: [MeterDrawer]
      (timing-meter marks that age out), [NumberDrawer] (combo counter
      with a bounce countdown), [ScoreDrawer] (smoothed score digits),
      the meter's base image and [BackgroundDrawer];
    - [src/_scenechanger.go]: [SceneChanger], the cross-fade state machine
      that swaps the game's scene after a fixed countdown;
    - [src/_result.go]: the result scene, which asks for the select
      scene while Escape is held and draws an image and buttons;
    - [src/common/note.go]: the [Note] record (data only).

    How the parts interact: the clock turns the play's tick counter into
    milliseconds; the timing-point cursor is advanced to that time each
    tick; the replay listener yields the pressed keys of the tick; the
    judgment (not in src/) feeds the meter and the score and combo drawers;
    the scene changer runs beside all of it and replaces the scene.

    ** Files, and how they correspond to the code

    - [Prelude] (this file): the [gosu_scope] notations (the [let?]
      bind of code that can panic, [orun] for n calls of a per-tick
      closure), the [gosu] hint database, the tactics [bool_to_prop],
      [case_if] and [obind_inv], the shared lemmas on [Z.quot], lists and
      iteration, and [forall_range], a checked loop over a range of
      integers with its soundness lemma; Go's numeric conversions
      [float64_of_int], [int_of_float64] and [wrap_int64] (a wider
      integer or an overflowing sum as a 64-bit [int]), and [xfloat],
      float64 values with their infinities and NaN, for the quotients
      that can divide by zero.
    - [Clock] (Module [Clock]): [TimeToTick], [TickToTime], [Time] and
      [SetTick] of play.go, computed as Go computes them, through IEEE
      binary64 arithmetic (Rocq's primitive floats, with the
      conversions [float64_of_int] and [int_of_float64] of the Prelude),
      beside the exact integer conversions [time_to_tick_exact] and
      [tick_to_time_exact] they approximate.
    - [Replay] (Module [Replay]): [NewReplayListener] of replay.go; the
      closure's captured variables [(i, t, next)] are the record
      [Listener], one call is [listen], n calls are [listen_n]; the bit
      loop is [decode_loop]/[decode], from the [uint64] mask converted
      to an [int] ([wrap_int64]).
    - [Meter] (Module [Meter]): [MeterDrawer] of drawer.go with
      [NewMeterDrawer] (its [MaxCountdown] from package gosu's
      [TimeToTick], a parameter, and its panic on an empty judgment
      list), [AddMark], [Update] (its loop is [update_loop]), [MarkAge]
      and [Draw] (ages and opacities as [xfloat]); [update_ref] is the
      filtering reference.
    - [MeterImage] (Module [MeterImage]): the base image of the timing
      meter built by [NewMeterDrawer]: its size, the band rectangles of
      the judgments ([band], [bands], [meter_image]) and the colour of
      every pixel after the [draw.Draw] calls ([paint], [pixel]);
      [MeterWidth] and [MeterHeight] are parameters; the one-colour
      anchor and unit images ([anchor_image], [unit_image]) and the
      three sprites built from the images ([meter_sprites], Section
      [Sprites] over the rendering library).
    - [SceneChanger] (Module [SceneChanger], Section [Changer] over an
      opaque [Scene] type): [NewSceneChanger], [Update], [changeScene]
      and [Draw] of _scenechanger.go, the step relation [step] and the
      reachable states [reachable].
    - [Timeline] (Module [Timeline]): [ScenePlay]'s timing-point cursor
      of play.go: [SetInitTransPoint], [UpdateTransPoint] (its loop is
      [advance]), [BeatRatio], [Speed]; [active_point] is the reference.
    - [Drawers] (Module [Drawers]): [NumberDrawer] ([Update], [Draw],
      the digit loop [digits_loop]) and [ScoreDrawer] ([NewScoreDrawer],
      [Update], [Draw] through [score_digits]) of drawer.go, with the
      smoothing of [ctrl.Delayed] ([DelayedUpdate]).
    - [Play] (Module [Play]): one tick of a play in the order the spec
      fixes (the piano [ScenePlay.Update] is not under src/).  The class
      [Component] (a step with input and output, an invariant, the law
      that the step keeps it) and its refinement [Total] (the step never
      panics under the invariant) are the interface between the tick and
      the components; [play_tick] and [play_run] are written against
      them in Section [Tick], and the instances ([timeline_component],
      [replay_component], [meter_component], [combo_component],
      [score_component], [changer_component]) discharge the laws with the
      lemmas of the files above; [gosu_run] is the tick at those
      instances, the judgment an opaque function with its own state.
    - [Result] (Module [Result], Sections [Screen] and [Result]): the
      [SceneResult] record, [NewSceneResult], [ResultDraw] and the
      button loop of [Update] as the calls they make ([Call]), and the
      request of [SceneResult.Update] ([ResultUpdate]), fed to the
      scene changer's tick [Play.changer_component]; the select scene of
      [NewSceneSelect] (not under src/) is a section variable.
    - [Audio] (Module [Audio], Section [Audio] over the audio library's
      handles and functions): [SetMusicPlayer] and [SetSoundMap] of
      play.go on the record [AudioPlay] of [ScenePlay]'s audio fields,
      with the log [VolumeCalls] of the [SetVolume] calls as the audio
      sink.
    - [Background] (Module [Background]): package gosu's
      [BackgroundDrawer] and its [Draw] (Section [Gosu]: a nil
      [Brightness] pointer panics, a set one is read in the memory at
      draw time), and [ScenePlay.SetBackground] of package mode (Section
      [Mode]: the sprite it assigns to package mode's drawer, a type not
      under src/).
    - [Input] (Module [Input], Section [Input] over
      [input.CurrentKeyAction]): [ScenePlay.KeyAction] on the vectors
      [LastPressed] and [Pressed].
    - [Note] (Module [Note]): the [Note] record of common/note.go.
    - [Assets] (Module [Assets]): [MD5] (its read error panics) and the
      title [ScenePlay.SetWindowTitle] hands to the window.

    ** What the theorems show

    - Replay: [decode] yields bit j of the mask for every j below
      [keyCount] and panics on a bit above it, and a mask with bit 63
      set reads as all keys released ([decode_spec]); every
      vector the listener returns has [keyCount] entries
      ([listen_n_vectors]); the listener after n calls refines "the
      action active at time n" ([replay_listener_refines]); its index
      never reaches the sentinel, and a call panics once the last real
      action is current and the sentinel's wait has elapsed; only an
      empty replay fails at construction ([NewReplayListener_checks]);
      it moves at most one action per call, so after a zero wait it
      reports an action whose time is over and is still behind
      ([listen_zero_wait_late]).
    - Meter: [Update] equals the filtering reference under the order
      invariant [meter_inv] ([Update_equiv]); every operation preserves
      the invariant; a mark lives exactly [MaxCountdown + 1] updates; the
      age and the opacity are finite and stay in [0, 1]
      ([mark_alpha_bounds]); [Draw] renders each mark and panics
      exactly on a colour index out of range ([Draw_spec]); without the
      order the front trim is wrong ([Update_needs_order], an example).
    - MeterImage: the pixels are the layered picture the code means
      (first covering band in judgment order, [meter_image_layers]); the
      image is mirror-symmetric when the band widths are exact
      ([meter_image_symmetric]), and every band is centred or one pixel
      right of centre otherwise ([meter_image_band_offset]).
    - SceneChanger: every reachable state satisfies [changer_inv]; a
      transition takes exactly [MaxTransCountDown] updates and then sets
      the game's scene and calls [Init] once; from any state of the
      invariant the changer becomes idle and stays idle
      ([transition_finishes], liveness); [sc.Scene] is never refreshed;
      [k] updates into a transition [Draw] fades the outgoing scene at
      [(max - k) / max] and the incoming one at [k / max]
      ([Draw_weights]).
    - Timeline: [UpdateTransPoint] lands on the last point whose time has
      come, is idempotent, and two updates compose into one;
      [SetInitTransPoint] panics exactly when every point has the first
      point's time and otherwise skips only the leading run; the volume
      update stores the applied volume in [LastVolume] and compares it
      with a scale ([UpdateTransPoint_volume]).
    - Drawers: [digits] is the decimal expansion (round trip through
      [from_digits], last digit non-zero), so its fuel never runs out
      ([digits_spec]); [NumberDraw] centres the combo's digits
      ([NumberDraw_layout]); [score_digits] shows floor(v + 0.1) padded
      to [ZeroFill]; after a combo change the counter is drawn for
      exactly [MaxCountdown] updates; the smoothed score never
      overshoots its target ([Delayed_no_overshoot]), yet [ScoreDraw]
      draws the digits of an integer score after finitely many updates
      ([score_reaches_target], liveness).
    - Play: the play's run keeps all component invariants together
      ([gosu_run_inv]); it never panics before the replay's sentinel and
      hands the judgment, at tick [m], the clock time of [Tick + 1 + m]
      with the keys of the action active at the replay's time
      [waitBefore + m] ([gosu_run_replay]); at 1000 TPS the two times
      agree within 1 ms on the first 12 s ([Clock.Time_follows_ms_1000]).
    - Result: holding Escape re-requests the select scene every tick and
      so restarts the transition; the scene changes only
      [MaxTransCountDown - 1] ticks after the key is released
      ([escape_held_delays_change]).
    - Input: on a replayed play [KeyAction k] answers exactly for the
      keys [0 <= k < keyCount] and panics for every other [k]
      ([KeyAction_replay]).
    - Clock: the exact conversions are monotone and round-trip within a
      tick; the float code equals the exact one on every time of
      [-10000, 10000] ms at 240 and 1000 TPS ([TimeToTick_close_to_exact],
      checked by [vm_compute] over [forall_range]; the two rates are the
      ones the game uses and 10 s covers the lead-in [DefaultWaitBefore]
      and more); yet the float round trip can lose a tick
      ([TimeToTick_round_trip_loses_a_tick]).

    ** Fuel and bounds

    [digits] runs its loop [1 + log2 n] times, which [digits_fuel] shows
    is enough for every positive [n] (each turn divides by 10 >= 2).
    [decode_loop] is structural on the binary digits of the mask, and
    [update_loop], [advance], [skip_same_time] on their lists: no other
    fuel is used.  Go integers are unbounded [Z] because no modelled
    quantity approaches 2^63; where the code converts a wider value
    (the [uint64] key mask) or a float to a 64-bit integer, the
    conversion is written out ([wrap_int64], [int_of_float64]), and so are
    the [int64] counters [t] and [next] of the replay closure, whose
    timing theorems assume thresholds below [2^63].  The checked ranges: [TimeToTick] on
    [-10000, 10000] ms at 240 and 1000 TPS, and the clock against the
    replay on the first 12000 ticks at 1000 TPS from [DefaultWaitBefore]
    (the lead-in and ten seconds of music); both are evaluated with
    [vm_compute] over [forall_range].

    ** Findings recorded by the theorems

    The float tick round trip loses a tick; the replay listener panics at
    the sentinel and on a mask bit at or above [keyCount]; a meter mark
    lives [MaxCountdown + 1] updates, and [Update] relies on the marks'
    order; a key mask with bit 63 set decodes as no key; the meter's
    bands are one pixel off centre when [MeterWidth * Window] is not an
    integer; holding Escape on the result scene delays the scene change
    until the key is released; [SceneChanger] never refreshes
    [sc.Scene] and does not guard [changeScene] (a request during a
    transition restarts it, [transition_length]); [UpdateTransPoint]
    can keep a stale volume;
    [SetInitTransPoint] dereferences nil on a one-time chain and
    collapses only the leading run of equal times; the replay counts one
    millisecond per tick, so at a tick rate other than 1000 the keys the
    judgment sees lag the clock.

    ** Modelling conventions

    Go's [int] and [int64] are [Z]: no counter or time of the modelled
    code comes near 2^63 (times are milliseconds of one song); the
    conversions that can leave the range are written out.  A Go panic (nil
    dereference, index out of range) is [None] of an [option].  Go
    float64 values that are only added, multiplied and compared (volumes,
    BPM, scores, fade weights) are rationals [Q]: that abstraction ignores
    rounding, which none of their theorems depends on; the tick
    conversions, where rounding changes the integer result, are modelled
    with primitive floats instead, and a quotient whose divisor can be
    zero ([MarkAge]) is an [xfloat], with Go's infinities and NaN.
    Code of the repository that is not
    under src/ (the [TransPoint] record, [ctrl.Delayed], the countdown of
    [draws.BaseDrawer], the per-tick order of the piano play) is modelled
    from the spec; [DelayedUpdate] normalizes its rational with [Qred]
    (equal as a number) so that long runs stay cheap to evaluate.

    ** Not modelled

    The colour matrices and translations of the draw options ([ColorM],
    [GeoM]) beyond the values handed to them: calls into a rendering
    library with no state of the core.  The libraries the modelled code calls (audio players,
    image loading, [input.CurrentKeyAction], [os.ReadFile], [md5.Sum],
    the result scene's buttons) are section variables, not models: the
    theorems hold whatever they do.  [Note]
    is a record no code of src/ uses. *)

From Stdlib Require Import ZArith QArith List Lia PrimFloat SpecFloat FloatOps.
Import ListNotations.

Declare Scope gosu_scope.
Delimit Scope gosu_scope with gosu.

(** Sequencing of code that can panic: a Go panic is [None]. *)
Definition obind {A B : Type} (m : option A) (k : A -> option B) : option B :=
  match m with
  | Some a => k a
  | None => None
  end.

Notation "'let?' x ':=' m 'in' k" := (obind m (fun x => k))
  (at level 10, x pattern, k at level 200) : gosu_scope.

(** [n] calls of a fallible step, the way a per-tick closure is called. *)
Fixpoint orun {A : Type} (n : nat) (f : A -> option A) (a : A) : option A :=
  match n with
  | O => Some a
  | S n' => obind (f a) (orun n' f)
  end.

Create HintDb gosu.
Create Rewrite HintDb gosu_rw.

(** Turn the boolean comparisons of the code into propositions. *)
Ltac bool_to_prop :=
  repeat match goal with
  | H : (_ =? _)%Z = true |- _ => apply Z.eqb_eq in H
  | H : (_ =? _)%Z = false |- _ => apply Z.eqb_neq in H
  | H : (_ <=? _)%Z = true |- _ => apply Z.leb_le in H
  | H : (_ <=? _)%Z = false |- _ => apply Z.leb_gt in H
  | H : (_ <? _)%Z = true |- _ => apply Z.ltb_lt in H
  | H : (_ <? _)%Z = false |- _ => apply Z.ltb_ge in H
  | H : (_ =? _)%nat = true |- _ => apply Nat.eqb_eq in H
  | H : (_ =? _)%nat = false |- _ => apply Nat.eqb_neq in H
  | H : (_ <=? _)%nat = true |- _ => apply Nat.leb_le in H
  | H : (_ <=? _)%nat = false |- _ => apply Nat.leb_gt in H
  | H : (_ <? _)%nat = true |- _ => apply Nat.ltb_lt in H
  | H : (_ <? _)%nat = false |- _ => apply Nat.ltb_ge in H
  end.

(** Split on the first [if] of the goal, keeping its condition. *)
Ltac case_if :=
  match goal with
  | |- context [if ?c then _ else _] =>
      let E := fresh "E" in destruct c eqn:E; bool_to_prop
  end.

(** ** Shared lemmas *)

Lemma obind_Some {A B : Type} (a : A) (k : A -> option B) :
  obind (Some a) k = k a.
Proof. reflexivity. Qed.

Lemma obind_None {A B : Type} (k : A -> option B) :
  obind None k = None.
Proof. reflexivity. Qed.

#[export] Hint Rewrite @obind_Some @obind_None : gosu_rw.

Lemma orun_add {A : Type} (f : A -> option A) (n m : nat) (a : A) :
  orun (n + m) f a = obind (orun n f a) (orun m f).
Proof.
  revert a; induction n as [|n IH]; intros a; simpl; [reflexivity|].
  destruct (f a); simpl; [apply IH | reflexivity].
Qed.

Lemma orun_succ_r {A : Type} (f : A -> option A) (n : nat) (a : A) :
  orun (S n) f a = obind (orun n f a) f.
Proof.
  rewrite <- Nat.add_1_r, orun_add.
  destruct (orun n f a); simpl; [destruct (f a0)|]; reflexivity.
Qed.

(** An invariant of a fallible step holds after any number of calls. *)
Lemma orun_invariant {A : Type} (P : A -> Prop) (f : A -> option A) :
  (forall a a', P a -> f a = Some a' -> P a') ->
  forall n a a', P a -> orun n f a = Some a' -> P a'.
Proof.
  intros Hstep n; induction n as [|n IH]; simpl; intros a a' Ha Hrun.
  - congruence.
  - destruct (f a) as [b|] eqn:Hf; simpl in Hrun; [|discriminate].
    eauto.
Qed.

(** Go's integer division truncates toward zero: [Z.quot]. *)
Lemma quot_spec (a b : Z) :
  (0 < b)%Z ->
  exists r, a = (b * Z.quot a b + r)%Z /\ (Z.abs r < b)%Z /\
            ((0 <= a)%Z -> (0 <= r)%Z) /\ ((a <= 0)%Z -> (r <= 0)%Z).
Proof.
  intros Hb. exists (Z.rem a b).
  pose proof (Z.quot_rem' a b). pose proof (Z.rem_bound_abs a b ltac:(lia)).
  repeat split; try lia; intros; [apply Z.rem_nonneg | apply Z.rem_nonpos]; lia.
Qed.

Lemma quot_le_mono (a c b : Z) :
  (0 < b)%Z -> (a <= c)%Z -> (Z.quot a b <= Z.quot c b)%Z.
Proof. intros. apply Z.quot_le_mono; lia. Qed.

#[export] Hint Resolve quot_le_mono : gosu.

(** ** Go's numeric conversions

    The semantics of the language, not code of the repository: the
    definitions of src/ use them where the code converts. *)

(** [float64(x)] of an [int] or [int64] [x]: the nearest double, ties to
    even. *)
Definition float64_of_int (z : Z) : float :=
  SF2Prim (SpecFloat.binary_normalize FloatOps.prec FloatOps.emax z 0 false).

(** [int(f)] and [int64(f)] of a float64 on amd64 ([CVTTSD2SQ]):
    truncation toward zero of a finite value in range; a NaN, an infinity
    or a value outside the 64-bit range gives [-2^63]. *)
Definition int_of_float64 (f : float) : Z :=
  match Prim2SF f with
  | S754_zero _ => 0%Z
  | S754_finite s m e =>
      let a := if (0 <=? e)%Z then Z.shiftl (Z.pos m) e else Z.shiftr (Z.pos m) (- e) in
      let v := if s then (- a)%Z else a in
      if ((- 2 ^ 63 <=? v) && (v <? 2 ^ 63))%Z%bool then v else (- 2 ^ 63)%Z
  | _ => (- 2 ^ 63)%Z
  end.

(** Go's [int] and [int64] are 64-bit two's complement (amd64): a
    conversion from a wider value ([int] of a [uint64]) or an overflowing
    operation keeps the value modulo [2^64] in [[-2^63, 2^63)]. *)
Definition wrap_int64 (z : Z) : Z := ((z + 2 ^ 63) mod 2 ^ 64 - 2 ^ 63)%Z.

Lemma wrap_int64_small (z : Z) : (- 2 ^ 63 <= z < 2 ^ 63)%Z -> wrap_int64 z = z.
Proof. intros H. unfold wrap_int64. rewrite Z.mod_small by lia. lia. Qed.

Lemma wrap_int64_range (z : Z) : (- 2 ^ 63 <= wrap_int64 z < 2 ^ 63)%Z.
Proof. unfold wrap_int64. pose proof (Z.mod_pos_bound (z + 2 ^ 63) (2 ^ 64) ltac:(lia)). lia. Qed.

Lemma wrap_int64_idem (z : Z) : wrap_int64 (wrap_int64 z) = wrap_int64 z.
Proof. apply wrap_int64_small, wrap_int64_range. Qed.

(** Wrapping after each operation or once at the end gives the same. *)
Lemma wrap_int64_add_l (a b : Z) : wrap_int64 (wrap_int64 a + b) = wrap_int64 (a + b).
Proof.
  unfold wrap_int64. f_equal.
  replace ((a + 2 ^ 63) mod 2 ^ 64 - 2 ^ 63 + b + 2 ^ 63)%Z with ((a + 2 ^ 63) mod 2 ^ 64 + b)%Z by ring.
  rewrite Z.add_mod_idemp_l by lia. f_equal. ring.
Qed.

#[export] Hint Rewrite wrap_int64_idem wrap_int64_add_l : gosu_rw.

Lemma wrap_int64_high (z : Z) : (2 ^ 63 <= z < 2 ^ 64)%Z -> wrap_int64 z = (z - 2 ^ 64)%Z.
Proof.
  intros H. unfold wrap_int64.
  replace (z + 2 ^ 63)%Z with ((z + 2 ^ 63 - 2 ^ 64) + 1 * 2 ^ 64)%Z by ring.
  rewrite Z.mod_add, Z.mod_small by lia. lia.
Qed.

(** Go's float64 arithmetic where a quotient can leave the finite
    numbers: a finite value (a rational: rounding is not modelled), the
    two infinities and NaN.  Zeros are [+0], as [float64] of an integer
    [0] is. *)
Inductive xfloat := Fin (q : Q) | PosInf | NegInf | NaN.

Definition xneg (x : xfloat) : xfloat :=
  match x with Fin q => Fin (- q)%Q | PosInf => NegInf | NegInf => PosInf | NaN => NaN end.

Definition xadd (x y : xfloat) : xfloat :=
  match x, y with
  | NaN, _ | _, NaN => NaN
  | Fin a, Fin b => Fin (a + b)%Q
  | PosInf, NegInf | NegInf, PosInf => NaN
  | PosInf, _ | _, PosInf => PosInf
  | NegInf, _ | _, NegInf => NegInf
  end.

Definition xsub (x y : xfloat) : xfloat := xadd x (xneg y).

(** [x / y]: a non-zero finite value over [+0] is an infinity of its
    sign, [0 / 0] and [Inf / Inf] are NaN, a finite value over an
    infinity is [0]. *)
Definition xdiv (x y : xfloat) : xfloat :=
  match x, y with
  | NaN, _ | _, NaN => NaN
  | Fin a, Fin b =>
      if Qeq_bool b 0 then
        (if Qeq_bool a 0 then NaN else if Qle_bool a 0 then NegInf else PosInf)
      else Fin (a / b)%Q
  | Fin _, _ => Fin 0
  | PosInf, Fin b => if Qle_bool 0 b then PosInf else NegInf
  | NegInf, Fin b => if Qle_bool 0 b then NegInf else PosInf
  | _, _ => NaN
  end.

(** [x >= y]: false whenever a NaN is compared. *)
Definition xge (x y : xfloat) : bool :=
  match x, y with
  | NaN, _ | _, NaN => false
  | Fin a, Fin b => Qle_bool b a
  | PosInf, _ => true
  | _, NegInf => true
  | _, _ => false
  end.

Lemma xdiv_fin (a b : Q) : ~ (b == 0)%Q -> xdiv (Fin a) (Fin b) = Fin (a / b)%Q.
Proof.
  intros Hb. unfold xdiv. destruct (Qeq_bool b 0) eqn:E; [|reflexivity].
  apply Qeq_bool_iff in E. contradiction.
Qed.

(** Lists: the last element of a list, with a default. *)
Lemma last_app_single {A : Type} (l : list A) (x d : A) :
  last (l ++ [x]) d = x.
Proof.
  induction l as [|y l IH]; [reflexivity|].
  simpl. rewrite IH. destruct (l ++ [x]) eqn:E; [destruct l; discriminate|reflexivity].
Qed.

Lemma last_cons_cons {A : Type} (x y : A) (l : list A) (d : A) :
  last (x :: y :: l) d = last (y :: l) d.
Proof. reflexivity. Qed.

#[export] Hint Rewrite @last_cons_cons : gosu_rw.

(** A boolean check of [p] on the [n] integers from [lo], and its
    soundness: the way a property of a computation over a finite range of
    inputs is established by evaluation. *)
Fixpoint forall_range (p : Z -> bool) (lo : Z) (n : nat) : bool :=
  match n with
  | O => true
  | S n' => p lo && forall_range p (lo + 1)%Z n'
  end.

Lemma forall_range_sound (p : Z -> bool) (n : nat) :
  forall lo, forall_range p lo n = true ->
  forall t, (lo <= t < lo + Z.of_nat n)%Z -> p t = true.
Proof.
  induction n as [|n IH]; simpl; intros lo Hc t Ht; [lia|].
  apply andb_prop in Hc as [Hlo Hrest].
  destruct (Z.eq_dec t lo) as [->|Hne]; [exact Hlo|].
  apply (IH (lo + 1)%Z Hrest). lia.
Qed.

Lemma Some_eq_inv {A : Type} (a b : A) : Some a = Some b -> a = b.
Proof. congruence. Qed.

Lemma pair_eq_inv {A B : Type} (a c : A) (b d : B) : (a, b) = (c, d) -> a = c /\ b = d.
Proof. intros H. injection H as -> ->. split; reflexivity. Qed.

(** Invert a successful chain of [let?] binds in hypothesis [H]. *)
Ltac obind_inv :=
  repeat match goal with
  | H : obind ?m _ = Some _ |- _ =>
      let E := fresh "Ebind" in
      destruct m eqn:E; unfold obind in H; cbv beta iota in H; [|discriminate H]
  | H : match ?m with Some _ => _ | None => _ end = Some _ |- _ =>
      let E := fresh "Ebind" in
      destruct m eqn:E; cbv beta iota in H; [|discriminate H]
  | H : match ?p with pair _ _ => _ end = Some _ |- _ => destruct p; cbv beta iota in H
  | H : (if ?c then _ else _) = Some _ |- _ =>
      let E := fresh "Eif" in destruct c eqn:E; bool_to_prop
  | H : Some _ = Some _ |- _ => apply Some_eq_inv in H
  | H : (_, _) = (_, _) |- _ => apply pair_eq_inv in H; destruct H
  end.

Lemma nth_error_Some_lt {A : Type} (l : list A) (n : nat) (a : A) :
  nth_error l n = Some a -> (n < length l)%nat.
Proof. intros H. apply nth_error_Some. congruence. Qed.
