(* ===== verification/Clock.v ===== *)
(** * Clock: the tick counter of a play and its time conversions

    [TimeToTick], [TickToTime], [ScenePlay.Time] and [SetTick] of
    src/mode/play.go.  Go evaluates [float64(time) / 1000 * float64(MaxTPS)]
    in IEEE binary64 and truncates it toward zero with [int(...)]; the
    model does the same with Rocq's primitive floats, so that what it
    computes is what the program computes.  The exact conversions
    [time_to_tick_exact] and [tick_to_time_exact] are the integer
    functions the code means to compute; the theorems bound the exact
    round trip and compare the float code with it. *)

From Stdlib Require Import ZArith PrimFloat FloatOps SpecFloat Lia.
From S2P Require Import Prelude.

Open Scope Z_scope.

Module Clock.

(** [func TimeToTick(time int64) int { return int(float64(time) / 1000 *
    float64(MaxTPS)) }], at the tick rate [MaxTPS]. *)
Definition TimeToTick (MaxTPS time : Z) : Z :=
  int_of_float64 (PrimFloat.mul (PrimFloat.div (float64_of_int time) 1000%float) (float64_of_int MaxTPS)).

(** [func TickToTime(tick int) int64 { return int64(float64(tick) /
    float64(MaxTPS) * 1000) }] *)
Definition TickToTime (MaxTPS tick : Z) : Z :=
  int_of_float64 (PrimFloat.mul (PrimFloat.div (float64_of_int tick) (float64_of_int MaxTPS)) 1000%float).

(** [func (s ScenePlay) Time() int64 { return int64(float64(s.Tick) /
    float64(MaxTPS) * 1000) }] *)
Definition Time (MaxTPS Tick : Z) : Z :=
  int_of_float64 (PrimFloat.mul (PrimFloat.div (float64_of_int Tick) (float64_of_int MaxTPS)) 1000%float).

(** [DefaultWaitBefore = int64(-1.8 * 1000)], [DefaultWaitAfter = 3 * 1000]. *)
Definition DefaultWaitBefore : Z := -1800.
Definition DefaultWaitAfter : Z := 3000.

(** [func (s *ScenePlay) SetTick(rf *osr.Format) int64]: [buffer] is
    [Some rf.BufferTime()] when a replay is given ([rf != nil]).  The
    result is the wait returned and the new [s.Tick]. *)
Definition SetTick (MaxTPS : Z) (buffer : option Z) : Z * Z :=
  let waitBefore :=
    match buffer with
    | Some b => if b <? DefaultWaitBefore then b else DefaultWaitBefore
    | None => DefaultWaitBefore
    end in
  (waitBefore, TimeToTick MaxTPS waitBefore - 1).

(** The integer conversions the code approximates. *)
Definition time_to_tick_exact (MaxTPS time : Z) : Z := Z.quot (time * MaxTPS) 1000.
Definition tick_to_time_exact (MaxTPS tick : Z) : Z := Z.quot (tick * 1000) MaxTPS.

(** The check run over a range of times: the float conversion is within
    one tick of the exact one, below it, and monotone. *)
Definition clock_check (MaxTPS t : Z) : bool :=
  let k := TimeToTick MaxTPS t in
  let e := time_to_tick_exact MaxTPS t in
  (Z.abs (e - k) <=? 1) && (Z.abs k <=? Z.abs e) && (k <=? TimeToTick MaxTPS (t + 1)).

Section Exact.
Variable MaxTPS : Z.
Hypothesis HTPS : 0 < MaxTPS.

Lemma time_to_tick_exact_mono (a b : Z) :
  a <= b -> time_to_tick_exact MaxTPS a <= time_to_tick_exact MaxTPS b.
Proof. intros. unfold time_to_tick_exact. apply quot_le_mono; nia. Qed.

(** Going to ticks and back never moves away from zero, and loses less
    than one tick plus the truncation of the way back. *)
Lemma exact_round_trip (t : Z) :
  let back := tick_to_time_exact MaxTPS (time_to_tick_exact MaxTPS t) in
  Z.abs back <= Z.abs t /\ Z.abs (t - back) * MaxTPS < 1000 + MaxTPS.
Proof.
  cbv zeta; unfold tick_to_time_exact, time_to_tick_exact.
  destruct (quot_spec (t * MaxTPS) 1000 ltac:(lia)) as (r1 & E1 & B1 & P1 & N1).
  set (k := Z.quot (t * MaxTPS) 1000) in *.
  destruct (quot_spec (k * 1000) MaxTPS HTPS) as (r2 & E2 & B2 & P2 & N2).
  set (b := Z.quot (k * 1000) MaxTPS) in *.
  destruct (Z.le_ge_cases 0 t).
  - assert (0 <= r1) by (apply P1; nia). assert (0 <= k) by nia.
    assert (0 <= r2) by (apply P2; lia).
    assert (0 <= b) by nia. assert (b <= t) by nia.
    rewrite (Z.abs_eq b), (Z.abs_eq t), (Z.abs_eq (t - b)) by lia. nia.
  - assert (r1 <= 0) by (apply N1; nia). assert (k <= 0) by nia.
    assert (r2 <= 0) by (apply N2; lia).
    assert (b <= 0) by nia. assert (t <= b) by nia.
    rewrite (Z.abs_neq b), (Z.abs_neq t), (Z.abs_neq (t - b)) by lia. nia.
Qed.
End Exact.

Lemma clock_check_spec (MaxTPS t : Z) :
  clock_check MaxTPS t = true ->
  Z.abs (time_to_tick_exact MaxTPS t - TimeToTick MaxTPS t) <= 1 /\
  Z.abs (TimeToTick MaxTPS t) <= Z.abs (time_to_tick_exact MaxTPS t) /\
  TimeToTick MaxTPS t <= TimeToTick MaxTPS (t + 1).
Proof.
  unfold clock_check. intros H.
  repeat match goal with H : (_ && _)%bool = true |- _ => apply andb_prop in H as [? ?] end.
  bool_to_prop. lia.
Qed.

(** C34: at 240 and at 1000 ticks per second, for every time within ten
    seconds of the start, the float [TimeToTick] of the code is at most
    one tick below the exact conversion (never above it in magnitude) and
    is monotone in the time. *)
Theorem TimeToTick_close_to_exact (MaxTPS t : Z) :
  (MaxTPS = 240 \/ MaxTPS = 1000) -> -10000 <= t <= 10000 ->
  Z.abs (time_to_tick_exact MaxTPS t - TimeToTick MaxTPS t) <= 1 /\
  Z.abs (TimeToTick MaxTPS t) <= Z.abs (time_to_tick_exact MaxTPS t) /\
  TimeToTick MaxTPS t <= TimeToTick MaxTPS (t + 1).
Proof.
  intros [-> | ->] Ht; apply clock_check_spec;
    [ apply (forall_range_sound (clock_check 240) 20001 (-10000))
    | apply (forall_range_sound (clock_check 1000) 20001 (-10000)) ];
    solve [vm_compute; reflexivity | change (Z.of_nat 20001) with 20001; lia].
Qed.

(** The float round trip can lose a whole tick.  At 1000 ticks per
    second, [TimeToTick 1001 = 1000] (the exact value is 1001) and
    [TickToTime 1000 = 1000], one full tick (1 ms) short; at 240 ticks per
    second, 1025 ms gives tick 245 (exact: 246) and back 1020 ms, 5 ms
    short of a 4.17 ms tick.  The spec promises less than one tick. *)
Example TimeToTick_round_trip_loses_a_tick :
  TimeToTick 1000 1001 = 1000 /\ time_to_tick_exact 1000 1001 = 1001 /\
  TickToTime 1000 (TimeToTick 1000 1001) = 1000 /\
  TimeToTick 240 1025 = 245 /\ time_to_tick_exact 240 1025 = 246 /\
  TickToTime 240 (TimeToTick 240 1025) = 1020.
Proof. vm_compute. repeat split. Qed.

(** The witness of C34 at the time where the float conversion is one below. *)
Lemma TimeToTick_close_to_exact_witness :
  Z.abs (time_to_tick_exact 1000 1001 - TimeToTick 1000 1001) <= 1 /\
  Z.abs (TimeToTick 1000 1001) <= Z.abs (time_to_tick_exact 1000 1001) /\
  TimeToTick 1000 1001 <= TimeToTick 1000 (1001 + 1).
Proof. apply (TimeToTick_close_to_exact 1000 1001); [right; reflexivity | lia]. Defined.

(** The check behind the next theorem: at 1000 ticks per second, the time
    of tick [tick0 + 1 + m] is within one ms of the replay's time [w + m],
    and rounded toward zero. *)
Definition sync_check (w tick0 m : Z) : bool :=
  let c := Time 1000 (tick0 + 1 + m) in
  (Z.abs (c - (w + m)) <=? 1) && (if 0 <=? w + m then c <=? w + m else w + m <=? c).



End Clock.
