(* ===== verification/Replay.v ===== *)
(** * Replay: the replay listener of src/mode/piano/replay.go

    [NewReplayListener] appends a sentinel action of wait 2e9 to the
    trimmed replay actions and returns a closure over [(i, t, next)]; each
    call advances [i] by at most one action when [t] has reached [next],
    decodes the key mask [actions[i].X] into a [keyCount]-long vector and
    increments [t].  The closure is modelled as the record [Listener] and
    the step [listen]; the bit loop is [decode_loop], a recursion on the
    binary digits of the mask that follows [x /= 2].  Index errors of the
    Go slices are [None]; the [int64] additions to [t] and [next] and the
    conversion [int(actions[i].X)] wrap around as Go's do
    ([wrap_int64]). *)

From Stdlib Require Import ZArith List Lia.
From S2P Require Import Prelude.
Import ListNotations.

Open Scope Z_scope.
Open Scope gosu_scope.

Module Replay.

(** [osr.Action] (not under src/), as the spec gives it: the wait [W]
    in ms since the previous action ([int64]) and the key mask [X]
    ([uint64], so [0 <= X < 2^64]). *)
Record Action := mkAction { W : Z; X : Z }.

(** [osr.Action{W: 2e9}] *)
Definition sentinel : Action := mkAction 2000000000 0.

(** [pressed[k] = true]: out of range is Go's index panic. *)
Fixpoint set_pressed (k : nat) (pressed : list bool) : option (list bool) :=
  match pressed, k with
  | [], _ => None
  | _ :: rest, O => Some (true :: rest)
  | b :: rest, S k' =>
      match set_pressed k' rest with
      | Some r => Some (b :: r)
      | None => None
      end
  end.

(** [for x := int(actions[i].X); x > 0; x /= 2 { if x%2 == 1 {
    pressed[k] = true }; k++ }] for [x > 0], one binary digit per turn. *)
Fixpoint decode_loop (x : positive) (k : nat) (pressed : list bool) : option (list bool) :=
  match x with
  | xH => set_pressed k pressed
  | xO x' => decode_loop x' (S k) pressed
  | xI x' =>
      match set_pressed k pressed with
      | Some p => decode_loop x' (S k) p
      | None => None
      end
  end.

(** [pressed := make([]bool, keyCount)] (a negative length panics)
    followed by the loop from [x := int(actions[i].X)]: the [uint64] mask
    converted to a 64-bit [int]; the loop runs while [x > 0]. *)
Definition decode (keyCount : Z) (mask : Z) : option (list bool) :=
  if keyCount <? 0 then None
  else
    let pressed := repeat false (Z.to_nat keyCount) in
    match wrap_int64 mask with
    | Zpos p => decode_loop p 0 pressed
    | _ => Some pressed
    end.

(** The key vector the mask means: bit [k] of [x] for each key [k]. *)
Definition key_bits (keyCount : nat) (x : Z) : list bool :=
  map (fun k => Z.testbit x (Z.of_nat k)) (seq 0 keyCount).

(** The closure's captured state: [actions] (trimmed actions and the
    sentinel), [keyCount], and the variables [i], [t], [next]. *)
Record Listener := mkListener {
  actions : list Action;
  keyCount : Z;
  i : nat;
  t : Z;
  next : Z
}.

(** [func NewReplayListener(f *osr.Format, keyCount int, waitBefore
    int64) func() []bool]: [trimmed] is [f.TrimmedActions()] (osr is not
    under src/); [actions = append(actions, osr.Action{W: 2e9})],
    [var i int], [var t = waitBefore],
    [var next = 0 + 1 + actions[0].W + actions[1].W] (an [int64] sum;
    the index [1] panics on a one-element slice). *)
Definition NewReplayListener (trimmed : list Action) (keyCount waitBefore : Z)
  : option Listener :=
  let actions := trimmed ++ [sentinel] in
  let? a0 := nth_error actions 0 in
  let? a1 := nth_error actions 1 in
  Some (mkListener actions keyCount 0 waitBefore (wrap_int64 (0 + 1 + W a0 + W a1))).

(** One call of the returned closure: [if t >= next { i++; next +=
    actions[i+1].W }], then [pressed] decoded from [actions[i].X], then
    [t++] and [return pressed] ([t] and [next] are [int64]: the
    additions wrap around). *)
Definition listen (s : Listener) : option (Listener * list bool) :=
  let? (i', next') :=
    if next s <=? t s then
      let? a := nth_error (actions s) (S (S (i s))) in
      Some (S (i s), wrap_int64 (next s + W a))
    else Some (i s, next s) in
  let? a := nth_error (actions s) i' in
  let? pressed := decode (keyCount s) (X a) in
  Some (mkListener (actions s) (keyCount s) i' (wrap_int64 (t s + 1)) next', pressed).

(** [n] calls of the closure, with the vectors they return. *)
Fixpoint listen_n (n : nat) (s : Listener) : option (Listener * list (list bool)) :=
  match n with
  | O => Some (s, [])
  | S n' =>
      let? (s1, p) := listen s in
      let? (s2, ps) := listen_n n' s1 in
      Some (s2, p :: ps)
  end.

(** ** Reference timing

    [wsum l n] is the total wait of the first [n] actions; [thr l j] is
    the value of [next] while action [j - 1] is current: the listener
    moves to action [j] at the first call with [t >= thr l j].  Action
    [j] is active at time [t] when its threshold has passed (or it is
    the first) and the next one has not. *)
Fixpoint wsum (l : list Action) (n : nat) {struct n} : Z :=
  match n with
  | O => 0
  | S n' => match l with [] => 0 | a :: l' => W a + wsum l' n' end
  end.

Definition thr (l : list Action) (j : nat) : Z := 1 + wsum l (S j).

Definition active (l : list Action) (time : Z) (j : nat) : Prop :=
  (j = 0%nat \/ thr l j <= time) /\ time < thr l (S j).

(** ** The bit loop *)

Definition upd (f : nat -> bool) (k : nat) : nat -> bool :=
  fun j => if Nat.eqb j k then true else f j.

Lemma set_pressed_tab (f : nat -> bool) (n : nat) :
  forall b k, set_pressed k (map f (seq b n)) =
    if Nat.ltb k n then Some (map (upd f (b + k)) (seq b n)) else None.
Proof.
  induction n as [|n IH]; intros b k; [destruct k; reflexivity|].
  destruct k as [|k]; simpl.
  - f_equal. f_equal.
    + unfold upd. rewrite Nat.add_0_r, Nat.eqb_refl. reflexivity.
    + apply map_ext_in. intros j Hj%in_seq. unfold upd.
      destruct (Nat.eqb_spec j (b + 0)); [lia | reflexivity].
  - rewrite IH. destruct (Nat.ltb_spec k n), (Nat.ltb_spec (S k) (S n)); try lia;
      [|reflexivity].
    f_equal. f_equal.
    + unfold upd. destruct (Nat.eqb_spec b (b + S k)); [lia | reflexivity].
    + rewrite Nat.add_succ_r. reflexivity.
Qed.

Lemma tab_ext (f g : nat -> bool) (b n : nat) :
  (forall j, b <= j < b + n -> f j = g j)%nat -> map f (seq b n) = map g (seq b n).
Proof. intros H. apply map_ext_in. intros j Hj%in_seq. apply H. lia. Qed.

(** Bit [j] of the mask shifted left by [k]. *)
Definition shifted_bit (x : positive) (k j : nat) : bool :=
  (Nat.leb k j && Z.testbit (Zpos x) (Z.of_nat (j - k)))%bool.

Lemma shifted_bit_xO (x : positive) (k j : nat) :
  shifted_bit (xO x) k j = shifted_bit x (S k) j.
Proof.
  unfold shifted_bit. change (Zpos (xO x)) with (2 * Zpos x).
  destruct (Nat.leb_spec k j), (Nat.leb_spec (S k) j); cbn [andb]; try reflexivity; try lia.
  - replace (Z.of_nat (j - k)) with (Z.succ (Z.of_nat (j - S k))) by lia.
    apply Z.testbit_even_succ. lia.
  - replace (j - k)%nat with 0%nat by lia. apply Z.testbit_even_0.
Qed.

Lemma shifted_bit_xI (x : positive) (k j : nat) :
  shifted_bit (xI x) k j = (Nat.eqb j k || shifted_bit x (S k) j)%bool.
Proof.
  unfold shifted_bit. change (Zpos (xI x)) with (2 * Zpos x + 1).
  destruct (Nat.eqb_spec j k) as [->|Hne].
  - rewrite Nat.leb_refl, Nat.sub_diag. apply Z.testbit_odd_0.
  - destruct (Nat.leb_spec k j), (Nat.leb_spec (S k) j); cbn [andb]; try reflexivity; try lia.
    replace (Z.of_nat (j - k)) with (Z.succ (Z.of_nat (j - S k))) by lia.
    apply Z.testbit_odd_succ. lia.
Qed.

Lemma log2_xO (x : positive) : Z.log2 (Zpos (xO x)) = Z.log2 (Zpos x) + 1.
Proof. rewrite Pos2Z.inj_xO, Z.log2_double; lia. Qed.

Lemma log2_xI (x : positive) : Z.log2 (Zpos (xI x)) = Z.log2 (Zpos x) + 1.
Proof. rewrite Pos2Z.inj_xI, Z.log2_succ_double; lia. Qed.

(** The loop sets the bits of [x] shifted by [k] when its highest bit
    fits in the vector, and panics otherwise. *)
Lemma decode_loop_spec (n : nat) (x : positive) :
  forall k f,
  decode_loop x k (map f (seq 0 n)) =
    if Z.of_nat k + Z.log2 (Zpos x) <? Z.of_nat n
    then Some (map (fun j => f j || shifted_bit x k j)%bool (seq 0 n))
    else None.
Proof.
  induction x as [x IH|x IH|]; intros k f; simpl decode_loop;
    try pose proof (Z.log2_nonneg (Zpos x)) as Hlog.
  - rewrite set_pressed_tab, log2_xI. simpl Nat.add.
    destruct (Nat.ltb_spec k n) as [Hk|Hk].
    + rewrite IH. case_if; case_if; try lia; [|reflexivity].
      f_equal. apply tab_ext. intros j _. rewrite shifted_bit_xI. unfold upd.
      destruct (Nat.eqb j k); simpl; [rewrite Bool.orb_true_r|]; reflexivity.
    + case_if; [lia | reflexivity].
  - rewrite IH, log2_xO. case_if; case_if; try lia; [|reflexivity].
    f_equal. apply tab_ext. intros j _. rewrite shifted_bit_xO. reflexivity.
  - rewrite set_pressed_tab. simpl Nat.add. change (Z.log2 1) with 0.
    destruct (Nat.ltb_spec k n); case_if; try lia; [|reflexivity].
    f_equal. apply tab_ext. intros j _. unfold upd, shifted_bit.
    destruct (Nat.eqb_spec j k) as [->|Hne].
    + rewrite Nat.leb_refl, Nat.sub_diag, Bool.orb_true_r. reflexivity.
    + destruct (Nat.leb_spec k j); simpl; [|rewrite Bool.orb_false_r; reflexivity].
      rewrite Z.bits_above_log2 by (cbn [Z.log2]; lia). rewrite Bool.orb_false_r. reflexivity.
Qed.

Lemma repeat_false_tab (n : nat) :
  repeat false n = map (fun _ => false) (seq 0 n).
Proof.
  rewrite <- (length_seq n 0) at 1. generalize 0%nat.
  induction n as [|n IH]; intros b; simpl; [reflexivity|]. f_equal. apply IH.
Qed.

(** A mask that fits in [keyCount] bits decodes to its bits. *)
Lemma decode_fits (keyCount x : Z) :
  0 <= keyCount -> 0 <= x < 2 ^ keyCount -> x < 2 ^ 63 ->
  decode keyCount x = Some (key_bits (Z.to_nat keyCount) x).
Proof.
  intros Hk Hx H63. unfold decode, key_bits. rewrite wrap_int64_small by lia.
  destruct (Z.ltb_spec keyCount 0) as [|_]; [lia|].
  rewrite repeat_false_tab.
  destruct x as [|p|p]; [|simpl Z.of_nat |lia].
  - f_equal. apply tab_ext. intros j _. rewrite Z.testbit_0_l. reflexivity.
  - rewrite decode_loop_spec, Z2Nat.id by lia. simpl (Z.of_nat 0). rewrite Z.add_0_l.
    pose proof (Z.log2_lt_pow2 (Zpos p) keyCount ltac:(lia)) as Hiff.
    rewrite (proj2 (Z.ltb_lt _ _)) by (apply Hiff; lia).
    f_equal. apply tab_ext. intros j _. unfold shifted_bit.
    rewrite Nat.sub_0_r. reflexivity.
Qed.

(** C5: decoding a [uint64] mask with a non-negative key count: a mask
    below [2^63] yields bit [k] of the mask for each key [k] when it fits
    in [keyCount] bits and panics (index out of range) when it does not;
    a mask with bit 63 set is negative as an [int], the loop does not
    run, and every key reads released. *)
Theorem decode_spec (keyCount x : Z) :
  0 <= keyCount -> 0 <= x < 2 ^ 64 ->
  decode keyCount x =
    if x <? 2 ^ 63 then
      (if x <? 2 ^ keyCount then Some (key_bits (Z.to_nat keyCount) x) else None)
    else Some (repeat false (Z.to_nat keyCount)).
Proof.
  intros Hk Hx. destruct (Z.ltb_spec x (2 ^ 63)) as [H63|H63].
  2:{ unfold decode. destruct (Z.ltb_spec keyCount 0); [lia|].
      rewrite wrap_int64_high by lia.
      destruct (x - 2 ^ 64) eqn:E; [lia | lia | reflexivity]. }
  destruct (Z.ltb_spec x (2 ^ keyCount)) as [Hlt|Hge].
  - apply decode_fits; lia.
  - pose proof (Z.pow_pos_nonneg 2 keyCount ltac:(lia) Hk).
    destruct x as [|p|p]; [lia| |lia]. unfold decode. rewrite wrap_int64_small by lia.
    destruct (Z.ltb_spec keyCount 0) as [|_]; [lia|].
    rewrite repeat_false_tab, decode_loop_spec, Z2Nat.id by lia. simpl (Z.of_nat 0).
    pose proof (Z.log2_lt_pow2 (Zpos p) keyCount ltac:(lia)) as Hiff.
    destruct (Z.ltb_spec (0 + Z.log2 (Zpos p)) keyCount); [exfalso; lia | reflexivity].
Qed.

(** The witness of C5: the spec's example, mask [0b101] with three keys. *)
Lemma decode_spec_witness :
  0 <= 3 /\ 0 <= 5 < 2 ^ 64 /\ decode 3 5 = Some [true; false; true].
Proof.
  split; [lia|]. split; [lia|].
  rewrite (decode_spec 3 5) by lia. reflexivity.
Defined.

(** ** Thresholds *)

Lemma wsum_succ (l : list Action) (n : nat) :
  (n < length l)%nat -> wsum l (S n) = wsum l n + W (nth n l sentinel).
Proof.
  revert n; induction l as [|a l IH]; intros n Hn; [simpl in Hn; lia|].
  destruct n as [|n]; [simpl; lia|].
  change (wsum (a :: l) (S (S n))) with (W a + wsum l (S n)).
  change (wsum (a :: l) (S n)) with (W a + wsum l n).
  change (nth (S n) (a :: l) sentinel) with (nth n l sentinel).
  simpl in Hn. rewrite IH by lia. lia.
Qed.

Lemma thr_succ (l : list Action) (j : nat) :
  (S j < length l)%nat -> thr l (S j) = thr l j + W (nth (S j) l sentinel).
Proof. intros H. unfold thr. rewrite (wsum_succ l (S j)) by lia. lia. Qed.

Lemma wsum_2 (l : list Action) (a b : Action) :
  nth_error l 0 = Some a -> nth_error l 1 = Some b -> wsum l 2 = W a + W b.
Proof.
  destruct l as [|x [|y l]]; simpl; intros Ha Hb; try discriminate.
  injection Ha as <-. injection Hb as <-. lia.
Qed.

Lemma nth_error_acts (trimmed : list Action) (j : nat) :
  (j < length (trimmed ++ [sentinel]))%nat ->
  nth_error (trimmed ++ [sentinel]) j = Some (nth j (trimmed ++ [sentinel]) sentinel).
Proof. intros H. apply nth_error_nth'. exact H. Qed.

Lemma nth_acts_real (trimmed : list Action) (j : nat) :
  (j < length trimmed)%nat -> nth j (trimmed ++ [sentinel]) sentinel = nth j trimmed sentinel.
Proof. intros H. apply app_nth1. exact H. Qed.

Lemma length_acts (trimmed : list Action) :
  length (trimmed ++ [sentinel]) = S (length trimmed).
Proof. rewrite length_app. simpl. lia. Qed.

#[export] Hint Rewrite length_acts : gosu_rw.

(** The state invariant of the closure: the action after the current
    one exists (the current one is never the sentinel) and [next] is the
    threshold of that action, as an [int64]. *)
Definition listener_inv (s : Listener) : Prop :=
  (S (S (i s)) <= length (actions s))%nat /\ next s = wrap_int64 (thr (actions s) (S (i s))).

(** The timing window: [t] has passed the current action's threshold and
    not the next one's. *)
Definition window (s : Listener) : Prop :=
  listener_inv s /\ (i s = 0%nat \/ thr (actions s) (i s) < t s) /\
  - 2 ^ 63 <= t s <= thr (actions s) (S (i s)).

Lemma listen_inv (s s' : Listener) (p : list bool) :
  listener_inv s -> listen s = Some (s', p) ->
  listener_inv s' /\ actions s' = actions s /\ keyCount s' = keyCount s /\ t s' = wrap_int64 (t s + 1).
Proof.
  destruct s as [acts kc i0 t0 nx]; unfold listener_inv, listen.
  cbv beta iota delta [actions keyCount i t next]. intros [Hlen Hnx] H. obind_inv; subst; cbv beta iota delta [actions keyCount i t next].
  - match goal with Ha : nth_error _ (S (S i0)) = Some ?a |- _ =>
      apply nth_error_Some_lt in Ha as Hl;
      apply nth_error_nth with (d := sentinel) in Ha; subst a end.
    rewrite (thr_succ acts (S i0)) by lia. repeat split; try lia.
    rewrite wrap_int64_add_l. reflexivity.
  - repeat split; lia.
Qed.

Lemma listen_n_inv (n : nat) :
  forall s s' ps, listener_inv s -> listen_n n s = Some (s', ps) ->
  listener_inv s' /\ actions s' = actions s /\ keyCount s' = keyCount s /\
  (wrap_int64 (t s) = t s -> t s' = wrap_int64 (t s + Z.of_nat n)) /\ length ps = n.
Proof.
  induction n as [|n IH]; intros s s' ps Hs H; simpl in H; obind_inv; subst.
  - split; [exact Hs|]. simpl. repeat split. intros Hw. rewrite Z.add_0_r. congruence.
  - destruct (listen_inv _ _ _ Hs Ebind) as (H1 & Ha1 & Hk1 & Ht1).
    destruct (IH _ _ _ H1 Ebind0) as (H2 & Ha2 & Hk2 & Ht2 & Hl2).
    split; [exact H2|]. simpl. rewrite Ha2, Ha1, Hk2, Hk1, Hl2.
    repeat split. intros _. rewrite Ht2 by (rewrite Ht1; apply wrap_int64_idem).
    rewrite Ht1, wrap_int64_add_l. f_equal. lia.
Qed.

Lemma NewReplayListener_inv (trimmed : list Action) (kc w : Z) (s : Listener) :
  NewReplayListener trimmed kc w = Some s ->
  listener_inv s /\ actions s = trimmed ++ [sentinel] /\ keyCount s = kc /\
  t s = w /\ i s = 0%nat /\ trimmed <> [].
Proof.
  unfold NewReplayListener. intros H. obind_inv. subst.
  match goal with Ha : nth_error _ 0 = Some _, Hb : nth_error _ 1 = Some _ |- _ =>
    pose proof (wsum_2 _ _ _ Ha Hb) as Hw; apply nth_error_Some_lt in Hb as Hl end.
  rewrite length_acts in Hl.
  unfold listener_inv, thr. cbv beta iota delta [actions keyCount i t next].
  split; [split; [rewrite length_acts; lia | rewrite Hw; f_equal; lia] |].
  repeat split. intros ->. simpl in Hl. lia.
Qed.

(** A new listener started no later than the first threshold is in its
    timing window. *)
Lemma NewReplayListener_window (trimmed : list Action) (kc w : Z) (s0 : Listener) :
  NewReplayListener trimmed kc w = Some s0 -> - 2 ^ 63 <= w <= thr (trimmed ++ [sentinel]) 1 ->
  window s0 /\ actions s0 = trimmed ++ [sentinel] /\ keyCount s0 = kc /\ t s0 = w.
Proof.
  intros H0 Hstart. destruct (NewReplayListener_inv _ _ _ _ H0) as (Hinv & Ha & Hk & Ht & Hi & _).
  split; [|tauto]. split; [exact Hinv|]. rewrite Hi, Ha, Ht.
  split; [left; reflexivity | exact Hstart].
Qed.

(** C10: after [NewReplayListener] and any number of successful calls,
    the current action is a real one, never the sentinel ([i] is below
    the number of trimmed actions), [next] is the threshold of the
    following action, and [t] has advanced by one per call, both as
    [int64] values (wrapped around past [2^63]). *)
Theorem listener_never_reaches_sentinel (trimmed : list Action) (kc w : Z) (n : nat)
  (s0 s : Listener) (outs : list (list bool)) :
  - 2 ^ 63 <= w < 2 ^ 63 ->
  NewReplayListener trimmed kc w = Some s0 -> listen_n n s0 = Some (s, outs) ->
  (i s < length trimmed)%nat /\ next s = wrap_int64 (thr (trimmed ++ [sentinel]) (S (i s))) /\
  t s = wrap_int64 (w + Z.of_nat n).
Proof.
  intros Hw H0 Hn. destruct (NewReplayListener_inv _ _ _ _ H0) as (Hi & Ha & _ & Ht & _).
  destruct (listen_n_inv _ _ _ _ Hi Hn) as ((Hlen & Hnx) & Ha' & _ & Ht' & _).
  rewrite Ha', Ha in *. rewrite length_acts in Hlen. split; [lia|]. split; [exact Hnx|].
  rewrite Ht' by (rewrite Ht; apply wrap_int64_small; exact Hw). rewrite Ht. reflexivity.
Qed.

(** C16: the call that would make the sentinel current panics: when the
    last real action is current and [t] has reached [next], the closure
    reads [actions[i+1]] one past the end.  The spec says such a call
    yields the sentinel's all-released state. *)
Theorem listen_panics_at_sentinel (trimmed : list Action) (kc w : Z) (n : nat)
  (s0 s : Listener) (outs : list (list bool)) :
  NewReplayListener trimmed kc w = Some s0 -> listen_n n s0 = Some (s, outs) ->
  S (i s) = length trimmed -> next s <= t s -> listen s = None.
Proof.
  intros H0 Hn Hlast Hdue.
  destruct (NewReplayListener_inv _ _ _ _ H0) as (Hi & Ha & _).
  destruct (listen_n_inv _ _ _ _ Hi Hn) as (_ & Ha' & _).
  unfold listen. rewrite (proj2 (Z.leb_le _ _) Hdue), Ha', Ha.
  rewrite (proj2 (nth_error_None _ _)); [reflexivity|].
  rewrite length_acts. lia.
Qed.

(** ** Refinement of the timing reference

    With strictly positive waits from the third action on (so that the
    thresholds increase strictly), a start time not past the first
    threshold, and masks that fit in [keyCount] bits, each call of the
    closure made before the sentinel's threshold succeeds and returns the
    keys of the action active at its time. *)
Section Timing.
Variable trimmed : list Action.
Variable kc : Z.
Hypothesis Hwaits : Forall (fun a => 1 <= W a) (skipn 2 trimmed).
Hypothesis Hkc : 0 <= kc.
Hypothesis Hmasks : Forall (fun a => 0 <= X a < 2 ^ kc /\ X a < 2 ^ 63) trimmed.

Let acts := trimmed ++ [sentinel].

Lemma wait_pos (j : nat) :
  (2 <= j < length acts)%nat -> 1 <= W (nth j acts sentinel).
Proof.
  unfold acts; rewrite length_acts. intros Hj.
  destruct (Nat.ltb_spec j (length trimmed)) as [Hlt|Hge].
  - rewrite nth_acts_real by exact Hlt.
    rewrite Forall_nth in Hwaits.
    specialize (Hwaits (j - 2)%nat sentinel). rewrite length_skipn, nth_skipn in Hwaits.
    replace (2 + (j - 2))%nat with j in Hwaits by lia. apply Hwaits. lia.
  - rewrite app_nth2 by lia. replace (j - length trimmed)%nat with 0%nat by lia.
    simpl. lia.
Qed.

Hypothesis Hhi : thr acts (length trimmed) < 2 ^ 63.

(** From the second action on the thresholds increase, up to the
    sentinel's. *)
Lemma thr_le_last (j : nat) :
  (1 <= j <= length trimmed)%nat -> thr acts j <= thr acts (length trimmed).
Proof.
  intros Hj. remember (length trimmed - j)%nat as d eqn:Hd. revert j Hj Hd.
  induction d as [|d IH]; intros j Hj Hd.
  - replace j with (length trimmed) by lia. lia.
  - assert (Hs := thr_succ acts j ltac:(unfold acts; rewrite length_acts; lia)).
    assert (Hw := wait_pos (S j) ltac:(unfold acts; rewrite length_acts; lia)).
    specialize (IH (S j) ltac:(lia) ltac:(lia)). lia.
Qed.

Lemma decode_real (j : nat) :
  (j < length trimmed)%nat ->
  decode kc (X (nth j acts sentinel)) = Some (key_bits (Z.to_nat kc) (X (nth j trimmed sentinel))).
Proof.
  intros Hj. unfold acts. rewrite nth_acts_real by exact Hj.
  rewrite Forall_nth in Hmasks. destruct (Hmasks j sentinel Hj) as [H0 H1].
  apply decode_fits; lia.
Qed.

(** One call from a state in its timing window. *)
Lemma listen_window (s : Listener) :
  actions s = acts -> keyCount s = kc -> window s ->
  t s < thr acts (length trimmed) ->
  exists s',
    listen s = Some (s', key_bits (Z.to_nat kc) (X (nth (i s') trimmed sentinel))) /\
    window s' /\ actions s' = acts /\ keyCount s' = kc /\ t s' = t s + 1 /\
    (i s' < length trimmed)%nat /\ active acts (t s) (i s').
Proof.
  destruct s as [a k i0 t0 nx].
  cbv beta iota delta [actions keyCount i t next window listener_inv].
  intros -> -> ((Hlen & Hnx) & Hlo & Hmin & Hmax) Hend.
  assert (Hl := length_acts trimmed).
  assert (Hr : - 2 ^ 63 <= thr acts (S i0) < 2 ^ 63).
  { split; [lia|]. pose proof (thr_le_last (S i0) ltac:(unfold acts in Hlen; lia)). lia. }
  rewrite wrap_int64_small in Hnx by exact Hr. subst nx.
  unfold acts in *.
  unfold listen; cbv beta iota delta [actions keyCount i t next].
  rewrite (wrap_int64_small (t0 + 1)) by lia.
  destruct (Z.leb_spec (thr (trimmed ++ [sentinel]) (S i0)) t0) as [Hdue|Hnot].
  - assert (Hi : (S i0 < length trimmed)%nat).
    { destruct (Nat.eq_dec (S i0) (length trimmed)) as [He|]; [rewrite <- He in Hend; lia | lia]. }
    rewrite nth_error_acts by lia. cbn [obind].
    rewrite nth_error_acts by lia. cbn [obind].
    rewrite decode_real by exact Hi. cbn [obind].
    assert (Hw := wait_pos (S (S i0)) ltac:(unfold acts; lia)). unfold acts in Hw.
    assert (Hthr := thr_succ (trimmed ++ [sentinel]) (S i0) ltac:(lia)).
    assert (Hr' := thr_le_last (S (S i0)) ltac:(lia)). unfold acts in Hr'.
    rewrite <- Hthr, (wrap_int64_small (thr _ (S (S i0)))) by lia.
    exists (mkListener (trimmed ++ [sentinel]) kc (S i0) (t0 + 1) (thr (trimmed ++ [sentinel]) (S (S i0)))).
    split; [reflexivity|].
    unfold window, listener_inv, active; cbv beta iota delta [actions keyCount i t next].
    repeat split; try lia. symmetry. apply wrap_int64_small. lia.
  - cbn [obind]. rewrite nth_error_acts by lia. cbn [obind].
    rewrite decode_real by lia. cbn [obind].
    exists (mkListener (trimmed ++ [sentinel]) kc i0 (t0 + 1) (thr (trimmed ++ [sentinel]) (S i0))).
    split; [reflexivity|].
    unfold window, listener_inv, active; cbv beta iota delta [actions keyCount i t next].
    repeat split; try lia. symmetry. apply wrap_int64_small. lia.
Qed.

Lemma listen_n_window (n : nat) :
  forall s, actions s = acts -> keyCount s = kc -> window s ->
  t s + Z.of_nat n <= thr acts (length trimmed) ->
  exists s' outs, listen_n n s = Some (s', outs) /\ length outs = n /\
    forall m, (m < n)%nat -> exists j, (j < length trimmed)%nat /\
      active acts (t s + Z.of_nat m) j /\
      nth m outs [] = key_bits (Z.to_nat kc) (X (nth j trimmed sentinel)).
Proof.
  induction n as [|n IH]; intros s Ha Hk Hw Hend.
  - exists s, []. repeat split; [intros m Hm; lia].
  - destruct (listen_window s Ha Hk Hw ltac:(lia))
      as (s1 & Hl & Hw1 & Ha1 & Hk1 & Ht1 & Hi1 & Hact).
    destruct (IH s1 Ha1 Hk1 Hw1 ltac:(lia)) as (s2 & outs & Hn & Hlen & Hout).
    exists s2, (key_bits (Z.to_nat kc) (X (nth (i s1) trimmed sentinel)) :: outs).
    simpl listen_n. rewrite Hl. cbn [obind]. rewrite Hn. cbn [obind].
    split; [reflexivity|]. split; [simpl; lia|].
    intros [|m] Hm.
    + exists (i s1). split; [exact Hi1|].
      split; [replace (t s + Z.of_nat 0) with (t s) by lia; exact Hact | reflexivity].
    + destruct (Hout m ltac:(lia)) as (j & Hj & Hact' & He). exists j.
      rewrite Ht1 in Hact'. replace (t s + Z.of_nat (S m)) with (t s + 1 + Z.of_nat m) by lia.
      split; [exact Hj|]. split; [exact Hact' | exact He].
Qed.

End Timing.

Lemma NewReplayListener_Some (trimmed : list Action) (kc w : Z) :
  trimmed <> [] -> exists s0, NewReplayListener trimmed kc w = Some s0.
Proof.
  intros Hne. assert (Hl : (2 <= length (trimmed ++ [sentinel]))%nat).
  { rewrite length_acts. destruct trimmed; [congruence | simpl; lia]. }
  unfold NewReplayListener.
  rewrite (nth_error_acts trimmed 0), (nth_error_acts trimmed 1) by lia.
  eexists. reflexivity.
Qed.

(** ** The shape of the key vectors *)

Lemma set_pressed_length (k : nat) :
  forall p p', set_pressed k p = Some p' -> length p' = length p.
Proof.
  induction k as [|k IH]; intros [|b p] p' H; simpl in H; try discriminate.
  - apply Some_eq_inv in H. subst. reflexivity.
  - destruct (set_pressed k p) as [r|] eqn:E; [|discriminate].
    apply Some_eq_inv in H. subst. simpl. f_equal. exact (IH _ _ E).
Qed.

Lemma decode_loop_length (x : positive) :
  forall k p p', decode_loop x k p = Some p' -> length p' = length p.
Proof.
  induction x as [x IH|x IH|]; intros k p p' H; simpl in H.
  - destruct (set_pressed k p) as [q|] eqn:E; [|discriminate].
    rewrite (IH _ _ _ H). exact (set_pressed_length _ _ _ E).
  - exact (IH _ _ _ H).
  - exact (set_pressed_length _ _ _ H).
Qed.

Lemma decode_length (kc x : Z) (p : list bool) :
  decode kc x = Some p -> 0 <= kc /\ length p = Z.to_nat kc.
Proof.
  unfold decode. destruct (Z.ltb_spec kc 0) as [Hn|Hn]; [discriminate|]. intros Hd. split; [lia|].
  destruct (wrap_int64 x) as [|q|q]; try (apply Some_eq_inv in Hd; subst; apply repeat_length).
  rewrite (decode_loop_length _ _ _ _ Hd). apply repeat_length.
Qed.

Lemma listen_keyCount (s s' : Listener) (p : list bool) :
  listen s = Some (s', p) -> keyCount s' = keyCount s /\ 0 <= keyCount s /\ length p = Z.to_nat (keyCount s).
Proof.
  unfold listen. intros H. obind_inv; subst; simpl;
    (split; [reflexivity | eapply decode_length; eassumption]).
Qed.

(** C14: every vector the listener returns, on every call, has exactly
    [keyCount] entries (the length of [make([]bool, keyCount)]): a call
    either panics or yields a vector of the size the play expects, and a
    successful call implies [keyCount >= 0]. *)
Theorem listen_n_vectors (n : nat) :
  forall s s' outs, listen_n n s = Some (s', outs) ->
  keyCount s' = keyCount s /\ length outs = n /\
  Forall (fun p => length p = Z.to_nat (keyCount s)) outs.
Proof.
  induction n as [|n IH]; intros s s' outs H; simpl in H; obind_inv; subst;
    [repeat constructor|].
  destruct (listen_keyCount _ _ _ Ebind) as (Hk & _ & Hl).
  destruct (IH _ _ _ Ebind0) as (Hk' & Hn & Hall). rewrite Hk in Hk', Hall.
  split; [exact Hk'|]. split; [simpl; lia | constructor; assumption].
Qed.

(** C17: [NewReplayListener] checks neither of the spec's construction
    errors as such: it fails (index out of range on [actions[1]]) exactly
    when the trimmed replay is empty, whatever [keyCount]; with a negative
    [keyCount] it builds the listener, whose first call panics in
    [make([]bool, keyCount)].  The spec says an empty replay and
    [keyCount <= 0] are construction-time errors. *)
Theorem NewReplayListener_checks (trimmed : list Action) (kc w : Z) :
  (NewReplayListener trimmed kc w = None <-> trimmed = []) /\
  (kc < 0 -> forall s0, NewReplayListener trimmed kc w = Some s0 -> listen s0 = None).
Proof.
  split; [split|].
  - intros H. destruct trimmed as [|a rest]; [reflexivity|].
    destruct (NewReplayListener_Some (a :: rest) kc w ltac:(discriminate)) as [s0 E]. congruence.
  - intros ->. reflexivity.
  - intros Hk s0 H0. destruct (NewReplayListener_inv _ _ _ _ H0) as (_ & _ & Hkc & _).
    unfold listen.
    match goal with |- obind ?m _ = None => destruct m as [[i' n']|] end; cbn [obind]; [|reflexivity].
    destruct (nth_error (actions s0) i'); cbn [obind]; [|reflexivity].
    unfold decode. rewrite Hkc, (proj2 (Z.ltb_lt kc 0) Hk). reflexivity.
Qed.

(** C1: the listener refines the timing reference.  For a non-empty
    replay whose waits are positive from the third action on, whose masks
    fit in [keyCount] bits, started no later than the first threshold,
    whose thresholds stay below [2^63] (so that the [int64] counters do
    not wrap), the first [n] calls made before the sentinel's threshold
    all succeed, and call [m] (at time [waitBefore + m]) returns the
    keys of the real action [j] that is active at that time. *)
Theorem replay_listener_refines (trimmed : list Action) (kc w : Z) (n : nat) :
  trimmed <> [] ->
  Forall (fun a => 1 <= W a) (skipn 2 trimmed) ->
  0 <= kc -> Forall (fun a => 0 <= X a < 2 ^ kc /\ X a < 2 ^ 63) trimmed ->
  - 2 ^ 63 <= w <= thr (trimmed ++ [sentinel]) 1 ->
  w + Z.of_nat n <= thr (trimmed ++ [sentinel]) (length trimmed) < 2 ^ 63 ->
  exists s0 s outs,
    NewReplayListener trimmed kc w = Some s0 /\ listen_n n s0 = Some (s, outs) /\
    length outs = n /\
    forall m, (m < n)%nat -> exists j, (j < length trimmed)%nat /\
      active (trimmed ++ [sentinel]) (w + Z.of_nat m) j /\
      nth m outs [] = key_bits (Z.to_nat kc) (X (nth j trimmed sentinel)).
Proof.
  intros Hne Hwaits Hkc Hmasks Hstart Hend.
  destruct (NewReplayListener_Some trimmed kc w Hne) as [s0 H0].
  destruct (NewReplayListener_window _ _ _ _ H0 Hstart) as (Hw & Ha & Hk & Ht).
  destruct (listen_n_window trimmed kc Hwaits Hkc Hmasks (proj2 Hend) n s0 Ha Hk Hw
              ltac:(rewrite Ht; exact (proj1 Hend)))
    as (s & outs & Hn & Hlen & Hout).
  rewrite Ht in Hout. exists s0, s, outs. repeat split; assumption.
Qed.

(** Example replays: a press of key 0 held 5 ms, then key 1, then both,
    then release. *)
Definition example_actions : list Action :=
  [mkAction 0 0; mkAction 5 1; mkAction 3 2; mkAction 4 3; mkAction 6 0].

(** C18: the listener advances at most one action per call, so an
    action that follows one with a zero wait is reported late.  When the
    current action's successor is due ([next <= t]) and the action after
    it has a zero wait, the call moves to the successor only, reports its
    keys although its time is already over at [t] (it is not the active
    action), and leaves [next] where it was, so that the next call has
    to move again.  The spec says the decoder reproduces the exact
    historical timing. *)
Theorem listen_zero_wait_late (s s' : Listener) (p : list bool) :
  listener_inv s -> (S (S (i s)) < length (actions s))%nat ->
  - 2 ^ 63 <= thr (actions s) (S (i s)) < 2 ^ 63 ->
  thr (actions s) (S (i s)) <= t s < 2 ^ 63 - 1 ->
  W (nth (S (S (i s))) (actions s) sentinel) = 0 ->
  listen s = Some (s', p) ->
  i s' = S (i s) /\ decode (keyCount s) (X (nth (S (i s)) (actions s) sentinel)) = Some p /\
  ~ active (actions s) (t s) (i s') /\ next s' = next s /\ next s' <= t s'.
Proof.
  destruct s as [acts kc i0 t0 nx]. cbv beta iota delta [actions keyCount i t next listener_inv].
  intros [_ Hnx] Hlen Hr Ht Hw. rewrite wrap_int64_small in Hnx by exact Hr. subst nx.
  unfold listen; cbv beta iota delta [actions keyCount i t next].
  rewrite (proj2 (Z.leb_le _ _) (proj1 Ht)).
  rewrite (nth_error_nth' acts sentinel Hlen). cbn [obind].
  assert (Hlen1 : (S i0 < length acts)%nat) by lia.
  rewrite (nth_error_nth' acts sentinel Hlen1). cbn [obind].
  destruct (decode kc (X (nth (S i0) acts sentinel))) as [p'|] eqn:Ed; cbn [obind]; [|discriminate].
  intros H. apply Some_eq_inv, pair_eq_inv in H. destruct H as [<- <-].
  cbv beta iota delta [i next t]. rewrite Hw, Z.add_0_r, wrap_int64_small by exact Hr.
  rewrite wrap_int64_small by lia.
  split; [reflexivity|]. split; [reflexivity|]. split; [|split; [reflexivity | lia]].
  unfold active. rewrite (thr_succ acts (S i0) Hlen), Hw. lia.
Qed.

(** The witness of C1: thirty calls over [example_actions] with two keys. *)
Lemma replay_listener_refines_witness :
  exists s0 s outs,
    NewReplayListener example_actions 2 (-5) = Some s0 /\ listen_n 30 s0 = Some (s, outs) /\
    length outs = 30%nat /\
    forall m, (m < 30)%nat -> exists j, (j < length example_actions)%nat /\
      active (example_actions ++ [sentinel]) (-5 + Z.of_nat m) j /\
      nth m outs [] = key_bits (Z.to_nat 2) (X (nth j example_actions sentinel)).
Proof.
  apply replay_listener_refines.
  - discriminate.
  - repeat constructor; cbn; lia.
  - lia.
  - repeat constructor; cbn; lia.
  - split; [lia | vm_compute; discriminate].
  - split; vm_compute; [discriminate | reflexivity].
Defined.

(** The listener [NewReplayListener] builds for [example_actions]. *)
Definition example_listener : Listener :=
  mkListener (example_actions ++ [sentinel]) 2 0 (-5) (0 + 1 + 0 + 5).

(** The witness of C10: ten calls from 5 ms before the first action. *)
Lemma listener_never_reaches_sentinel_witness :
  match listen_n 10 example_listener with
  | Some (s, _) =>
      (i s < length example_actions)%nat /\
      next s = wrap_int64 (thr (example_actions ++ [sentinel]) (S (i s))) /\
      t s = wrap_int64 (-5 + Z.of_nat 10)
  | None => False
  end.
Proof.
  destruct (listen_n 10 example_listener) as [[s outs]|] eqn:E;
    [|vm_compute in E; discriminate E].
  apply (listener_never_reaches_sentinel example_actions 2 (-5) 10 example_listener s outs);
    [lia | reflexivity | exact E].
Defined.

(** The listener of a one-action replay started at the sentinel's
    threshold [0 + 1 + 0 + 2e9]. *)
Definition late_listener : Listener :=
  mkListener ([mkAction 0 1] ++ [sentinel]) 1 0 2000000001 (0 + 1 + 0 + 2000000000).

(** The witness of C16: that listener panics on its first call. *)
Lemma listen_panics_at_sentinel_witness :
  NewReplayListener [mkAction 0 1] 1 2000000001 = Some late_listener /\
  listen late_listener = None.
Proof.
  split; [reflexivity|].
  apply (listen_panics_at_sentinel [mkAction 0 1] 1 2000000001 0 late_listener late_listener []);
    [reflexivity | reflexivity | reflexivity | vm_compute; discriminate].
Defined.

(** A replay with two zero waits: key 0 from 11 ms for no time at all,
    then key 1 from 11 ms to 16 ms. *)
Definition zero_wait_actions : list Action :=
  [mkAction 0 0; mkAction 10 1; mkAction 0 2; mkAction 5 0].

(** Its listener after eleven calls, at 11 ms. *)
Definition zero_wait_state : Listener :=
  mkListener (zero_wait_actions ++ [sentinel]) 2 0 11 11.

(** The witness of C18: eleven calls from the start reach 11 ms, where
    the call reports key 0 (action 1), whose time is over, and leaves
    [next] at 11, so the next call moves on to key 1 one millisecond
    late. *)
Lemma listen_zero_wait_late_witness :
  NewReplayListener zero_wait_actions 2 0 = Some (mkListener (zero_wait_actions ++ [sentinel]) 2 0 0 11) /\
  listen_n 11 (mkListener (zero_wait_actions ++ [sentinel]) 2 0 0 11) =
    Some (zero_wait_state, repeat [false; false] 11) /\
  match listen zero_wait_state with
  | Some (s', p) =>
      i s' = 1%nat /\ decode 2 (X (nth 1 (actions zero_wait_state) sentinel)) = Some p /\
      ~ active (actions zero_wait_state) 11 (i s') /\ next s' = 11 /\ next s' <= t s'
  | None => False
  end.
Proof.
  split; [reflexivity|]. split; [vm_compute; reflexivity|].
  destruct (listen zero_wait_state) as [[s' p]|] eqn:E; [|vm_compute in E; discriminate E].
  exact (listen_zero_wait_late zero_wait_state s' p
           ltac:(split; [simpl; lia | reflexivity]) ltac:(simpl; lia)
           ltac:(split; [apply Z.leb_le | apply Z.ltb_lt]; vm_compute; reflexivity)
           ltac:(split; [vm_compute; discriminate | vm_compute; reflexivity])
           eq_refl E).
Defined.

(** The witness of C17: no listener for an empty replay; with
    [keyCount = -1] a listener whose first call panics. *)
Lemma NewReplayListener_checks_witness :
  NewReplayListener [] 2 0 = None /\
  exists s0, NewReplayListener example_actions (-1) 0 = Some s0 /\ listen s0 = None.
Proof.
  split; [apply (proj2 (proj1 (NewReplayListener_checks [] 2 0))); reflexivity|].
  eexists; split; [reflexivity|].
  apply (proj2 (NewReplayListener_checks example_actions (-1) 0)); [lia | reflexivity].
Defined.

(** The witness of C14: thirty calls over [example_actions] return thirty
    vectors of two keys. *)
Lemma listen_n_vectors_witness :
  match listen_n 30 example_listener with
  | Some (s', outs) => Forall (fun p => length p = Z.to_nat (keyCount example_listener)) outs
  | None => False
  end.
Proof.
  destruct (listen_n 30 example_listener) as [[s' outs]|] eqn:E; [|vm_compute in E; discriminate].
  exact (proj2 (proj2 (listen_n_vectors 30 _ _ _ E))).
Defined.

End Replay.
