(* ===== verification/Meter.v ===== *)
(** * Meter: the timing-meter marks of src/drawer.go

    [MeterDrawer] keeps [MaxCountdown] (four seconds of ticks, from
    [TimeToTick 4000]) and the slice [Marks]; [AddMark] appends a mark
    with a full countdown, [Update] decrements the live marks, counts the
    expired ones and drops that many from the front, [MarkAge] and [Draw]
    turn a countdown into an age and an opacity.  The sprites are not
    modelled: what is drawn is the list of (colour, opacity, offset) of
    the marks.  The front trim is correct only because marks are
    appended in countdown order: the invariant [meter_inv] states that
    order, and the theorems show the code equals the filtering reference
    under it. *)

From Stdlib Require Import ZArith QArith List Lia Lqa Sorted.
From S2P Require Import Prelude Clock.
Import ListNotations.

Open Scope Z_scope.
Open Scope gosu_scope.

Module Meter.

(** [type MeterMark struct { Countdown, Offset, ColorType int }] *)
Record MeterMark := mkMark { Countdown : Z; Offset : Z; ColorType : Z }.

(** The state of [MeterDrawer] (its sprites are rendering only). *)
Record MeterDrawer := mkMeter { MaxCountdown : Z; Marks : list MeterMark }.

(** The fields of [func NewMeterDrawer(js []Judgment, colors
    []color.NRGBA) (d MeterDrawer)] that are not sprites:
    [d.MaxCountdown = TimeToTick(4000)], then [miss := js[len(js)-1]],
    an index panic when [js] is empty.  [TimeToTick] is package gosu's,
    which is not under src/: a parameter here ([Clock.TimeToTick] is
    package mode's); [windows] are the [Window]s of [js]; the images are
    [MeterImage]'s. *)
Definition NewMeterDrawer (TimeToTick : Z -> Z) (windows : list Z) : option MeterDrawer :=
  let MaxCountdown := TimeToTick 4000 in
  let? _ := nth_error windows (length windows - 1) in
  Some (mkMeter MaxCountdown []).

(** [func (d *MeterDrawer) AddMark(offset int, colorType int)] *)
Definition AddMark (d : MeterDrawer) (offset colorType : Z) : MeterDrawer :=
  mkMeter (MaxCountdown d) (Marks d ++ [mkMark (MaxCountdown d) offset colorType]).

Definition dec (m : MeterMark) : MeterMark :=
  mkMark (Countdown m - 1) (Offset m) (ColorType m).

(** The loop of [Update]: [if m.Countdown == 0 { cursor++ } else
    { d.Marks[i].Countdown-- }], returning [cursor] and the slice. *)
Fixpoint update_loop (marks : list MeterMark) : nat * list MeterMark :=
  match marks with
  | [] => (0%nat, [])
  | m :: rest =>
      let (cursor, rest') := update_loop rest in
      if Countdown m =? 0 then (S cursor, m :: rest') else (cursor, dec m :: rest')
  end.

(** [func (d *MeterDrawer) Update()]: the loop, then
    [d.Marks = d.Marks[cursor:]]. *)
Definition Update (d : MeterDrawer) : MeterDrawer :=
  let (cursor, marks) := update_loop (Marks d) in
  mkMeter (MaxCountdown d) (skipn cursor marks).

(** [func (d MeterDrawer) MarkAge(m MeterMark) float64]:
    [1 - float64(m.Countdown)/float64(d.MaxCountdown)]; a zero
    [MaxCountdown] gives Go's non-finite quotients. *)
Definition MarkAge (d : MeterDrawer) (m : MeterMark) : xfloat :=
  xsub (Fin 1) (xdiv (Fin (inject_Z (Countdown m))) (Fin (inject_Z (MaxCountdown d)))).

(** The opacity [Draw] gives a mark: [if age := d.MarkAge(m); age >= 0.8
    { op.ColorM.Scale(1, 1, 1, 1-(age-0.8)/0.2) }], full otherwise. *)
Definition mark_alpha (d : MeterDrawer) (m : MeterMark) : xfloat :=
  let age := MarkAge d m in
  if xge age (Fin (4 # 5)) then xsub (Fin 1) (xdiv (xsub age (Fin (4 # 5))) (Fin (1 # 5))) else Fin 1.

(** [MeterMarkColors] as NRGBA quadruples. *)
Definition MeterMarkColors : list (Z * Z * Z * Z) :=
  [(255, 255, 255, 192); (213, 0, 242, 192); (252, 83, 6, 255)].

(** The marks [Draw] renders, in order: colour (an index out of
    [MeterMarkColors] panics), opacity, and offset. *)
Fixpoint draw_marks (d : MeterDrawer) (marks : list MeterMark)
  : option (list ((Z * Z * Z * Z) * xfloat * Z)) :=
  match marks with
  | [] => Some []
  | m :: rest =>
      let? c := (if ColorType m <? 0 then None
                 else nth_error MeterMarkColors (Z.to_nat (ColorType m)))%gosu in
      let? ops := draw_marks d rest in
      Some ((c, mark_alpha d m, Offset m) :: ops)
  end%gosu.

Definition Draw (d : MeterDrawer) : option (list ((Z * Z * Z * Z) * xfloat * Z)) :=
  draw_marks d (Marks d).

(** ** Reference and invariant *)

(** What [Update] means: drop the expired marks, age the others. *)
Definition update_ref (marks : list MeterMark) : list MeterMark :=
  map dec (filter (fun m => negb (Countdown m =? 0)) marks).

(** Marks are in non-decreasing countdown order, each within
    [0 .. MaxCountdown]. *)
Definition le_countdown (a b : MeterMark) : Prop := Countdown a <= Countdown b.

Definition meter_inv (d : MeterDrawer) : Prop :=
  0 <= MaxCountdown d /\ StronglySorted le_countdown (Marks d) /\
  Forall (fun m => 0 <= Countdown m <= MaxCountdown d) (Marks d).

(** ** Lemmas on sorted lists *)

Lemma StronglySorted_snoc {A : Type} (R : A -> A -> Prop) (l : list A) (x : A) :
  StronglySorted R l -> Forall (fun y => R y x) l -> StronglySorted R (l ++ [x]).
Proof.
  induction l as [|a l IH]; simpl; intros Hs Hx.
  - repeat constructor.
  - inversion Hs; subst. inversion Hx; subst. constructor; [auto|].
    apply Forall_app. split; [assumption | repeat constructor; assumption].
Qed.

Lemma StronglySorted_filter {A : Type} (R : A -> A -> Prop) (f : A -> bool) (l : list A) :
  StronglySorted R l -> StronglySorted R (filter f l).
Proof.
  induction l as [|a l IH]; simpl; intros Hs; [constructor|].
  inversion Hs; subst. destruct (f a); [constructor|]; auto.
  apply Forall_forall. intros y Hy%filter_In. rewrite Forall_forall in *. firstorder.
Qed.

Lemma StronglySorted_map {A B : Type} (R : A -> A -> Prop) (R' : B -> B -> Prop)
  (f : A -> B) (l : list A) :
  (forall a b, R a b -> R' (f a) (f b)) ->
  StronglySorted R l -> StronglySorted R' (map f l).
Proof.
  intros Hf; induction l as [|a l IH]; simpl; intros Hs; [constructor|].
  inversion Hs; subst. constructor; [auto|].
  apply Forall_map. eapply Forall_impl; [|eassumption]. auto.
Qed.

(** ** The update loop *)

Lemma filter_live (l : list MeterMark) :
  Forall (fun m => 1 <= Countdown m) l -> filter (fun m => negb (Countdown m =? 0)) l = l.
Proof.
  induction 1 as [|m l Hm _ IH]; simpl; [reflexivity|].
  destruct (Z.eqb_spec (Countdown m) 0); [lia|]. simpl. f_equal. exact IH.
Qed.

Lemma update_loop_live (l : list MeterMark) :
  Forall (fun m => 1 <= Countdown m) l -> update_loop l = (0%nat, map dec l).
Proof.
  induction 1 as [|m l Hm _ IH]; simpl; [reflexivity|].
  rewrite IH. destruct (Z.eqb_spec (Countdown m) 0); [lia | reflexivity].
Qed.

(** On marks in countdown order the expired ones are a prefix: the
    front trim removes exactly them. *)
Lemma update_loop_ref (l : list MeterMark) :
  StronglySorted le_countdown l -> Forall (fun m => 0 <= Countdown m) l ->
  skipn (fst (update_loop l)) (snd (update_loop l)) = update_ref l.
Proof.
  induction l as [|m l IH]; intros Hs Hnn; [reflexivity|].
  inversion Hs as [|? ? Hs' Hle]; subst. inversion Hnn as [|? ? Hm Hnn']; subst.
  unfold update_ref in *; simpl. destruct (update_loop l) as [c l'] eqn:E.
  destruct (Z.eqb_spec (Countdown m) 0) as [Hz|Hnz]; simpl.
  - specialize (IH Hs' Hnn'). simpl in IH. rewrite <- IH. reflexivity.
  - assert (Hlive : Forall (fun m' => 1 <= Countdown m') l).
    { eapply Forall_impl; [|exact Hle]. unfold le_countdown. intros a Ha. lia. }
    rewrite update_loop_live in E by exact Hlive. injection E as <- <-.
    rewrite filter_live by exact Hlive. reflexivity.
Qed.

Lemma Update_MaxCountdown (d : MeterDrawer) : MaxCountdown (Update d) = MaxCountdown d.
Proof. unfold Update. destruct (update_loop (Marks d)). reflexivity. Qed.

Lemma Update_marks (d : MeterDrawer) :
  StronglySorted le_countdown (Marks d) -> Forall (fun m => 0 <= Countdown m <= MaxCountdown d) (Marks d) ->
  Marks (Update d) = update_ref (Marks d).
Proof.
  intros Hs Hb. unfold Update.
  pose proof (update_loop_ref (Marks d) Hs) as H.
  destruct (update_loop (Marks d)) as [c l']. simpl in *.
  apply H. eapply Forall_impl; [|exact Hb]. simpl. intros a Ha. lia.
Qed.

(** C2: under the invariant, [Update] is the reference: it drops exactly
    the expired marks and decrements the others. *)
Theorem Update_equiv (d : MeterDrawer) :
  meter_inv d ->
  Marks (Update d) = update_ref (Marks d) /\ MaxCountdown (Update d) = MaxCountdown d.
Proof.
  intros (_ & Hs & Hb). split; [exact (Update_marks d Hs Hb) | apply Update_MaxCountdown].
Qed.

Lemma AddMark_meter_inv (d : MeterDrawer) (offset colorType : Z) :
  meter_inv d -> meter_inv (AddMark d offset colorType).
Proof.
  intros (H0 & Hs & Hb). unfold AddMark, meter_inv; simpl. split; [exact H0|]. split.
  - apply StronglySorted_snoc; [exact Hs|].
    eapply Forall_impl; [|exact Hb]. unfold le_countdown. simpl. intros a Ha. lia.
  - apply Forall_app. split; [exact Hb | repeat constructor; simpl; lia].
Qed.

Lemma Update_meter_inv (d : MeterDrawer) : meter_inv d -> meter_inv (Update d).
Proof.
  intros (H0 & Hs & Hb).
  unfold meter_inv. rewrite Update_MaxCountdown, (Update_marks d Hs Hb). unfold update_ref. split; [exact H0|]. split.
  - apply StronglySorted_map with (R := le_countdown);
      [unfold le_countdown, dec; simpl; intros; lia|].
    apply StronglySorted_filter. exact Hs.
  - apply Forall_map. apply Forall_forall. intros m Hin%filter_In.
    destruct Hin as [Hin Hnz]. rewrite Forall_forall in Hb. specialize (Hb m Hin).
    unfold dec; simpl. destruct (Z.eqb_spec (Countdown m) 0); simpl in Hnz; [discriminate|lia].
Qed.

(** C6: [AddMark] and [Update] preserve the invariant. *)
Theorem meter_inv_preserved (d : MeterDrawer) (offset colorType : Z) :
  meter_inv d -> meter_inv (AddMark d offset colorType) /\ meter_inv (Update d).
Proof.
  intros Hinv. split; [apply AddMark_meter_inv | apply Update_meter_inv]; exact Hinv.
Qed.

(** ** Lifetime of a mark *)

Lemma Update_single (M c o col : Z) :
  Update (mkMeter M [mkMark c o col]) =
    mkMeter M (if c =? 0 then [] else [mkMark (c - 1) o col]).
Proof. unfold Update; simpl. destruct (c =? 0); reflexivity. Qed.

Lemma iter_Update_single (M c o col : Z) (k : nat) :
  Z.of_nat k <= c ->
  Nat.iter k Update (mkMeter M [mkMark c o col]) = mkMeter M [mkMark (c - Z.of_nat k) o col].
Proof.
  induction k as [|k IH]; intros Hk; simpl Nat.iter.
  - rewrite Z.sub_0_r. reflexivity.
  - rewrite IH by lia. rewrite Update_single.
    destruct (Z.eqb_spec (c - Z.of_nat k) 0); [lia|].
    do 3 f_equal. lia.
Qed.

(** C11: a mark added to an empty meter whose [MaxCountdown] is [M >= 0]
    is still there after [k <= M] updates with countdown [M - k] (after
    exactly [M] updates it is drawn at age 1), and the update after that
    removes it: a mark lives [M + 1] updates.  The spec says [M] updates
    leave the queue empty. *)
Theorem mark_lifetime (M offset colorType : Z) (k : nat) :
  0 <= M -> Z.of_nat k <= M ->
  Marks (Nat.iter k Update (AddMark (mkMeter M []) offset colorType)) =
    [mkMark (M - Z.of_nat k) offset colorType] /\
  Marks (Nat.iter (S (Z.to_nat M)) Update (AddMark (mkMeter M []) offset colorType)) = [].
Proof.
  intros HM Hk. change (AddMark (mkMeter M []) offset colorType)
    with (mkMeter M [mkMark M offset colorType]).
  split; [rewrite iter_Update_single by exact Hk; reflexivity|].
  simpl Nat.iter. rewrite iter_Update_single by lia. rewrite Update_single.
  rewrite Z2Nat.id by exact HM. rewrite Z.sub_diag. reflexivity.
Qed.

(** ** Opacity *)

Lemma countdown_ratio (c M : Z) :
  0 <= c <= M -> 0 < M -> (0 <= inject_Z c / inject_Z M <= 1)%Q.
Proof.
  intros Hc HM.
  assert (HMq : (0 < inject_Z M)%Q) by (change 0%Q with (inject_Z 0); rewrite <- Zlt_Qlt; exact HM).
  split.
  - apply Qle_shift_div_l; [exact HMq|]. rewrite Qmult_0_l.
    change 0%Q with (inject_Z 0). rewrite <- Zle_Qle. lia.
  - apply Qle_shift_div_r; [exact HMq|]. rewrite Qmult_1_l. rewrite <- Zle_Qle. lia.
Qed.

(** With a positive [MaxCountdown] the age and the opacity are finite:
    the rational computations of the code. *)
Lemma MarkAge_fin (d : MeterDrawer) (m : MeterMark) :
  0 < MaxCountdown d ->
  MarkAge d m = Fin (1 - inject_Z (Countdown m) / inject_Z (MaxCountdown d))%Q.
Proof.
  intros HM. unfold MarkAge. rewrite xdiv_fin; [reflexivity|].
  change 0%Q with (inject_Z 0). rewrite inject_Z_injective. lia.
Qed.

Lemma mark_alpha_fin (d : MeterDrawer) (m : MeterMark) (a : Q) :
  MarkAge d m = Fin a ->
  mark_alpha d m = Fin (if Qle_bool (4 # 5) a then 1 - (a - (4 # 5)) / (1 # 5) else 1)%Q.
Proof.
  intros Ha. unfold mark_alpha. rewrite Ha. cbn [xge].
  destruct (Qle_bool (4 # 5) a); [|reflexivity].
  cbn [xsub xneg xadd]. rewrite xdiv_fin by discriminate. reflexivity.
Qed.

(** C20: for a mark of a meter in its invariant with a positive
    [MaxCountdown], the age is a finite number in [0, 1] and so is the
    opacity [Draw] gives it. *)
Theorem mark_alpha_bounds (d : MeterDrawer) (m : MeterMark) :
  meter_inv d -> 0 < MaxCountdown d -> In m (Marks d) ->
  exists age alpha, MarkAge d m = Fin age /\ mark_alpha d m = Fin alpha /\
    (0 <= age <= 1)%Q /\ (0 <= alpha <= 1)%Q.
Proof.
  intros (_ & _ & Hb) HM Hin. rewrite Forall_forall in Hb.
  pose proof (countdown_ratio (Countdown m) (MaxCountdown d) (Hb m Hin) HM) as Hr.
  pose proof (MarkAge_fin d m HM) as Ha.
  set (age := (1 - inject_Z (Countdown m) / inject_Z (MaxCountdown d))%Q) in Ha.
  eexists age, _. split; [exact Ha|]. split; [exact (mark_alpha_fin d m age Ha)|].
  split; [unfold age; lra|].
  destruct (Qle_bool (4 # 5) age) eqn:E; [|lra].
  apply Qle_bool_iff in E. unfold Qdiv. change (Qinv (1 # 5)) with (5 # 1). unfold age in *. lra.
Qed.

(** [Update] relies on the order of the marks: with an expired mark
    behind a live one, the front trim drops the live mark and keeps the
    expired one. *)
Example Update_needs_order :
  Marks (Update (mkMeter 10 [mkMark 5 1 0; mkMark 0 2 0])) = [mkMark 0 2 0].
Proof. reflexivity. Qed.

(** The meter of a play at 1000 ticks per second. *)
(** What [Draw] renders for one mark whose colour index is valid. *)
Definition drawn (d : MeterDrawer) (m : MeterMark) (op : (Z * Z * Z * Z) * xfloat * Z) : Prop :=
  0 <= ColorType m /\
  exists c, nth_error MeterMarkColors (Z.to_nat (ColorType m)) = Some c /\ op = (c, mark_alpha d m, Offset m).

Lemma color_Some (ct : Z) :
  (if ct <? 0 then None else nth_error MeterMarkColors (Z.to_nat ct)) <> None <-> 0 <= ct < 3.
Proof.
  destruct (Z.ltb_spec ct 0); [split; [congruence | lia]|].
  rewrite nth_error_Some. simpl length. lia.
Qed.

Lemma draw_marks_Some (d : MeterDrawer) (marks : list MeterMark) :
  forall ops, draw_marks d marks = Some ops <-> Forall2 (drawn d) marks ops.
Proof.
  induction marks as [|m rest IH]; intros ops; simpl.
  - split; [intros H; apply Some_eq_inv in H; subst; constructor | intros H; inversion H; reflexivity].
  - destruct (Z.ltb_spec (ColorType m) 0) as [Hn|Hn]; cbn [obind].
    + split; [discriminate | intros H; inversion H as [|? ? ? ? (Hc & _)]; lia].
    + destruct (nth_error MeterMarkColors (Z.to_nat (ColorType m))) as [c|] eqn:Ec; cbn [obind].
      * destruct (draw_marks d rest) as [ops'|] eqn:Er; cbn [obind].
        -- split.
           ++ intros H. apply Some_eq_inv in H. subst. constructor; [split; [lia | eauto] | apply IH; reflexivity].
           ++ intros H. inversion H as [|? op ? ops'' (_ & c' & Ec' & ->) Hr]; subst.
              apply IH in Hr. congruence.
        -- split; [discriminate|]. intros H. inversion H as [|? ? ? ops'' _ Hr]; subst.
           apply IH in Hr. congruence.
      * split; [discriminate|]. intros H. inversion H as [|? ? ? ? (_ & c' & Ec' & _)]. congruence.
Qed.

Lemma draw_marks_None (d : MeterDrawer) (marks : list MeterMark) :
  draw_marks d marks <> None <-> Forall (fun m => 0 <= ColorType m < 3) marks.
Proof.
  induction marks as [|m rest IH]; simpl; [split; [constructor | discriminate]|].
  rewrite Forall_cons_iff, <- IH, <- color_Some.
  destruct (if ColorType m <? 0 then None else nth_error MeterMarkColors (Z.to_nat (ColorType m)));
    cbn [obind]; [destruct (draw_marks d rest); cbn [obind]|]; intuition congruence.
Qed.

(** C21: [Draw] renders every mark, in order, with the colour its index
    names, the opacity of its age and its offset, and panics (index out
    of range in [MeterMarkColors]) exactly when some mark's colour index
    is not 0, 1 or 2. *)
Theorem Draw_spec (d : MeterDrawer) :
  (Draw d <> None <-> Forall (fun m => 0 <= ColorType m < 3) (Marks d)) /\
  forall ops, Draw d = Some ops <-> Forall2 (drawn d) (Marks d) ops.
Proof. split; [apply draw_marks_None | intros ops; apply draw_marks_Some]. Qed.

(** A meter built at 1000 ticks per second, package gosu's [TimeToTick]
    computing as package mode's does, for judgments of windows 16, 64 and
    97 ms. *)
Lemma NewMeterDrawer_1000 :
  NewMeterDrawer (Clock.TimeToTick 1000) [16; 64; 97] = Some (mkMeter 4000 []).
Proof. vm_compute. reflexivity. Qed.

(** The witness of C11 : at 1000 ticks per second a mark is
    still there, expired, after 4000 updates and gone after 4001. *)
Lemma mark_lifetime_witness :
  NewMeterDrawer (Clock.TimeToTick 1000) [16; 64; 97] = Some (mkMeter 4000 []) /\
  Marks (Nat.iter (Z.to_nat 4000) Update (AddMark (mkMeter 4000 []) 0 0)) = [mkMark 0 0 0] /\
  Marks (Nat.iter (S (Z.to_nat 4000)) Update (AddMark (mkMeter 4000 []) 0 0)) = [].
Proof.
  split; [exact NewMeterDrawer_1000|].
  destruct (mark_lifetime 4000 0 0 (Z.to_nat 4000) ltac:(lia) ltac:(rewrite Z2Nat.id; lia))
    as [H1 H2].
  split; [rewrite H1; rewrite Z2Nat.id by lia; reflexivity | exact H2].
Defined.

(** The witness of C6 (invariant): a meter of a play at 1000 ticks per
    second with an expired and a live mark. *)
Lemma meter_inv_preserved_witness :
  meter_inv (AddMark (mkMeter 4000 [mkMark 0 2 0; mkMark 7 1 1]) 3 1) /\
  meter_inv (Update (mkMeter 4000 [mkMark 0 2 0; mkMark 7 1 1])).
Proof.
  apply meter_inv_preserved. split; [simpl; lia|]. split.
  - repeat constructor; unfold le_countdown; simpl; lia.
  - repeat constructor; simpl; lia.
Defined.

Lemma Update_equiv_witness :
  Marks (Update (mkMeter 4000 [mkMark 0 2 0; mkMark 7 1 1])) =
    update_ref [mkMark 0 2 0; mkMark 7 1 1] /\
  MaxCountdown (Update (mkMeter 4000 [mkMark 0 2 0; mkMark 7 1 1])) = 4000.
Proof.
  apply (Update_equiv (mkMeter 4000 [mkMark 0 2 0; mkMark 7 1 1])).
  split; [simpl; lia|]. split.
  - repeat constructor; unfold le_countdown; simpl; lia.
  - repeat constructor; simpl; lia.
Defined.

Lemma mark_alpha_bounds_witness :
  exists age alpha,
    MarkAge (mkMeter 4000 [mkMark 500 0 0]) (mkMark 500 0 0) = Fin age /\
    mark_alpha (mkMeter 4000 [mkMark 500 0 0]) (mkMark 500 0 0) = Fin alpha /\
    (0 <= age <= 1)%Q /\ (0 <= alpha <= 1)%Q.
Proof.
  apply mark_alpha_bounds.
  - split; [simpl; lia|]. split; repeat constructor; simpl; lia.
  - simpl; lia.
  - left; reflexivity.
Defined.

(** The meter of the [Draw_spec] witness: a live mark of colour 2 and an aged one of colour
    0 are drawn; a mark of colour 3 makes [Draw] panic. *)
Definition draw_demo : MeterDrawer := mkMeter 10 [mkMark 10 5 2; mkMark 1 (-3) 0].

Lemma Draw_spec_witness :
  Forall2 (drawn draw_demo) (Marks draw_demo)
    [((252, 83, 6, 255), mark_alpha draw_demo (mkMark 10 5 2), 5);
     ((255, 255, 255, 192), mark_alpha draw_demo (mkMark 1 (-3) 0), -3)] /\
  (exists alpha, mark_alpha draw_demo (mkMark 1 (-3) 0) = Fin alpha /\ (alpha == 1 # 2)%Q) /\
  Draw (mkMeter 10 [mkMark 10 5 3]) = None.
Proof.
  split; [apply (proj2 (Draw_spec draw_demo)); reflexivity|].
  split; [eexists; split; [reflexivity | vm_compute; reflexivity]|].
  destruct (Draw (mkMeter 10 [mkMark 10 5 3])) eqn:E; [|reflexivity].
  exfalso. assert (Hn : Draw (mkMeter 10 [mkMark 10 5 3]) <> None) by congruence.
  apply (proj1 (Draw_spec _)) in Hn. inversion Hn as [|? ? H _]. simpl in H. lia.
Defined.

End Meter.
