(* ===== verification/MeterImage.v ===== *)
(** * MeterImage: the timing-meter image built by [NewMeterDrawer]

    [NewMeterDrawer(js, colors)] of src/drawer.go draws the meter's base
    image: a dark background [1 + 2 ceil(MeterWidth * miss.Window)]
    pixels wide, then for each judgment, from the last (the widest, the
    miss window) to the first, a band [1 + 2 ceil(MeterWidth * Window)]
    pixels wide in the judgment's colour, in the middle quarter of the
    height.  [MeterWidth] and [MeterHeight] are settings outside src/;
    they are the parameters [MW] and [MH] (float64 values as rationals,
    [math.Ceil] as [Qceiling], [int(h)] as truncation).  The judgments
    are given by their windows.  [draw.Draw] with [draw.Src] overwrites
    the part of a rectangle inside the image: [pixel] is the colour a
    pixel ends with.  The sprites built from the image are rendering
    only. *)

From Stdlib Require Import ZArith QArith Qround List Lia Lqa.
From S2P Require Import Prelude.
Import ListNotations.

Open Scope Z_scope.

Module MeterImage.

(** [color.NRGBA] *)
Definition NRGBA : Type := (Z * Z * Z * Z)%type.

(** [colorMeter = color.NRGBA{0, 0, 0, 128}] *)
Definition colorMeter : NRGBA := (0, 0, 0, 128).

(** The judgment colours [ColorKool], [ColorCool], [ColorGood],
    [ColorBad], [ColorMiss]. *)
Definition ColorKool : NRGBA := (0, 170, 242, 255).
Definition ColorCool : NRGBA := (85, 251, 255, 255).
Definition ColorGood : NRGBA := (51, 255, 40, 255).
Definition ColorBad : NRGBA := (244, 177, 0, 255).
Definition ColorMiss : NRGBA := (109, 120, 134, 255).

(** Go's [int(f)] on a float64: truncation toward zero. *)
Definition go_int (q : Q) : Z := Z.quot (Qnum q) (Zpos (Qden q)).

(** [1 + 2*math.Ceil(MeterWidth*float64(j.Window))] *)
Definition band_width (MW : Q) (window : Z) : Z := 1 + 2 * Qceiling (MW * inject_Z window).

(** [image.Rectangle] and [image.Rect], which orders its corners. *)
Record Rect := mkRect { X0 : Z; Y0 : Z; X1 : Z; Y1 : Z }.

Definition Rect_of (x0 y0 x1 y1 : Z) : Rect :=
  mkRect (Z.min x0 x1) (Z.min y0 y1) (Z.max x0 x1) (Z.max y0 y1).

(** The band of a judgment of window [j]:
    [x1 := math.Ceil(MeterWidth * float64(miss.Window-j.Window))],
    [x2 := x1 + w], [image.Rect(int(x1), int(y1), int(x2), int(y2))]
    (the ceilings are integers, so [int] keeps them). *)
Definition band (MW : Q) (miss y1 y2 j : Z) : Rect :=
  let x1 := Qceiling (MW * inject_Z (miss - j)) in
  Rect_of x1 y1 (x1 + band_width MW j) y2.

(** The loop [for i := range js { j := js[len(js)-1-i]; clr :=
    colors[len(js)-1-i]; ... }], over the indices [ks] it visits. *)
Fixpoint bands (MW : Q) (miss y1 y2 : Z) (js : list Z) (colors : list NRGBA) (ks : list nat)
  : option (list (Rect * NRGBA)) :=
  match ks with
  | [] => Some []
  | k :: ks' =>
      let? j := nth_error js k in
      let? clr := nth_error colors k in
      let? rest := bands MW miss y1 y2 js colors ks' in
      Some ((band MW miss y1 y2 j, clr) :: rest)
  end%gosu.

(** The first block of [NewMeterDrawer]: the image's width and height
    and the rectangles drawn on the background, in drawing order. *)
Definition meter_image (MW MH : Q) (js : list Z) (colors : list NRGBA)
  : option (Z * Z * list (Rect * NRGBA)) :=
  (let? miss := nth_error js (length js - 1) in
   let y1 := Qceiling (MH * (375 # 1000)) in
   let y2 := Qceiling (MH * (625 # 1000)) in
   let? rs := bands MW miss y1 y2 js colors (rev (seq 0 (length js))) in
   Some (band_width MW miss, go_int MH, rs))%gosu.

Definition in_rect (x y : Z) (r : Rect) : bool :=
  (X0 r <=? x) && (x <? X1 r) && (Y0 r <=? y) && (y <? Y1 r).

(** [draw.Draw(src, rect, &image.Uniform{clr}, image.Point{}, draw.Src)]
    on one pixel. *)
Definition paint (x y : Z) (c : NRGBA) (rc : Rect * NRGBA) : NRGBA :=
  if in_rect x y (fst rc) then snd rc else c.

(** The colour of pixel [(x, y)] of the finished image, [None] outside
    it: the background, then every rectangle in drawing order. *)
Definition pixel (W H : Z) (rs : list (Rect * NRGBA)) (x y : Z) : option NRGBA :=
  if (0 <=? x) && (x <? W) && (0 <=? y) && (y <? H)
  then Some (fold_left (paint x y) rs colorMeter)
  else None.

(** [colorRed = color.NRGBA{255, 0, 0, 192}] and [colorWhite =
    color.NRGBA{255, 255, 255, 192}] of [NewMeterDrawer]. *)
Definition colorRed : NRGBA := (255, 0, 0, 192).
Definition colorWhite : NRGBA := (255, 255, 255, 192).

(** The anchor and the unit image: [src := ebiten.NewImage(int(MeterWidth),
    int(MeterHeight))] then [src.Fill(clr)]: the size, and the colour of
    every pixel of the image. *)
Definition filled_image (MW MH : Q) (clr : NRGBA) : Z * Z * (Z -> Z -> option NRGBA) :=
  let W := go_int MW in
  let H := go_int MH in
  (W, H, fun x y => if (0 <=? x) && (x <? W) && (0 <=? y) && (y <? H) then Some clr else None).

Definition anchor_image (MW MH : Q) := filled_image MW MH colorRed.
Definition unit_image (MW MH : Q) := filled_image MW MH colorWhite.

(** The picture the code means: a pixel takes the colour of the first
    judgment, in the order of [js], whose band covers it. *)
Fixpoint first_cover (x y : Z) (l : list (Rect * NRGBA)) : NRGBA :=
  match l with
  | [] => colorMeter
  | (r, clr) :: rest => if in_rect x y r then clr else first_cover x y rest
  end.

(** The sprites [NewMeterDrawer] builds from the three images:
    [i := ebiten.NewImageFromImage(src)], [s := draws.NewSpriteFromImage(i)],
    [s.SetPosition(screenSizeX/2, screenSizeY, draws.OriginCenterBottom)].
    The rendering library is not under src/: its sprite type and the two
    calls are section variables, the image handed to it is its size and
    the colour of each pixel. *)
Section Sprites.
Variable Sprite : Type.
Variable NewSprite : Z -> Z -> (Z -> Z -> option NRGBA) -> Sprite.
Variable SetPositionCenterBottom : Q -> Q -> Sprite -> Sprite.
Variable screenSizeX screenSizeY : Q.

Definition place (img : Z * Z * (Z -> Z -> option NRGBA)) : Sprite :=
  let '(W, H, px) := img in
  SetPositionCenterBottom (screenSizeX / 2) screenSizeY (NewSprite W H px).

(** [d.Meter], [d.Anchor] and [d.Unit] of [NewMeterDrawer(js, colors)];
    the base image panics as [meter_image] does. *)
Definition meter_sprites (MW MH : Q) (js : list Z) (colors : list NRGBA)
  : option (Sprite * Sprite * Sprite) :=
  (let? ((W, H), rs) := meter_image MW MH js colors in
   Some (place (W, H, pixel W H rs), place (anchor_image MW MH), place (unit_image MW MH)))%gosu.

End Sprites.

(** ** The loop *)

Lemma bands_Some (MW : Q) (miss y1 y2 : Z) (js : list Z) (colors : list NRGBA) (ks : list nat) :
  Forall (fun k => k < length js /\ k < length colors)%nat ks ->
  bands MW miss y1 y2 js colors ks =
    Some (map (fun k => (band MW miss y1 y2 (nth k js 0), nth k colors colorMeter)) ks).
Proof.
  induction 1 as [|k ks [Hj Hc] _ IH]; [reflexivity|]. simpl.
  rewrite (nth_error_nth' js 0 Hj), (nth_error_nth' colors colorMeter Hc). cbn [obind].
  rewrite IH. reflexivity.
Qed.

Lemma bands_None (MW : Q) (miss y1 y2 : Z) (js : list Z) (colors : list NRGBA) (ks : list nat) :
  bands MW miss y1 y2 js colors ks = None <->
  Exists (fun k => length js <= k \/ length colors <= k)%nat ks.
Proof.
  induction ks as [|k ks IH]; simpl; [split; [discriminate | intros H; inversion H]|].
  rewrite Exists_cons.
  destruct (nth_error js k) as [j|] eqn:Ej; cbn [obind];
    [|apply nth_error_None in Ej; split; [intros _; left; left; exact Ej | reflexivity]].
  destruct (nth_error colors k) as [c|] eqn:Ec; cbn [obind];
    [|apply nth_error_None in Ec; split; [intros _; left; right; exact Ec | reflexivity]].
  assert (Hj : (k < length js)%nat) by (apply nth_error_Some; congruence).
  assert (Hc : (k < length colors)%nat) by (apply nth_error_Some; congruence).
  destruct (bands MW miss y1 y2 js colors ks); cbn [obind]; rewrite <- IH.
  - split; [discriminate | intros [[H|H]|H]; [lia | lia | discriminate]].
  - split; [intros _; right; reflexivity | reflexivity].
Qed.

(** The loop visits every index once, the last first. *)
Lemma seq_indices (n : nat) :
  forall k, In k (rev (seq 0 n)) <-> (k < n)%nat.
Proof. intros k. rewrite <- in_rev, in_seq. lia. Qed.

Lemma meter_image_bands (MW MH : Q) (js : list Z) (colors : list NRGBA) (W H : Z) (rs : list (Rect * NRGBA)) :
  meter_image MW MH js colors = Some (W, H, rs) ->
  exists miss, nth_error js (length js - 1) = Some miss /\ W = band_width MW miss /\ H = go_int MH /\
  (length js <= length colors)%nat /\
  rs = rev (map (fun k => (band MW miss (Qceiling (MH * (375 # 1000))) (Qceiling (MH * (625 # 1000)))
                             (nth k js 0), nth k colors colorMeter)) (seq 0 (length js))).
Proof.
  unfold meter_image. intros Hm. obind_inv. subst.
  match goal with E : nth_error js _ = Some ?m |- _ => rename m into miss; rename E into Hmiss end.
  match goal with E : bands _ _ _ _ _ _ _ = Some _ |- _ => rename E into Hb end.
  assert (Hlen : (length js <= length colors)%nat).
  { destruct (Nat.le_gt_cases (length js) (length colors)) as [Hl|Hl]; [exact Hl|].
    exfalso. assert (Hn : bands MW miss (Qceiling (MH * (375 # 1000))) (Qceiling (MH * (625 # 1000))) js colors
                           (rev (seq 0 (length js))) = None).
    { apply bands_None, Exists_exists. exists (length js - 1)%nat.
      split; [apply seq_indices; lia | right; lia]. }
    congruence. }
  exists miss. repeat split; try assumption; try reflexivity.
  rewrite bands_Some in Hb.
  - apply Some_eq_inv in Hb. subst. apply map_rev.
  - apply Forall_forall. intros k Hk%seq_indices. lia.
Qed.

(** ** Painting *)

Lemma fold_paint_rev (x y : Z) (l : list (Rect * NRGBA)) :
  fold_left (paint x y) (rev l) colorMeter = first_cover x y l.
Proof.
  induction l as [|[r c] l IH]; [reflexivity|].
  simpl rev. rewrite fold_left_app, IH. reflexivity.
Qed.

Lemma fold_paint_ext (x x' y : Z) (l : list (Rect * NRGBA)) :
  Forall (fun rc => in_rect x y (fst rc) = in_rect x' y (fst rc)) l ->
  forall c, fold_left (paint x y) l c = fold_left (paint x' y) l c.
Proof.
  induction 1 as [|rc l Hrc _ IH]; intros c; [reflexivity|].
  simpl. unfold paint at 2 4. rewrite Hrc. apply IH.
Qed.

(** A rectangle whose sides add up to [W] is its own mirror image
    under [x -> W - 1 - x]. *)
Lemma in_rect_mirror (W x y : Z) (r : Rect) :
  X0 r + X1 r = W -> in_rect x y r = in_rect (W - 1 - x) y r.
Proof.
  intros HW. unfold in_rect.
  destruct (Z.leb_spec (X0 r) x), (Z.ltb_spec x (X1 r)),
           (Z.leb_spec (X0 r) (W - 1 - x)), (Z.ltb_spec (W - 1 - x) (X1 r)); simpl; try reflexivity; lia.
Qed.

Lemma Qceiling_exact (q : Q) (z : Z) : (q == inject_Z z)%Q -> Qceiling q = z.
Proof. intros H. rewrite (Qceiling_comp _ _ H). apply Qceiling_Z. Qed.

(** With exact band widths, every band's sides add up to the image's
    width: the band is centred. *)
Lemma band_centred (MW : Q) (miss y1 y2 j : Z) :
  (MW * inject_Z miss == inject_Z (Qceiling (MW * inject_Z miss)))%Q ->
  (MW * inject_Z j == inject_Z (Qceiling (MW * inject_Z j)))%Q ->
  X0 (band MW miss y1 y2 j) + X1 (band MW miss y1 y2 j) = band_width MW miss.
Proof.
  intros Hm Hj. unfold band, band_width, Rect_of. cbn [X0 X1].
  set (cm := Qceiling (MW * inject_Z miss)) in *. set (cj := Qceiling (MW * inject_Z j)) in *.
  rewrite (Qceiling_exact _ (cm - cj)).
  - lia.
  - unfold Z.sub. rewrite !inject_Z_plus, !inject_Z_opp, <- Hm, <- Hj. ring.
Qed.

(** [ceil a + ceil b] is [ceil (a + b)] or one more. *)
Lemma Qceiling_add_range (a b : Q) :
  Qceiling (a + b) <= Qceiling a + Qceiling b <= Qceiling (a + b) + 1.
Proof.
  pose proof (Qle_ceiling a). pose proof (Qle_ceiling b). pose proof (Qle_ceiling (a + b)).
  pose proof (Qceiling_lt a). pose proof (Qceiling_lt b).
  split.
  - rewrite <- (Qceiling_Z (Qceiling a + Qceiling b)). apply Qceiling_resp_le.
    rewrite inject_Z_plus. lra.
  - assert (Hlt : (inject_Z (Qceiling a + Qceiling b - 2) < inject_Z (Qceiling (a + b)))%Q).
    { unfold Z.sub in *. rewrite !inject_Z_plus, !inject_Z_opp in *.
      change (inject_Z 1) with 1%Q in *. change (inject_Z 2) with 2%Q. lra. }
    rewrite <- Zlt_Qlt in Hlt. lia.
Qed.

(** Every band's sides add up to the image's width or to two more: the
    band is centred or one pixel right of centre. *)
Lemma band_offset (MW : Q) (miss y1 y2 j : Z) :
  0 <= Qceiling (MW * inject_Z j) ->
  X0 (band MW miss y1 y2 j) + X1 (band MW miss y1 y2 j) = band_width MW miss \/
  X0 (band MW miss y1 y2 j) + X1 (band MW miss y1 y2 j) = band_width MW miss + 2.
Proof.
  intros Hj. unfold band, band_width, Rect_of. cbn [X0 X1].
  assert (Hs : (MW * inject_Z (miss - j) + MW * inject_Z j == MW * inject_Z miss)%Q).
  { unfold Z.sub. rewrite inject_Z_plus, inject_Z_opp. ring. }
  pose proof (Qceiling_add_range (MW * inject_Z (miss - j)) (MW * inject_Z j)) as Hr.
  rewrite (Qceiling_comp _ _ Hs) in Hr. lia.
Qed.

Lemma nth_error_last_Z (l : list Z) (m : Z) :
  nth_error l (length l - 1) = Some m -> last l 0 = m.
Proof.
  intros H. induction l as [|b l0 _] using rev_ind; [discriminate|].
  rewrite length_app in H. simpl in H. replace (length l0 + 1 - 1)%nat with (length l0) in H by lia.
  rewrite nth_error_app2, Nat.sub_diag in H by lia. simpl in H.
  apply Some_eq_inv in H. subst. apply last_last.
Qed.

Lemma map_seq_combine {R : Type} (f : Z -> NRGBA -> R) (js : list Z) :
  forall colors, (length js <= length colors)%nat ->
  map (fun k => f (nth k js 0) (nth k colors colorMeter)) (seq 0 (length js)) =
  map (fun '(j, c) => f j c) (combine js colors).
Proof.
  induction js as [|j js IH]; intros [|c colors] Hl; simpl in *; try reflexivity; [lia|].
  f_equal. rewrite <- seq_shift, map_map. apply IH. lia.
Qed.

Lemma bounds_mirror (W x : Z) :
  ((0 <=? x) && (x <? W))%bool = ((0 <=? W - 1 - x) && (W - 1 - x <? W))%bool.
Proof.
  destruct (Z.leb_spec 0 x), (Z.ltb_spec x W), (Z.leb_spec 0 (W - 1 - x)), (Z.ltb_spec (W - 1 - x) W);
    simpl; try reflexivity; exfalso; lia.
Qed.

(** ** Theorems *)

(** [NewMeterDrawer] panics (index out of range) exactly when the
    judgment list is empty ([js[len(js)-1]]) or has more entries than
    the colour list ([colors[len(js)-1-i]]). *)
Theorem meter_image_None (MW MH : Q) (js : list Z) (colors : list NRGBA) :
  meter_image MW MH js colors = None <-> js = [] \/ (length colors < length js)%nat.
Proof.
  unfold meter_image. destruct js as [|j0 js']; [simpl; split; [left; reflexivity | reflexivity]|].
  destruct (nth_error (j0 :: js') (length (j0 :: js') - 1)) as [miss|] eqn:Hm;
    [|apply nth_error_None in Hm; simpl in Hm; lia].
  cbn [obind].
  destruct (bands _ _ _ _ _ _ _) eqn:Eb; cbn [obind].
  - split; [discriminate|]. intros [H|H]; [discriminate|]. exfalso.
    assert (Hn : bands MW miss (Qceiling (MH * (375 # 1000))) (Qceiling (MH * (625 # 1000)))
                   (j0 :: js') colors (rev (seq 0 (length (j0 :: js')))) = None).
    { apply bands_None, Exists_exists. exists (length (j0 :: js') - 1)%nat.
      split; [apply seq_indices; simpl; lia | right; simpl in *; lia]. }
    congruence.
  - split; [intros _|reflexivity]. right. apply bands_None, Exists_exists in Eb.
    destruct Eb as (k & Hk%seq_indices & [H|H]); lia.
Qed.

(** C22: the image is the layered picture the code means: drawing the
    bands from the last judgment to the first leaves every pixel of the
    image with the colour of the first judgment, in the order of [js],
    whose band covers it, and the background colour where none does. *)
Theorem meter_image_layers (MW MH : Q) (js : list Z) (colors : list NRGBA) (W H : Z) (rs : list (Rect * NRGBA)) :
  meter_image MW MH js colors = Some (W, H, rs) ->
  forall x y, 0 <= x < W -> 0 <= y < H ->
  pixel W H rs x y =
    Some (first_cover x y (map (fun '(j, c) => (band MW (last js 0) (Qceiling (MH * (375 # 1000)))
                                                  (Qceiling (MH * (625 # 1000))) j, c)) (combine js colors))).
Proof.
  intros Hm x y Hx Hy. destruct (meter_image_bands _ _ _ _ _ _ _ Hm) as (miss & Hmiss & HW & HH & Hl & ->).
  rewrite (nth_error_last_Z _ _ Hmiss). unfold pixel.
  rewrite (proj2 (Z.leb_le 0 x)), (proj2 (Z.ltb_lt x W)), (proj2 (Z.leb_le 0 y)), (proj2 (Z.ltb_lt y H))
    by lia. simpl. f_equal.
  rewrite fold_paint_rev. f_equal.
  exact (map_seq_combine (fun j c => (band MW miss _ _ j, c)) js colors Hl).
Qed.

(** C23: when every band width is exact ([MeterWidth * Window] an
    integer for every judgment), the meter image is symmetric: pixel
    [(x, y)] and its mirror [(W - 1 - x, y)] have the same colour (or
    both lie outside the image). *)
Theorem meter_image_symmetric (MW MH : Q) (js : list Z) (colors : list NRGBA) (W H : Z) (rs : list (Rect * NRGBA)) :
  Forall (fun j => MW * inject_Z j == inject_Z (Qceiling (MW * inject_Z j)))%Q js ->
  meter_image MW MH js colors = Some (W, H, rs) ->
  forall x y, pixel W H rs x y = pixel W H rs (W - 1 - x) y.
Proof.
  intros Hex Hm x y. destruct (meter_image_bands _ _ _ _ _ _ _ Hm) as (miss & Hmiss & HW & _ & _ & Hrs).
  rewrite Forall_forall in Hex.
  unfold pixel. rewrite <- bounds_mirror. destruct ((0 <=? x) && (x <? W) && (0 <=? y) && (y <? H))%bool; [|reflexivity].
  f_equal. apply fold_paint_ext. apply Forall_forall. intros rc Hin. rewrite Hrs, <- in_rev, in_map_iff in Hin.
  destruct Hin as (k & <- & Hk%in_seq). cbn [fst]. apply in_rect_mirror. rewrite HW.
  apply band_centred; apply Hex; [exact (nth_error_In _ _ Hmiss) | apply nth_In; lia].
Qed.

(** C24: every band is centred to within one pixel, and never left of
    centre.  For a non-negative [MeterWidth] and windows, the left edge
    [x1 = ceil(MW * (miss - j))] and the right edge of each band add up
    to the image's width [W] (centred) or to [W + 2] (one pixel right of
    centre): [ceil(MW * (miss - j)) + ceil(MW * j)] exceeds
    [ceil(MW * miss)] by at most one. *)
Theorem meter_image_band_offset (MW MH : Q) (js : list Z) (colors : list NRGBA) (W H : Z)
  (rs : list (Rect * NRGBA)) :
  (0 <= MW)%Q -> Forall (fun j => 0 <= j) js -> meter_image MW MH js colors = Some (W, H, rs) ->
  Forall (fun rc => X0 (fst rc) + X1 (fst rc) = W \/ X0 (fst rc) + X1 (fst rc) = W + 2) rs.
Proof.
  intros HMW Hjs Hm. destruct (meter_image_bands _ _ _ _ _ _ _ Hm) as (miss & _ & -> & _ & _ & ->).
  apply Forall_rev, Forall_forall. intros rc (k & <- & Hk%in_seq)%in_map_iff. cbn [fst].
  apply band_offset. rewrite Forall_forall in Hjs.
  assert (Hk0 : 0 <= nth k js 0) by (apply Hjs, nth_In; lia).
  rewrite <- (Qceiling_Z 0). apply Qceiling_resp_le.
  apply Qmult_le_0_compat; [exact HMW|]. change 0%Q with (inject_Z 0). rewrite <- Zle_Qle. exact Hk0.
Qed.

(** The judgments of the witnesses: windows 2 and 5 at [MeterWidth = 1]. *)
Definition demo_js : list Z := [2; 5].
Definition demo_colors : list NRGBA := [ColorKool; ColorMiss].

(** An empty judgment list, and one longer than the colour list, make
    [NewMeterDrawer] panic. *)
Lemma meter_image_None_demo :
  meter_image 1 8 [] demo_colors = None /\ meter_image 1 8 [2; 5; 9] demo_colors = None.
Proof.
  split; apply (proj2 (meter_image_None _ _ _ _)); [left; reflexivity | right; simpl; lia].
Defined.

(** The witness of C22: pixel 3 of the band row lies in the inner band. *)
Lemma meter_image_layers_witness :
  match meter_image 1 8 demo_js demo_colors with
  | Some (W, H, rs) => 0 <= 3 < W /\ 0 <= 4 < H /\ pixel W H rs 3 4 = Some ColorKool
  | None => False
  end.
Proof.
  destruct (meter_image 1 8 demo_js demo_colors) as [[[W H] rs]|] eqn:E; [|vm_compute in E; discriminate].
  assert (HW : W = 11 /\ H = 8) by (vm_compute in E; apply Some_eq_inv in E; inversion E; split; reflexivity).
  destruct HW as [-> ->]. split; [lia|]. split; [lia|].
  rewrite (meter_image_layers 1 8 demo_js demo_colors 11 8 rs E 3 4 ltac:(lia) ltac:(lia)).
  vm_compute. reflexivity.
Defined.

(** The witness of C24: with [MeterWidth = 4/3] and windows 10 and
    20 ms the image is 55 pixels wide and the inner band's sides add up
    to 57: it sits one pixel right of centre. *)
Lemma meter_image_band_offset_witness :
  match meter_image (4 # 3) 8 [10; 20] [ColorKool; ColorMiss] with
  | Some (W, H, rs) =>
      Forall (fun rc => X0 (fst rc) + X1 (fst rc) = W \/ X0 (fst rc) + X1 (fst rc) = W + 2) rs /\
      W = 55 /\ map (fun rc => X0 (fst rc) + X1 (fst rc)) rs = [55; 57]
  | None => False
  end.
Proof.
  destruct (meter_image (4 # 3) 8 [10; 20] [ColorKool; ColorMiss]) as [[[W H] rs]|] eqn:E;
    [|vm_compute in E; discriminate].
  split; [exact (meter_image_band_offset (4 # 3) 8 [10; 20] [ColorKool; ColorMiss] W H rs
                   ltac:(discriminate) ltac:(repeat constructor; lia) E)|].
  vm_compute in E. apply Some_eq_inv in E. injection E as <- <- <-. split; reflexivity.
Defined.

(** The witness of C23: pixels 3 and 7 of the demo image match. *)
Lemma meter_image_symmetric_witness :
  match meter_image 1 8 demo_js demo_colors with
  | Some (W, H, rs) => pixel W H rs 3 4 = pixel W H rs (W - 1 - 3) 4
  | None => False
  end.
Proof.
  destruct (meter_image 1 8 demo_js demo_colors) as [[[W H] rs]|] eqn:E; [|vm_compute in E; discriminate].
  apply (meter_image_symmetric 1 8 demo_js demo_colors W H rs); [|exact E].
  repeat constructor.
Defined.

End MeterImage.
