(* ===== verification/SceneChanger.v ===== *)
(** * SceneChanger: the cross-fade state machine of src/_scenechanger.go

    [SceneChanger] holds the game's scene [g.Scene] (through its pointer
    [sc.g]), its own [Scene] (set once, by [NewSceneChanger]), the
    [NextScene], and [TransCountdown]; [changeScene] starts a transition,
    [Update] counts it down and swaps the game's scene at zero, calling
    the new scene's [Init]; [Draw] renders the outgoing and the incoming
    scene with complementary brightness.  Scenes are opaque: a [Section]
    variable [Scene]; [Init] calls are recorded in [InitLog] (most recent
    first), and [Draw] returns the scenes it renders with their HSV value.
    A nil scene whose method is called is Go's nil-interface panic,
    [None] here.  The state machine is also given as a step relation
    [step], with its reachable states [reachable]. *)

From Stdlib Require Import ZArith QArith List Lia Lqa.
From S2P Require Import Prelude.
Import ListNotations.

Open Scope Z_scope.

Module SceneChanger.

Section Changer.
Variable Scene : Type.

(** The fields of [SceneChanger] that are not images, with [sc.g.Scene]. *)
Record SceneChanger := mkChanger {
  GameScene : option Scene;
  ChangerScene : option Scene;
  NextScene : option Scene;
  TransCountdown : Z;
  InitLog : list Scene
}.

(** [func (sc *SceneChanger) MaxTransCountDown() int { return mode.MaxTPS() * 4 / 5 }] *)
Definition MaxTransCountDown (MaxTPS : Z) : Z := Z.quot (MaxTPS * 4) 5.

(** [func (sc *SceneChanger) done() bool { return sc.TransCountdown == 0 }] *)
Definition done (sc : SceneChanger) : bool := TransCountdown sc =? 0.

(** [func (g *Game) NewSceneChanger() *SceneChanger] *)
Definition NewSceneChanger (gameScene : option Scene) : SceneChanger :=
  mkChanger gameScene gameScene None 0 [].

(** [func (sc *SceneChanger) Update() error] *)
Definition Update (sc : SceneChanger) : option SceneChanger :=
  if done sc then Some sc
  else
    let c := TransCountdown sc - 1 in
    if 0 <? c then
      Some (mkChanger (GameScene sc) (ChangerScene sc) (NextScene sc) c (InitLog sc))
    else
      match NextScene sc with
      | Some s => Some (mkChanger (Some s) (ChangerScene sc) None c (s :: InitLog sc))
      | None => None
      end.

(** [func (sc *SceneChanger) changeScene(s Scene)] *)
Definition changeScene (MaxTPS : Z) (sc : SceneChanger) (s : Scene) : SceneChanger :=
  mkChanger (GameScene sc) (ChangerScene sc) (Some s) (MaxTransCountDown MaxTPS) (InitLog sc).

(** [func (sc *SceneChanger) Draw(screen *ebiten.Image)]: the scenes
    drawn and the value of their [ChangeHSV(0, 1, value)]. *)
Definition Draw (MaxTPS : Z) (sc : SceneChanger) : option (list (Scene * Q)) :=
  if done sc then Some []
  else
    let value := (inject_Z (TransCountdown sc) / inject_Z (MaxTransCountDown MaxTPS))%Q in
    match ChangerScene sc, NextScene sc with
    | Some from, Some to => Some [(from, value); (to, 1 - value)%Q]
    | _, _ => None
    end.

(** The state machine: an update or a scene-change request. *)
Inductive step (MaxTPS : Z) : SceneChanger -> SceneChanger -> Prop :=
| step_update sc sc' : Update sc = Some sc' -> step MaxTPS sc sc'
| step_change sc s : step MaxTPS sc (changeScene MaxTPS sc s).

Inductive reachable (MaxTPS : Z) (g0 : option Scene) : SceneChanger -> Prop :=
| reach_init : reachable MaxTPS g0 (NewSceneChanger g0)
| reach_step sc sc' : reachable MaxTPS g0 sc -> step MaxTPS sc sc' -> reachable MaxTPS g0 sc'.

(** The invariant: the countdown is within [0 .. max], and a
    transition in progress has a scene to go to. *)
Definition changer_inv (MaxTPS : Z) (sc : SceneChanger) : Prop :=
  0 <= TransCountdown sc <= MaxTransCountDown MaxTPS /\
  (TransCountdown sc <> 0 -> NextScene sc <> None).

End Changer.

Arguments mkChanger {Scene}.
Arguments GameScene {Scene}.
Arguments ChangerScene {Scene}.
Arguments NextScene {Scene}.
Arguments TransCountdown {Scene}.
Arguments InitLog {Scene}.
Arguments done {Scene}.
Arguments NewSceneChanger {Scene}.
Arguments Update {Scene}.
Arguments changeScene {Scene}.
Arguments Draw {Scene}.
Arguments step {Scene}.
Arguments reachable {Scene}.
Arguments changer_inv {Scene}.

Section Props.
Variable Scene : Type.
Variable MaxTPS : Z.
Hypothesis HMax : 0 < MaxTransCountDown MaxTPS.

Lemma NewSceneChanger_inv (g0 : option Scene) : changer_inv MaxTPS (NewSceneChanger g0).
Proof. unfold changer_inv; simpl. split; [lia | congruence]. Qed.

Lemma changeScene_inv (sc : SceneChanger Scene) (s : Scene) :
  changer_inv MaxTPS (changeScene MaxTPS sc s).
Proof. unfold changer_inv; simpl. split; [lia | congruence]. Qed.

Lemma Update_inv (sc sc' : SceneChanger Scene) :
  changer_inv MaxTPS sc -> Update sc = Some sc' -> changer_inv MaxTPS sc'.
Proof.
  unfold changer_inv, Update, done. intros [Hb Hn] H.
  destruct (Z.eqb_spec (TransCountdown sc) 0); [injection H as <-; auto|].
  destruct (Z.ltb_spec 0 (TransCountdown sc - 1)).
  - injection H as <-. simpl. split; [lia | auto].
  - destruct (NextScene sc); [injection H as <-; simpl; split; [lia | intros Hc; exfalso; lia] | discriminate].
Qed.

Lemma Update_total (sc : SceneChanger Scene) :
  changer_inv MaxTPS sc -> exists sc', Update sc = Some sc'.
Proof.
  unfold changer_inv, Update, done. intros [Hb Hn].
  destruct (Z.eqb_spec (TransCountdown sc) 0); [eauto|].
  destruct (Z.ltb_spec 0 (TransCountdown sc - 1)); [eauto|].
  destruct (NextScene sc) eqn:E; [eauto | exfalso; eapply Hn; eauto].
Qed.

Lemma step_inv (sc sc' : SceneChanger Scene) :
  changer_inv MaxTPS sc -> step MaxTPS sc sc' -> changer_inv MaxTPS sc'.
Proof.
  intros Hi Hs. destruct Hs; [eapply Update_inv; eauto | apply changeScene_inv].
Qed.

Lemma step_keeps_ChangerScene (sc sc' : SceneChanger Scene) :
  step MaxTPS sc sc' -> ChangerScene sc' = ChangerScene sc.
Proof.
  destruct 1 as [sc sc' H|]; [|reflexivity].
  unfold Update in H. obind_inv; subst; try reflexivity.
Qed.

(** C7: every reachable state of the changer satisfies the invariant,
    and its [Update] does not panic. *)
Theorem reachable_inv (g0 : option Scene) (sc : SceneChanger Scene) :
  reachable MaxTPS g0 sc ->
  changer_inv MaxTPS sc /\ exists sc', Update sc = Some sc'.
Proof.
  intros Hr. assert (Hi : changer_inv MaxTPS sc).
  { induction Hr; [apply NewSceneChanger_inv | eapply step_inv; eauto]. }
  split; [exact Hi | apply Update_total; exact Hi].
Qed.

(** C12: the changer's own [Scene], from which [Draw] fades out, is the
    game's scene at construction in every reachable state: [Update]
    assigns [sc.g.Scene = sc.NextScene] and never [sc.Scene], so after a
    first transition the fade-out shows a scene that is no longer the
    game's. *)
Theorem ChangerScene_stale (g0 : option Scene) (sc : SceneChanger Scene) :
  reachable MaxTPS g0 sc -> ChangerScene sc = g0.
Proof.
  induction 1 as [|sc sc' _ IH Hs]; [reflexivity|].
  rewrite (step_keeps_ChangerScene sc sc' Hs). exact IH.
Qed.

Lemma Update_counting (G C : option Scene) (n : option Scene) (c : Z) (L : list Scene) :
  1 < c -> Update (mkChanger G C n c L) = Some (mkChanger G C n (c - 1) L).
Proof.
  intros Hc. unfold Update, done; simpl.
  destruct (Z.eqb_spec c 0); [lia|]. destruct (Z.ltb_spec 0 (c - 1)); [reflexivity | lia].
Qed.

Lemma Update_last (G C : option Scene) (s : Scene) (L : list Scene) :
  Update (mkChanger G C (Some s) 1 L) = Some (mkChanger (Some s) C None 0 (s :: L)).
Proof. reflexivity. Qed.

(** A pending transition counts down by one per update... *)
Lemma countdown_from (G C : option Scene) (s : Scene) (c : Z) (L : list Scene) (k : nat) :
  Z.of_nat k < c ->
  orun k Update (mkChanger G C (Some s) c L) = Some (mkChanger G C (Some s) (c - Z.of_nat k) L).
Proof.
  induction k as [|k IH]; intros Hlt.
  - simpl. rewrite Z.sub_0_r. reflexivity.
  - rewrite orun_succ_r, IH by lia. cbn [obind].
    rewrite Update_counting by lia. do 2 f_equal. lia.
Qed.

(** ... and its last update makes the pending scene the game's scene. *)
Lemma countdown_finishes (G C : option Scene) (s : Scene) (c : Z) (L : list Scene) :
  0 < c -> orun (Z.to_nat c) Update (mkChanger G C (Some s) c L) = Some (mkChanger (Some s) C None 0 (s :: L)).
Proof.
  intros Hc. replace (Z.to_nat c) with (S (Z.to_nat (c - 1))) by lia.
  rewrite orun_succ_r, countdown_from by lia. cbn [obind].
  replace (c - Z.of_nat (Z.to_nat (c - 1))) with 1 by lia. apply Update_last.
Qed.

Lemma transition_counting (sc : SceneChanger Scene) (s : Scene) (k : nat) :
  Z.of_nat k < MaxTransCountDown MaxTPS ->
  orun k Update (changeScene MaxTPS sc s) =
    Some (mkChanger (GameScene sc) (ChangerScene sc) (Some s)
                    (MaxTransCountDown MaxTPS - Z.of_nat k) (InitLog sc)).
Proof. apply countdown_from. Qed.

Lemma transition_completes (sc : SceneChanger Scene) (s : Scene) :
  orun (Z.to_nat (MaxTransCountDown MaxTPS)) Update (changeScene MaxTPS sc s) =
    Some (mkChanger (Some s) (ChangerScene sc) None 0 (s :: InitLog sc)).
Proof. apply countdown_finishes. exact HMax. Qed.

(** C9: a transition always finishes.  From every state of the
    invariant, with no new request, the changer is idle after
    [TransCountdown] updates, the pending scene (if any) has become the
    game's scene, and further updates leave it unchanged. *)
Theorem transition_finishes (sc : SceneChanger Scene) :
  changer_inv MaxTPS sc ->
  exists sc', orun (Z.to_nat (TransCountdown sc)) Update sc = Some sc' /\ done sc' = true /\
    (TransCountdown sc <> 0 -> GameScene sc' = NextScene sc) /\ Update sc' = Some sc'.
Proof.
  destruct sc as [G C n c L]. unfold changer_inv, done, Update; simpl. intros [Hb Hn].
  destruct (Z.eq_dec c 0) as [->|Hc].
  - exists (mkChanger G C n 0 L). repeat split; [intros H; contradiction].
  - destruct n as [s|]; [|exfalso; exact (Hn Hc eq_refl)].
    exists (mkChanger (Some s) C None 0 (s :: L)).
    rewrite countdown_finishes by lia. repeat split.
Qed.

(** C3: a transition takes exactly [MaxTransCountDown] updates: after
    [k] of them, fewer than the maximum, the changer still counts down
    toward the requested scene, and the last one makes it the game's
    scene, calls its [Init] once, and clears [NextScene]. *)
Theorem transition_length (sc : SceneChanger Scene) (s : Scene) :
  (forall k : nat, Z.of_nat k < MaxTransCountDown MaxTPS ->
    orun k Update (changeScene MaxTPS sc s) =
      Some (mkChanger (GameScene sc) (ChangerScene sc) (Some s)
                      (MaxTransCountDown MaxTPS - Z.of_nat k) (InitLog sc))) /\
  orun (Z.to_nat (MaxTransCountDown MaxTPS)) Update (changeScene MaxTPS sc s) =
    Some (mkChanger (Some s) (ChangerScene sc) None 0 (s :: InitLog sc)).
Proof.
  split; [intros k; apply transition_counting | apply transition_completes].
Qed.

(** [Draw] during a transition that still counts down: the outgoing
    scene at [countdown / max], the pending one at [1 - countdown / max]. *)
Lemma Draw_counting (sc : SceneChanger Scene) (from to : Scene) :
  TransCountdown sc <> 0 -> ChangerScene sc = Some from -> NextScene sc = Some to ->
  Draw MaxTPS sc =
    Some [(from, inject_Z (TransCountdown sc) / inject_Z (MaxTransCountDown MaxTPS));
          (to, 1 - inject_Z (TransCountdown sc) / inject_Z (MaxTransCountDown MaxTPS))]%Q.
Proof.
  intros Hc Hf Ht. unfold Draw, done.
  destruct (Z.eqb_spec (TransCountdown sc) 0); [contradiction|]. rewrite Hf, Ht. reflexivity.
Qed.

(** C19: the cross-fade is linear in the updates.  [k] updates after a
    request for [s] (fewer than [MaxTransCountDown], so the transition
    is still running), [Draw] renders the changer's own scene with value
    [(max - k) / max] and [s] with [1 - (max - k) / max], which is
    [k / max]; the value of the outgoing scene is in [(0, 1]]. *)
Theorem Draw_weights (sc : SceneChanger Scene) (s from : Scene) (k : nat) :
  ChangerScene sc = Some from -> Z.of_nat k < MaxTransCountDown MaxTPS ->
  let v := (inject_Z (MaxTransCountDown MaxTPS - Z.of_nat k) / inject_Z (MaxTransCountDown MaxTPS))%Q in
  exists sc', orun k Update (changeScene MaxTPS sc s) = Some sc' /\
    Draw MaxTPS sc' = Some [(from, v); (s, 1 - v)%Q] /\
    (1 - v == inject_Z (Z.of_nat k) / inject_Z (MaxTransCountDown MaxTPS))%Q /\ (0 < v <= 1)%Q.
Proof.
  intros Hfrom Hk v. rewrite (transition_counting sc s k Hk).
  eexists. split; [reflexivity|].
  assert (HMq : (0 < inject_Z (MaxTransCountDown MaxTPS))%Q)
    by (change 0%Q with (inject_Z 0); rewrite <- Zlt_Qlt; exact HMax).
  split; [apply Draw_counting; simpl; [lia | exact Hfrom | reflexivity]|].
  split.
  - unfold v. unfold Z.sub. rewrite inject_Z_plus, inject_Z_opp. field. intros H. rewrite H in HMq. discriminate.
  - split.
    + apply Qlt_shift_div_l; [exact HMq|]. rewrite Qmult_0_l.
      change 0%Q with (inject_Z 0). rewrite <- Zlt_Qlt. lia.
    + apply Qle_shift_div_r; [exact HMq|]. rewrite Qmult_1_l. rewrite <- Zle_Qle. lia.
Qed.

End Props.

Lemma reachable_orun (MaxTPS : Z) {Scene : Type} (g0 : option Scene) (n : nat) :
  forall (sc sc' : SceneChanger Scene),
  reachable MaxTPS g0 sc -> orun n Update sc = Some sc' -> reachable MaxTPS g0 sc'.
Proof.
  induction n as [|n IH]; simpl; intros sc sc' Hr H.
  - injection H as <-. exact Hr.
  - destruct (Update sc) as [sc1|] eqn:E; [|discriminate].
    apply (IH sc1); [econstructor; [exact Hr | constructor; exact E] | exact H].
Qed.

(** Three scenes, to run the changer. *)
Inductive demo_scene := SceneA | SceneB | SceneC.

Lemma MaxTransCountDown_1000 : 0 < MaxTransCountDown 1000.
Proof. reflexivity. Qed.

(** A game at 1000 ticks per second that started on scene A and was
    asked for scene B. *)
Definition demo_to_B : SceneChanger demo_scene :=
  changeScene 1000 (NewSceneChanger (Some SceneA)) SceneB.

(** The same game once the transition to B is over. *)
Definition demo_after_B : SceneChanger demo_scene :=
  mkChanger (Some SceneB) (Some SceneA) None 0 [SceneB].

Lemma demo_to_B_reachable : reachable 1000 (Some SceneA) demo_to_B.
Proof. unfold demo_to_B. eapply reach_step; [apply reach_init | apply step_change]. Qed.

Lemma demo_after_B_reachable : reachable 1000 (Some SceneA) demo_after_B.
Proof.
  apply (reachable_orun 1000 (Some SceneA) 800 demo_to_B);
    [exact demo_to_B_reachable | vm_compute; reflexivity].
Qed.

(** The witness of C7: the game in the middle of its first transition. *)
Lemma reachable_inv_witness :
  changer_inv 1000 demo_to_B /\ exists sc', Update demo_to_B = Some sc'.
Proof.
  exact (reachable_inv demo_scene 1000 MaxTransCountDown_1000 (Some SceneA) demo_to_B
           demo_to_B_reachable).
Defined.

(** The witness of C12: after the transition to B, the game shows B but
    the changer still holds A, so a request for C fades out from A. *)
Lemma ChangerScene_stale_witness :
  GameScene demo_after_B = Some SceneB /\ ChangerScene demo_after_B = Some SceneA /\
  match Draw 1000 (changeScene 1000 demo_after_B SceneC) with
  | Some [(x, _); (y, _)] => x = SceneA /\ y = SceneC
  | _ => False
  end.
Proof.
  split; [reflexivity|]. split.
  - exact (ChangerScene_stale demo_scene 1000 (Some SceneA) demo_after_B
             demo_after_B_reachable).
  - vm_compute. split; reflexivity.
Defined.

(** The witness of C3: at 1000 ticks per second the transition to B takes
    800 updates. *)
Lemma transition_length_witness :
  orun (Z.to_nat (MaxTransCountDown 1000)) Update demo_to_B =
    Some (mkChanger (Some SceneB) (Some SceneA) None 0 [SceneB]).
Proof.
  exact (proj2 (transition_length demo_scene 1000 MaxTransCountDown_1000
                  (NewSceneChanger (Some SceneA)) SceneB)).
Defined.

(** The witness of C19: 200 updates into the transition from A to B at
    1000 ticks per second, A is drawn at 3/4 and B at 1/4. *)
Lemma Draw_weights_witness :
  exists sc', orun 200 Update demo_to_B = Some sc' /\
    Draw 1000 sc' = Some [(SceneA, inject_Z (800 - 200) / inject_Z 800);
                          (SceneB, 1 - inject_Z (800 - 200) / inject_Z 800)]%Q /\
    (1 - inject_Z (800 - 200) / inject_Z 800 == inject_Z 200 / inject_Z 800)%Q /\
    (0 < inject_Z (800 - 200) / inject_Z 800 <= 1)%Q.
Proof.
  exact (Draw_weights demo_scene 1000 MaxTransCountDown_1000 (NewSceneChanger (Some SceneA))
           SceneB SceneA 200 eq_refl ltac:(vm_compute; reflexivity)).
Defined.

(** The witness of C9: the transition to [SceneB] requested on a fresh
    changer at 1000 TPS finishes after its 800 updates. *)
Lemma transition_finishes_witness :
  changer_inv 1000 (changeScene 1000 (NewSceneChanger (Some SceneA)) SceneB) /\
  exists sc', orun 800 Update (changeScene 1000 (NewSceneChanger (Some SceneA)) SceneB) = Some sc' /\
    done sc' = true.
Proof.
  assert (Hi : changer_inv 1000 (changeScene 1000 (NewSceneChanger (Some SceneA)) SceneB))
    by exact (changeScene_inv _ 1000 MaxTransCountDown_1000 _ _).
  split; [exact Hi|].
  destruct (transition_finishes _ 1000 _ Hi) as (sc' & H & Hd & _).
  exists sc'. split; [exact H | exact Hd].
Defined.

End SceneChanger.
