(* ===== verification/Timeline.v ===== *)
(** * Timeline: the timing-point cursor of src/mode/play.go

    A chart's timing points ([TransPoint] of package mode, not under
    src/: its fields [Time], [BPM], [BeatScale], [Volume] as the spec
    describes them) form a singly linked list; [ScenePlay.TransPoint] is
    a pointer into it, modelled as the suffix of the chain that starts at
    the current point (the empty list is the nil pointer).
    [SetInitTransPoint] skips the leading points that share a time,
    [UpdateTransPoint] moves the cursor forward past every point whose
    time has come ([advance]) and refreshes the applied volume, [BeatRatio]
    and [Speed] give the scroll speed.  Go's global [Volume] is the
    parameter [GlobalVolume]; float64 values are rationals [Q]. *)

From Stdlib Require Import ZArith QArith List Lia Lqa Sorted.
From S2P Require Import Prelude Clock.
Import ListNotations.

Open Scope Z_scope.
Open Scope gosu_scope.

Module Timeline.

(** [type TransPoint struct { Time int64; BPM, BeatScale, Volume float64;
    Next *TransPoint }] (the link is the list structure). *)
Record TransPoint := mkTP { Time : Z; BPM : Q; BeatScale : Q; Volume : Q }.

(** The fields of [ScenePlay] the cursor and the volume use; [PlayVolume]
    is [ScenePlay.Volume] and [TransPointRef] is [ScenePlay.TransPoint]. *)
Record ScenePlay := mkPlay {
  Tick : Z;
  MainBPM : Q;
  SpeedBase : Q;
  TransPointRef : list TransPoint;
  LastVolume : Q;
  PlayVolume : Q
}.

Definition with_cursor (s : ScenePlay) (c : list TransPoint) (last vol : Q) : ScenePlay :=
  mkPlay (Tick s) (MainBPM s) (SpeedBase s) c last vol.

(** [for s.TransPoint.Time == s.TransPoint.Next.Time { s.TransPoint =
    s.TransPoint.Next }]: a nil [Next] is a nil-pointer panic. *)
Fixpoint skip_same_time (cur : TransPoint) (rest : list TransPoint) : option (list TransPoint) :=
  match rest with
  | [] => None
  | nxt :: rest' => if Time cur =? Time nxt then skip_same_time nxt rest' else Some (cur :: rest)
  end.

(** [func (s *ScenePlay) SetInitTransPoint(first *TransPoint)] *)
Definition SetInitTransPoint (GlobalVolume : Q) (s : ScenePlay) (first : list TransPoint)
  : option ScenePlay :=
  match first with
  | [] => None
  | tp :: rest =>
      match skip_same_time tp rest with
      | Some (c :: rest') =>
          Some (with_cursor s (c :: rest') (LastVolume s) (GlobalVolume * Volume c)%Q)
      | _ => None
      end
  end.

(** [for s.TransPoint.Next != nil && s.TransPoint.Next.Time <= s.Time()
    { s.TransPoint = s.TransPoint.Next }], as the new current point and
    what follows it. *)
Fixpoint advance (now : Z) (cur : TransPoint) (rest : list TransPoint) : TransPoint * list TransPoint :=
  match rest with
  | [] => (cur, [])
  | nxt :: rest' => if Time nxt <=? now then advance now nxt rest' else (cur, rest)
  end.

(** [func (s *ScenePlay) UpdateTransPoint()]: the cursor moves to
    [s.Time()]; [if s.LastVolume != s.TransPoint.Volume { s.LastVolume =
    s.Volume; s.Volume = Volume * s.TransPoint.Volume }]. *)
Definition UpdateTransPoint (GlobalVolume : Q) (MaxTPS : Z) (s : ScenePlay) : option ScenePlay :=
  match TransPointRef s with
  | [] => None
  | cur :: rest =>
      let (tp, rest') := advance (Clock.Time MaxTPS (Tick s)) cur rest in
      if negb (Qeq_bool (LastVolume s) (Volume tp))
      then Some (with_cursor s (tp :: rest') (PlayVolume s) (GlobalVolume * Volume tp)%Q)
      else Some (with_cursor s (tp :: rest') (LastVolume s) (PlayVolume s))
  end.

(** [func (s ScenePlay) BeatRatio() float64] and [Speed()]. *)
Definition BeatRatio (s : ScenePlay) : option Q :=
  match TransPointRef s with
  | tp :: _ => Some (BPM tp / MainBPM s)%Q
  | [] => None
  end.

Definition Speed (s : ScenePlay) : option Q :=
  match TransPointRef s, BeatRatio s with
  | tp :: _, Some r => Some (SpeedBase s * r * BeatScale tp)%Q
  | _, _ => None
  end.

(** ** Reference *)

(** The point active at [now]: the last one of the chain whose time has
    come, or the first one when none has. *)
Definition active_point (now : Z) (cur : TransPoint) (rest : list TransPoint) : TransPoint :=
  last (cur :: filter (fun p => Time p <=? now) rest) cur.

Definition time_le (a b : TransPoint) : Prop := Time a <= Time b.

(** ** The cursor *)

Lemma last_default (l : list TransPoint) (x d d' : TransPoint) :
  last (x :: l) d = last (x :: l) d'.
Proof.
  revert x; induction l as [|y l IH]; intros x; [reflexivity|].
  rewrite !last_cons_cons. apply IH.
Qed.

Lemma filter_none_due (now : Z) (l : list TransPoint) :
  Forall (fun p => now < Time p) l -> filter (fun p => Time p <=? now) l = [].
Proof.
  induction 1 as [|p l Hp _ IH]; simpl; [reflexivity|].
  destruct (Z.leb_spec (Time p) now); [lia | exact IH].
Qed.

(** The cursor stops at a point of the chain: what it leaves behind is a
    prefix, and the rest of the chain is untouched. *)
Lemma advance_suffix (now : Z) (rest : list TransPoint) :
  forall cur, exists pre, cur :: rest = pre ++ fst (advance now cur rest) :: snd (advance now cur rest).
Proof.
  induction rest as [|nxt rest IH]; intros cur; simpl.
  - exists []. reflexivity.
  - destruct (Z.leb_spec (Time nxt) now).
    + destruct (IH nxt) as [pre Hpre]. exists (cur :: pre). simpl. rewrite <- Hpre. reflexivity.
    + exists []. reflexivity.
Qed.

(** The cursor stops before the first point still in the future. *)
Lemma advance_stops (now : Z) (rest : list TransPoint) :
  forall cur, match snd (advance now cur rest) with
              | nxt :: _ => now < Time nxt
              | [] => True
              end.
Proof.
  induction rest as [|nxt rest IH]; intros cur; simpl; [exact I|].
  destruct (Z.leb_spec (Time nxt) now); [apply IH | simpl; lia].
Qed.

Lemma advance_active (now : Z) (rest : list TransPoint) :
  forall cur, StronglySorted time_le (cur :: rest) ->
  fst (advance now cur rest) = active_point now cur rest.
Proof.
  unfold active_point.
  induction rest as [|nxt rest IH]; intros cur Hs; simpl; [reflexivity|].
  inversion Hs as [|? ? Hs' Hle]; subst.
  destruct (Z.leb_spec (Time nxt) now) as [Hdue|Hnot].
  - rewrite IH by exact Hs'. simpl. apply last_default.
  - simpl. inversion Hs' as [|? ? _ Hle']; subst.
    rewrite filter_none_due; [reflexivity|].
    eapply Forall_impl; [|exact Hle']. unfold time_le. intros a Ha. lia.
Qed.

(** C25: [UpdateTransPoint] refines the resolution of the active timing
    point: on a chain in time order it never panics, the new current
    point is the last one whose time has come at [s.Time()] (or the
    current one if none has), the next point is still in the future, and
    the cursor only moves forward along the unchanged chain. *)
Theorem UpdateTransPoint_active (GlobalVolume : Q) (MaxTPS : Z) (s : ScenePlay)
  (cur : TransPoint) (rest : list TransPoint) :
  TransPointRef s = cur :: rest -> StronglySorted time_le (cur :: rest) ->
  exists s' tp rest' pre,
    UpdateTransPoint GlobalVolume MaxTPS s = Some s' /\ TransPointRef s' = tp :: rest' /\
    tp = active_point (Clock.Time MaxTPS (Tick s)) cur rest /\
    match rest' with nxt :: _ => Clock.Time MaxTPS (Tick s) < Time nxt | [] => True end /\
    cur :: rest = pre ++ tp :: rest'.
Proof.
  intros Hc Hs. set (now := Clock.Time MaxTPS (Tick s)).
  pose proof (advance_active now rest cur Hs) as Ha.
  pose proof (advance_stops now rest cur) as Hst.
  destruct (advance_suffix now rest cur) as [pre Hpre].
  unfold UpdateTransPoint. rewrite Hc. fold now.
  destruct (advance now cur rest) as [tp rest'] eqn:E. simpl in *.
  destruct (negb (Qeq_bool (LastVolume s) (Volume tp))); eexists; exists tp, rest', pre;
    repeat split; auto.
Qed.

Lemma advance_idem (now : Z) (rest : list TransPoint) :
  forall cur, advance now (fst (advance now cur rest)) (snd (advance now cur rest)) =
              advance now cur rest.
Proof.
  induction rest as [|nxt rest IH]; intros cur; simpl; [reflexivity|].
  destruct (Z.leb_spec (Time nxt) now); [apply IH|].
  simpl. destruct (Z.leb_spec (Time nxt) now); [lia | reflexivity].
Qed.

(** [UpdateTransPoint] is idempotent for a fixed tick: a second call
    at the same tick leaves the cursor where the first put it. *)
Theorem UpdateTransPoint_idempotent (GlobalVolume : Q) (MaxTPS : Z) (s s1 s2 : ScenePlay) :
  UpdateTransPoint GlobalVolume MaxTPS s = Some s1 ->
  UpdateTransPoint GlobalVolume MaxTPS s1 = Some s2 ->
  TransPointRef s2 = TransPointRef s1.
Proof.
  unfold UpdateTransPoint. intros H1 H2.
  destruct (TransPointRef s) as [|cur rest]; [discriminate|].
  pose proof (advance_idem (Clock.Time MaxTPS (Tick s)) rest cur) as Hidem.
  destruct (advance (Clock.Time MaxTPS (Tick s)) cur rest) as [tp rest'] eqn:E. simpl in Hidem.
  destruct (negb (Qeq_bool (LastVolume s) (Volume tp))); apply Some_eq_inv in H1; subst s1;
    simpl in H2; rewrite Hidem in H2;
    destruct (negb _); apply Some_eq_inv in H2; subst s2; reflexivity.
Qed.

(** The cursor only moves forward: advancing to [now1] and then to a
    later [now2] is advancing to [now2] at once. *)
Theorem advance_compose (now1 now2 : Z) (cur : TransPoint) (rest : list TransPoint) :
  now1 <= now2 ->
  advance now2 (fst (advance now1 cur rest)) (snd (advance now1 cur rest)) = advance now2 cur rest.
Proof.
  intros Hle. revert cur. induction rest as [|nxt rest IH]; intros cur; simpl; [reflexivity|].
  destruct (Z.leb_spec (Time nxt) now1).
  - rewrite IH. destruct (Z.leb_spec (Time nxt) now2); [reflexivity | lia].
  - reflexivity.
Qed.

(** ** Initialization *)

Lemma skip_same_time_None (rest : list TransPoint) :
  forall cur, skip_same_time cur rest = None <-> Forall (fun p => Time p = Time cur) rest.
Proof.
  induction rest as [|nxt rest IH]; intros cur; simpl.
  - split; constructor.
  - destruct (Z.eqb_spec (Time cur) (Time nxt)) as [He|Hne].
    + rewrite IH. split; intros H.
      * constructor; [lia|]. eapply Forall_impl; [|exact H]. simpl. intros a Ha. lia.
      * inversion H; subst. eapply Forall_impl; [|eassumption]. simpl. intros a Ha. lia.
    + split; intros H; [discriminate | inversion H; subst; lia].
Qed.

Lemma skip_same_time_Some (rest : list TransPoint) :
  forall cur l, skip_same_time cur rest = Some l ->
  exists pre c nxt r,
    cur :: rest = pre ++ c :: nxt :: r /\ l = c :: nxt :: r /\
    Forall (fun p => Time p = Time cur) (pre ++ [c]) /\ Time nxt <> Time c.
Proof.
  induction rest as [|nxt rest IH]; intros cur l H; simpl in H; [discriminate|].
  destruct (Z.eqb_spec (Time cur) (Time nxt)) as [He|Hne].
  - destruct (IH nxt l H) as (pre & c & n & r & Hc & Hl & Hf & Hn).
    exists (cur :: pre), c, n, r. split; [simpl; rewrite Hc; reflexivity|].
    split; [exact Hl|]. split; [|exact Hn].
    constructor; [reflexivity|]. eapply Forall_impl; [|exact Hf]. simpl. intros a Ha. lia.
  - apply Some_eq_inv in H. subst l. exists [], cur, nxt, rest.
    repeat split; [repeat constructor | lia].
Qed.

(** C26: [SetInitTransPoint] panics (dereferences a nil [Next]) exactly
    when every point of the chart has the time of the first one: in
    particular for a chart with a single timing point. *)
Theorem SetInitTransPoint_None (GlobalVolume : Q) (s : ScenePlay) (tp : TransPoint)
  (rest : list TransPoint) :
  SetInitTransPoint GlobalVolume s (tp :: rest) = None <->
  Forall (fun p => Time p = Time tp) rest.
Proof.
  unfold SetInitTransPoint. rewrite <- skip_same_time_None.
  destruct (skip_same_time tp rest) as [l|] eqn:E; [|split; reflexivity].
  destruct (skip_same_time_Some rest tp l E) as (pre & c & n & r & _ & -> & _).
  split; discriminate.
Qed.

(** C27: when it succeeds, [SetInitTransPoint] puts the cursor on the
    last point of the leading run of points that share the first time,
    leaves the rest of the chain as it is, and applies that point's
    volume scale to the global volume. *)
Theorem SetInitTransPoint_spec (GlobalVolume : Q) (s s' : ScenePlay) (tp : TransPoint)
  (rest : list TransPoint) :
  SetInitTransPoint GlobalVolume s (tp :: rest) = Some s' ->
  exists pre c nxt r,
    tp :: rest = pre ++ c :: nxt :: r /\ TransPointRef s' = c :: nxt :: r /\
    Forall (fun p => Time p = Time tp) (pre ++ [c]) /\ Time nxt <> Time c /\
    PlayVolume s' = (GlobalVolume * Volume c)%Q /\ Tick s' = Tick s.
Proof.
  unfold SetInitTransPoint. intros H.
  destruct (skip_same_time tp rest) as [l|] eqn:E; [|discriminate].
  destruct (skip_same_time_Some rest tp l E) as (pre & c & n & r & Hc & -> & Hf & Hn).
  apply Some_eq_inv in H. subst s'.
  exists pre, c, n, r. repeat split; assumption.
Qed.

(** ** The applied volume *)

(** A play with the global volume at one half: a first point at volume
    scale 1/4 and a second, one second later, at 1/8. *)
Definition vol_chain : list TransPoint :=
  [mkTP 0 120 1 (1 # 4); mkTP 1000 120 1 (1 # 8)].

Definition set_tick (s : ScenePlay) (k : Z) : ScenePlay :=
  mkPlay k (MainBPM s) (SpeedBase s) (TransPointRef s) (LastVolume s) (PlayVolume s).

(** Init, an update at tick 0, and the state at tick 1000. *)
Definition vol_play_1000 : option ScenePlay :=
  let? s1 := SetInitTransPoint (1 # 2) (mkPlay 0 120 1 [] 0 0) vol_chain in
  let? s2 := UpdateTransPoint (1 # 2) 1000 s1 in
  Some (set_tick s2 1000).

(** C28: the volume bookkeeping of [UpdateTransPoint].  On a chain in
    time order, with [tp] the point active at [s.Time()]: when
    [LastVolume] equals [tp]'s volume scale the applied volume and
    [LastVolume] stay as they are; otherwise [LastVolume] takes the
    applied volume [s.Volume] (global volume times scale), not the
    scale it is compared with, and the applied volume becomes
    [GlobalVolume * tp.Volume].  So once the stored applied volume
    equals the scale of a later point, that point's volume is never
    applied. *)
Theorem UpdateTransPoint_volume (GlobalVolume : Q) (MaxTPS : Z) (s : ScenePlay)
  (cur : TransPoint) (rest : list TransPoint) :
  TransPointRef s = cur :: rest -> StronglySorted time_le (cur :: rest) ->
  let tp := active_point (Clock.Time MaxTPS (Tick s)) cur rest in
  exists s', UpdateTransPoint GlobalVolume MaxTPS s = Some s' /\
    ((LastVolume s == Volume tp)%Q -> LastVolume s' = LastVolume s /\ PlayVolume s' = PlayVolume s) /\
    (~ (LastVolume s == Volume tp)%Q ->
       LastVolume s' = PlayVolume s /\ PlayVolume s' = (GlobalVolume * Volume tp)%Q).
Proof.
  intros Hc Hs tp. pose proof (advance_active (Clock.Time MaxTPS (Tick s)) rest cur Hs) as Ha.
  unfold UpdateTransPoint. rewrite Hc.
  destruct (advance (Clock.Time MaxTPS (Tick s)) cur rest) as [tp' rest'] eqn:E.
  simpl in Ha. fold tp in Ha. subst tp'.
  destruct (Qeq_bool (LastVolume s) (Volume tp)) eqn:Eq; cbn [negb].
  - apply Qeq_bool_iff in Eq. eexists. split; [reflexivity|].
    split; [intros _; split; reflexivity | intros Hn; contradiction].
  - eexists. split; [reflexivity|]. split; [|intros _; split; reflexivity].
    intros He. apply Qeq_bool_iff in He. congruence.
Qed.

(** ** Witnesses *)

(** The spec's chain: (0, 120 BPM, volume 1), (1000, 120, 1), (1000, 180
    BPM, volume 0.5). *)
Definition spec_chain : list TransPoint :=
  [mkTP 0 120 1 1; mkTP 1000 120 1 1; mkTP 1000 180 1 (1 # 2)].

Definition spec_play (tick : Z) : ScenePlay := mkPlay tick 120 1 spec_chain 0 1.

(** The witness of C28: the global volume at one half, the play at
    1000 ms after an update at 0 ms.  The point of scale 1/8 is active;
    the stored 1/8 (the applied [1/2 * 1/4]) equals that scale, so the
    applied volume stays 1/8 instead of [1/2 * 1/8]. *)
Lemma UpdateTransPoint_volume_witness :
  match vol_play_1000 with
  | Some s =>
      exists s', UpdateTransPoint (1 # 2) 1000 s = Some s' /\
        ((LastVolume s == Volume (mkTP 1000 120 1 (1 # 8)))%Q ->
           LastVolume s' = LastVolume s /\ PlayVolume s' = PlayVolume s) /\
        (~ (LastVolume s == Volume (mkTP 1000 120 1 (1 # 8)))%Q ->
           LastVolume s' = PlayVolume s /\ PlayVolume s' = ((1 # 2) * Volume (mkTP 1000 120 1 (1 # 8)))%Q)
  | None => False
  end /\
  match obind vol_play_1000 (UpdateTransPoint (1 # 2) 1000) with
  | Some s' => PlayVolume s' = (1 # 8)%Q
  | None => False
  end.
Proof.
  split; [|vm_compute; reflexivity].
  destruct vol_play_1000 as [s|] eqn:E; [|vm_compute in E; discriminate E].
  vm_compute in E. apply Some_eq_inv in E. subst s.
  match goal with
  | |- exists s', UpdateTransPoint _ _ ?S = Some s' /\ _ =>
      exact (UpdateTransPoint_volume (1 # 2) 1000 S (mkTP 0 120 1 (1 # 4)) [mkTP 1000 120 1 (1 # 8)]
               eq_refl ltac:(repeat constructor; unfold time_le; simpl; lia))
  end.
Defined.

(** The witness of C25: at 1500 ms (1000 ticks per second) the cursor
    resolves to the 180 BPM point, at 500 ms to the first point. *)
Lemma UpdateTransPoint_active_witness :
  (exists s' tp rest' pre,
    UpdateTransPoint 1 1000 (spec_play 1500) = Some s' /\ TransPointRef s' = tp :: rest' /\
    tp = active_point (Clock.Time 1000 (Tick (spec_play 1500))) (mkTP 0 120 1 1)
                      [mkTP 1000 120 1 1; mkTP 1000 180 1 (1 # 2)] /\
    match rest' with nxt :: _ => Clock.Time 1000 (Tick (spec_play 1500)) < Time nxt | [] => True end /\
    spec_chain = pre ++ tp :: rest') /\
  active_point (Clock.Time 1000 1500) (mkTP 0 120 1 1) [mkTP 1000 120 1 1; mkTP 1000 180 1 (1 # 2)]
    = mkTP 1000 180 1 (1 # 2) /\
  active_point (Clock.Time 1000 500) (mkTP 0 120 1 1) [mkTP 1000 120 1 1; mkTP 1000 180 1 (1 # 2)]
    = mkTP 0 120 1 1.
Proof.
  split; [|split; vm_compute; reflexivity].
  apply UpdateTransPoint_active; [reflexivity|].
  repeat constructor; unfold time_le; simpl; lia.
Defined.

(** Two updates of the spec's play at 1500 ms leave the cursor in place. *)
Lemma UpdateTransPoint_idempotent_witness :
  match UpdateTransPoint 1 1000 (spec_play 1500) with
  | Some s1 =>
      match UpdateTransPoint 1 1000 s1 with
      | Some s2 => TransPointRef s2 = TransPointRef s1
      | None => False
      end
  | None => False
  end.
Proof.
  destruct (UpdateTransPoint 1 1000 (spec_play 1500)) as [s1|] eqn:E1;
    [|vm_compute in E1; discriminate E1].
  destruct (UpdateTransPoint 1 1000 s1) as [s2|] eqn:E2.
  - exact (UpdateTransPoint_idempotent 1 1000 (spec_play 1500) s1 s2 E1 E2).
  - vm_compute in E1. injection E1 as <-. vm_compute in E2. discriminate E2.
Defined.

(** The spec's chain advanced to 500 ms, then 1500 ms. *)
Lemma advance_compose_witness :
  advance 1500 (fst (advance 500 (mkTP 0 120 1 1) (tl spec_chain)))
               (snd (advance 500 (mkTP 0 120 1 1) (tl spec_chain))) =
  advance 1500 (mkTP 0 120 1 1) (tl spec_chain).
Proof. apply advance_compose. lia. Defined.

(** The play after [SetInitTransPoint] on the spec's chain. *)
Definition spec_play_init : ScenePlay :=
  with_cursor (spec_play 0) spec_chain 0 (1 * Volume (mkTP 0 120 1 1))%Q.

(** The witness of C27: the spec's chain starts on its first point, whose
    successor has another time. *)
Lemma SetInitTransPoint_spec_witness :
  exists pre c nxt r,
    spec_chain = pre ++ c :: nxt :: r /\ TransPointRef spec_play_init = c :: nxt :: r /\
    Forall (fun p => Time p = Time (mkTP 0 120 1 1)) (pre ++ [c]) /\ Time nxt <> Time c /\
    PlayVolume spec_play_init = (1 * Volume c)%Q /\ Tick spec_play_init = Tick (spec_play 0).
Proof.
  apply (SetInitTransPoint_spec 1 (spec_play 0) spec_play_init (mkTP 0 120 1 1) (tl spec_chain)).
  reflexivity.
Defined.

End Timeline.
