(* ===== verification/Drawers.v ===== *)
(** * Drawers: the combo and score counters of src/drawer.go

    [NumberDrawer] (the combo counter) keeps the combo and a bounce
    countdown ([draws.BaseDrawer], not under src/: [Countdown],
    [MaxCountdown], [Age]); [Update] restarts the countdown when the
    combo changes, [Draw] splits the combo into decimal digits and lays
    them out centred.  [ScoreDrawer] shows [floor(score + 0.1)] with at
    least [ZeroFill] digits, the score being smoothed by [ctrl.Delayed]
    (not under src/; modelled from the spec as exponential smoothing with
    a factor [k] in (0, 1)).  The digit loop [for v := n; v > 0; v /= 10]
    is [digits_loop] with fuel; [digits] gives it [1 + log2 n] turns,
    which [digits_fuel] shows is enough: the digits it returns are the
    whole decimal expansion ([digits_spec]). *)

From Stdlib Require Import ZArith QArith Qround Qpower List Lia Lqa.
From S2P Require Import Prelude.
Import ListNotations.

Open Scope Z_scope.

Module Drawers.

(** [const ( SignDot = iota; SignComma; SignPercent )] *)
Definition SignDot : Z := 0.
Definition SignComma : Z := 1.
Definition SignPercent : Z := 2.

(** ** Decimal digits *)

(** [for v := n; v > 0; v /= 10 { vs = append(vs, v%10) }]: little
    endian, with Go's truncating [/] and [%]. *)
Fixpoint digits_loop (fuel : nat) (v : Z) : list Z :=
  match fuel with
  | O => []
  | S f => if 0 <? v then Z.rem v 10 :: digits_loop f (Z.quot v 10) else []
  end.

Definition digits (n : Z) : list Z := digits_loop (S (Z.to_nat (Z.log2 n))) n.

(** The number little-endian digits stand for. *)
Fixpoint from_digits (l : list Z) : Z :=
  match l with
  | [] => 0
  | d :: rest => d + 10 * from_digits rest
  end.

(** ** The combo counter *)

(** The fields of [NumberDrawer] with those of its [draws.BaseDrawer]. *)
Record NumberDrawer := mkNumber {
  Countdown : Z;
  MaxCountdown : Z;
  DigitWidth : Q;
  DigitGap : Q;
  Combo : Z;
  Bounce : Q
}.

(** [BaseDrawer.Age()]: [1 - Countdown / MaxCountdown]. *)
Definition Age (d : NumberDrawer) : Q :=
  (1 - inject_Z (Countdown d) / inject_Z (MaxCountdown d))%Q.

(** [func (d *NumberDrawer) Update(combo int)] *)
Definition Update (d : NumberDrawer) (combo : Z) : NumberDrawer :=
  let c := if 0 <? Countdown d then Countdown d - 1 else Countdown d in
  if negb (Combo d =? combo)
  then mkNumber (MaxCountdown d) (MaxCountdown d) (DigitWidth d) (DigitGap d) combo (Bounce d)
  else mkNumber c (MaxCountdown d) (DigitWidth d) (DigitGap d) (Combo d) (Bounce d).

(** The vertical bounce of a digit, in sprite heights. *)
Definition bounce_shift (d : NumberDrawer) : Q :=
  let age := Age d in
  if Qlt_le_dec age (5 # 100) then (Bounce d * age)%Q
  else if Qlt_le_dec age (1 # 10) then (Bounce d * ((1 # 10) - age))%Q
  else 0%Q.

(** The loop of [Draw]: digit, horizontal offset [tx], vertical shift. *)
Fixpoint place_digits (w tx y : Q) (vs : list Z) : list (Z * Q * Q) :=
  match vs with
  | [] => []
  | v :: rest => (v, tx, y) :: place_digits w (tx - w)%Q y rest
  end.

(** [func (d NumberDrawer) Draw(screen *ebiten.Image)] *)
Definition NumberDraw (d : NumberDrawer) : list (Z * Q * Q) :=
  if (negb (MaxCountdown d =? 0) && (Countdown d =? 0))%bool then []
  else if Combo d =? 0 then []
  else
    let vs := digits (Combo d) in
    let w := (DigitWidth d + DigitGap d)%Q in
    place_digits w (inject_Z (Z.of_nat (length vs) - 1) * w / 2)%Q (bounce_shift d) vs.

(** ** The score counter *)

(** [ctrl.Delayed] in exponential mode: the displayed value and its
    source; each update moves the value by the fraction [k] of the
    distance left. *)
Record Delayed := mkDelayed { Value : Q; Source : Q }.

Definition DelayedUpdate (k : Q) (d : Delayed) (src : Q) : Delayed :=
  mkDelayed (Qred (Value d + (src - Value d) * k)) src.

(** The fields of [ScoreDrawer] with those of its [draws.BaseDrawer]. *)
Record ScoreDrawer := mkScore {
  SCountdown : Z;
  SMaxCountdown : Z;
  ZeroFill : Z;
  Score : Delayed
}.

(** [func NewScoreDrawer() ScoreDrawer]: [ZeroFill: 1], exponential
    [Delayed], and a zero [BaseDrawer] ([MaxCountdown = 0]: always drawn). *)
Definition NewScoreDrawer : ScoreDrawer := mkScore 0 0 1 (mkDelayed 0 0).

(** [func (d *ScoreDrawer) Update(score float64) { d.Score.Update(score) }] *)
Definition ScoreUpdate (k : Q) (d : ScoreDrawer) (score : Q) : ScoreDrawer :=
  mkScore (SCountdown d) (SMaxCountdown d) (ZeroFill d) (DelayedUpdate k (Score d) score).

(** The digits [ScoreDrawer.Draw] draws, least significant first:
    [score := int(math.Floor(d.Score.Value() + 0.1))], its digits, then
    [for i := len(vs); i < d.ZeroFill; i++ { vs = append(vs, 0) }]. *)
Definition score_digits (value : Q) (zeroFill : Z) : list Z :=
  let vs := digits (Qfloor (value + (1 # 10))%Q) in
  vs ++ repeat 0 (Z.to_nat (zeroFill - Z.of_nat (length vs))).

Definition ScoreDraw (d : ScoreDrawer) : list Z :=
  if (negb (SMaxCountdown d =? 0) && (SCountdown d =? 0))%bool then []
  else score_digits (Value (Score d)) (ZeroFill d).

(** ** The digit loop *)

Lemma pow2_succ (f : nat) : 2 ^ Z.of_nat (S f) = 2 * 2 ^ Z.of_nat f.
Proof. rewrite Nat2Z.inj_succ, Z.pow_succ_r by lia. reflexivity. Qed.

(** With [v < 2^fuel] the loop runs to its exit [v = 0]: the digits it
    returns are decimal digits, they stand for [v], and the most
    significant one is not zero. *)
Lemma digits_loop_ok (fuel : nat) :
  forall v, 0 <= v < 2 ^ Z.of_nat fuel ->
  from_digits (digits_loop fuel v) = v /\
  Forall (fun x => 0 <= x <= 9) (digits_loop fuel v) /\
  (0 < v -> last (digits_loop fuel v) 0 <> 0).
Proof.
  induction fuel as [|f IH]; intros v Hv; simpl digits_loop.
  - simpl in Hv. assert (v = 0) by lia. subst. repeat split; [constructor | lia].
  - rewrite pow2_succ in Hv. destruct (Z.ltb_spec 0 v) as [Hpos|Hz]; [|simpl; repeat split; [lia | constructor | lia]].
    rewrite Z.rem_mod_nonneg, Z.quot_div_nonneg by lia.
    assert (Hq : 0 <= v / 10 < 2 ^ Z.of_nat f).
    { pose proof (Z.div_mod v 10 ltac:(lia)). pose proof (Z.mod_pos_bound v 10 ltac:(lia)).
      set (P := 2 ^ Z.of_nat f) in *. clearbody P. lia. }
    destruct (IH (v / 10) Hq) as (Hval & Hrange & Hlast).
    pose proof (Z.div_mod v 10 ltac:(lia)). pose proof (Z.mod_pos_bound v 10 ltac:(lia)).
    split; [cbn [from_digits]; rewrite Hval; lia|]. split; [constructor; [lia | exact Hrange]|].
    intros _. destruct (digits_loop f (v / 10)) as [|x l] eqn:E.
    + cbn [last]. assert (Hq0 : v / 10 = 0) by (cbn [from_digits] in Hval; lia). lia.
    + change (last (v mod 10 :: x :: l) 0) with (last (x :: l) 0).
      apply Hlast. cbn [from_digits] in Hval. destruct (Z.eq_dec (v / 10) 0) as [Hq1|Hq1]; [|lia].
      exfalso. destruct f; simpl in E; [discriminate|].
      rewrite Hq1 in E. simpl in E. discriminate.
Qed.

Lemma digits_fuel (n : Z) : 0 <= n -> n < 2 ^ Z.of_nat (S (Z.to_nat (Z.log2 n))).
Proof.
  intros Hn. rewrite Nat2Z.inj_succ, Z2Nat.id by apply Z.log2_nonneg.
  destruct (Z.eq_dec n 0) as [->|Hne]; [simpl; lia|].
  apply Z.log2_spec. lia.
Qed.

(** C29: [digits] of a non-negative number are its decimal digits, least
    significant first: each is in [0, 9], they stand for the number, and
    the last one is not zero (no leading zero is drawn). *)
Theorem digits_spec (n : Z) :
  0 <= n ->
  from_digits (digits n) = n /\ Forall (fun x => 0 <= x <= 9) (digits n) /\
  (0 < n -> last (digits n) 0 <> 0).
Proof.
  intros Hn. apply digits_loop_ok. split; [exact Hn | apply digits_fuel; exact Hn].
Qed.

Lemma digits_nonempty (n : Z) : 0 < n -> digits n <> [].
Proof.
  intros Hn. unfold digits. simpl digits_loop.
  destruct (Z.ltb_spec 0 n); [discriminate | lia].
Qed.

Lemma from_digits_zeros (l : list Z) (n : nat) :
  from_digits (l ++ repeat 0 n) = from_digits l.
Proof.
  induction l as [|x l IH]; simpl.
  - induction n as [|n IHn]; simpl; [reflexivity | rewrite IHn; lia].
  - rewrite IH. reflexivity.
Qed.

(** C30: the score counter draws the digits of [floor(value + 0.1)],
    least significant first, padded with zeros to [ZeroFill] digits:
    every digit indexes one of the ten sprites, and together they stand
    for that number. *)
Theorem score_digits_spec (value : Q) (zeroFill : Z) :
  0 <= Qfloor (value + (1 # 10))%Q ->
  from_digits (score_digits value zeroFill) = Qfloor (value + (1 # 10))%Q /\
  Forall (fun x => 0 <= x <= 9) (score_digits value zeroFill) /\
  zeroFill <= Z.of_nat (length (score_digits value zeroFill)).
Proof.
  intros Hn. destruct (digits_loop_ok _ _ (conj Hn (digits_fuel _ Hn))) as (Hval & Hrange & _).
  unfold score_digits. rewrite from_digits_zeros. split; [exact Hval|]. split.
  - apply Forall_app. split; [exact Hrange|]. apply Forall_forall.
    intros x Hx%repeat_spec. lia.
  - rewrite length_app, repeat_length. lia.
Qed.

(** ** The layout of the combo *)

Lemma inject_Z_succ_nat (i : nat) : (inject_Z (Z.of_nat (S i)) == inject_Z (Z.of_nat i) + 1)%Q.
Proof. rewrite Nat2Z.inj_succ, <- Z.add_1_r, inject_Z_plus. reflexivity. Qed.

Lemma place_digits_map (w tx y : Q) (vs : list Z) :
  map (fun '(v, _, _) => v) (place_digits w tx y vs) = vs.
Proof. revert tx. induction vs as [|v vs IH]; intros tx; simpl; [reflexivity | rewrite IH; reflexivity]. Qed.

(** Digit [i] of the loop is drawn [i] steps of [w] left of the first. *)
Lemma place_digits_nth (w : Q) (vs : list Z) :
  forall tx y i v tx' y', nth_error (place_digits w tx y vs) i = Some (v, tx', y') ->
  nth_error vs i = Some v /\ (tx' == tx - inject_Z (Z.of_nat i) * w)%Q /\ y' = y.
Proof.
  induction vs as [|v0 vs IH]; intros tx y [|i] v tx' y' H; simpl in H; try discriminate.
  - apply Some_eq_inv in H. inversion H; subst. split; [reflexivity|]. split; [simpl; ring | reflexivity].
  - destruct (IH _ _ _ _ _ _ H) as (Hv & Htx & Hy). split; [exact Hv|]. split; [|exact Hy].
    rewrite Htx, inject_Z_succ_nat. ring.
Qed.

(** C32: when [NumberDrawer.Draw] draws a positive combo, it draws exactly
    its decimal digits, least significant first, the [i]-th at the
    horizontal offset [(n-1)w/2 - i w] (with [w] the digit width plus
    the gap and [n] the number of digits), so the first and the last are
    symmetric about the centre, all at the same bounce height. *)
Theorem NumberDraw_layout (d : NumberDrawer) :
  0 < Combo d -> (MaxCountdown d = 0 \/ Countdown d <> 0) ->
  map (fun '(v, _, _) => v) (NumberDraw d) = digits (Combo d) /\
  forall i v tx y, nth_error (NumberDraw d) i = Some (v, tx, y) ->
    (tx == inject_Z (Z.of_nat (length (digits (Combo d))) - 1) * (DigitWidth d + DigitGap d) / 2
           - inject_Z (Z.of_nat i) * (DigitWidth d + DigitGap d))%Q /\ y = bounce_shift d.
Proof.
  intros Hc Hshow. unfold NumberDraw.
  replace ((negb (MaxCountdown d =? 0) && (Countdown d =? 0))%bool) with false
    by (destruct Hshow as [->|Hn]; [reflexivity | rewrite (proj2 (Z.eqb_neq _ _) Hn), Bool.andb_false_r; reflexivity]).
  rewrite (proj2 (Z.eqb_neq (Combo d) 0)) by lia.
  split; [apply place_digits_map|].
  intros i v tx y H. destruct (place_digits_nth _ _ _ _ _ _ _ _ H) as (_ & Htx & Hy). split; assumption.
Qed.

(** ** The combo countdown *)

Lemma Update_same (d : NumberDrawer) :
  Update d (Combo d) =
    mkNumber (if 0 <? Countdown d then Countdown d - 1 else Countdown d)
             (MaxCountdown d) (DigitWidth d) (DigitGap d) (Combo d) (Bounce d).
Proof. unfold Update. rewrite Z.eqb_refl. reflexivity. Qed.

Lemma iter_Update_same (d : NumberDrawer) (k : nat) :
  Z.of_nat k <= Countdown d ->
  Nat.iter k (fun x => Update x (Combo x)) d =
    mkNumber (Countdown d - Z.of_nat k) (MaxCountdown d) (DigitWidth d) (DigitGap d)
             (Combo d) (Bounce d).
Proof.
  induction k as [|k IH]; intros Hk; simpl Nat.iter.
  - rewrite Z.sub_0_r. destruct d; reflexivity.
  - rewrite IH by lia. rewrite Update_same. simpl.
    destruct (Z.ltb_spec 0 (Countdown d - Z.of_nat k)); [|lia]. f_equal. lia.
Qed.

(** C31: the combo counter is drawn for exactly [MaxCountdown] updates
    after the combo last changed: a change restarts the countdown, and
    with the combo unchanged the digits are drawn while the countdown is
    positive and disappear when it reaches zero. *)
Theorem combo_display_time (d : NumberDrawer) (combo : Z) :
  0 < MaxCountdown d -> 0 < combo -> Combo d <> combo ->
  let d0 := Update d combo in
  (forall k : nat, Z.of_nat k < MaxCountdown d ->
     NumberDraw (Nat.iter k (fun x => Update x (Combo x)) d0) <> []) /\
  NumberDraw (Nat.iter (Z.to_nat (MaxCountdown d)) (fun x => Update x (Combo x)) d0) = [].
Proof.
  intros HM Hc Hne d0.
  assert (Hd0 : d0 = mkNumber (MaxCountdown d) (MaxCountdown d) (DigitWidth d) (DigitGap d)
                             combo (Bounce d)).
  { unfold d0, Update. destruct (Z.eqb_spec (Combo d) combo); [contradiction | reflexivity]. }
  split.
  - intros k Hk. rewrite iter_Update_same by (rewrite Hd0; simpl; lia). rewrite Hd0.
    unfold NumberDraw; simpl.
    destruct (Z.eqb_spec (MaxCountdown d) 0); [lia|].
    destruct (Z.eqb_spec (MaxCountdown d - Z.of_nat k) 0); [lia|].
    destruct (Z.eqb_spec combo 0); [lia|]. simpl.
    pose proof (digits_nonempty combo Hc).
    destruct (digits combo); [contradiction | discriminate].
  - rewrite iter_Update_same by (rewrite Hd0; simpl; lia). rewrite Hd0.
    unfold NumberDraw; simpl. rewrite Z2Nat.id by lia.
    destruct (Z.eqb_spec (MaxCountdown d) 0); [lia|].
    rewrite Z.sub_diag. reflexivity.
Qed.

(** ** The smoother *)

Lemma DelayedUpdate_Value (k : Q) (d : Delayed) (src : Q) :
  (Value (DelayedUpdate k d src) == Value d + (src - Value d) * k)%Q.
Proof. unfold DelayedUpdate. cbn [Value]. apply Qred_correct. Qed.

Lemma iter_DelayedUpdate (k target : Q) (d : Delayed) (n : nat) :
  (target - Value (Nat.iter n (fun x => DelayedUpdate k x target) d) ==
   (target - Value d) * (1 - k) ^ Z.of_nat n)%Q.
Proof.
  induction n as [|n IH].
  - simpl. ring.
  - rewrite Nat2Z.inj_succ, <- Z.add_1_r. simpl Nat.iter. rewrite DelayedUpdate_Value.
    rewrite Qpower_plus'; [|lia]. rewrite Qpower_1_r.
    setoid_replace (target - (Value (Nat.iter n (fun x => DelayedUpdate k x target) d) +
      (target - Value (Nat.iter n (fun x => DelayedUpdate k x target) d)) * k))%Q
      with ((target - Value (Nat.iter n (fun x => DelayedUpdate k x target) d)) * (1 - k))%Q
      by ring.
    rewrite IH. ring.
Qed.

(** The exponential smoother below its target moves toward it by a
    fixed fraction of the distance left: after [n] updates the distance
    is [(1 - k)^n] times the initial one, the value increases strictly at
    every update and never reaches or passes the target. *)
Theorem Delayed_no_overshoot (k target : Q) (d : Delayed) (n : nat) :
  (0 < k < 1)%Q -> (Value d < target)%Q ->
  let v := fun m => Value (Nat.iter m (fun x => DelayedUpdate k x target) d) in
  (target - v n == (target - Value d) * (1 - k) ^ Z.of_nat n)%Q /\
  (v n < v (S n))%Q /\ (v (S n) < target)%Q.
Proof.
  intros Hk Hv v. split; [apply iter_DelayedUpdate|].
  assert (Hpos : forall m, (0 < target - v m)%Q).
  { intros m. unfold v. rewrite iter_DelayedUpdate.
    apply Qmult_lt_0_compat; [lra|]. apply Qpower_0_lt. lra. }
  assert (Hstep : (v (S n) == v n + (target - v n) * k)%Q) by (unfold v; simpl Nat.iter; apply DelayedUpdate_Value).
  pose proof (Hpos n). pose proof (Hpos (S n)). split; [|lra].
  rewrite Hstep. assert (0 < (target - v n) * k)%Q by (apply Qmult_lt_0_compat; lra). lra.
Qed.

(** [(1-k)^n (1 + n k) <= 1]: the residual of the smoother shrinks at
    least like [1 / (1 + n k)]. *)
Lemma decay_bound (k : Q) (n : nat) :
  (0 <= k <= 1)%Q -> ((1 - k) ^ Z.of_nat n * (1 + inject_Z (Z.of_nat n) * k) <= 1)%Q.
Proof.
  intros Hk. induction n as [|n IH].
  - simpl Z.of_nat. unfold Qpower. change (inject_Z 0) with 0%Q. lra.
  - rewrite Nat2Z.inj_succ, <- Z.add_1_r, Qpower_plus' by lia. rewrite Qpower_1_r, inject_Z_plus.
    pose proof (Qpower_0_le (1 - k) (Z.of_nat n) ltac:(lra)).
    assert (0 <= inject_Z (Z.of_nat n))%Q
      by (change 0%Q with (inject_Z 0); rewrite <- Zle_Qle; lia).
    set (P := ((1 - k) ^ Z.of_nat n)%Q) in *. set (M := inject_Z (Z.of_nat n)) in *.
    assert (0 <= P * k * (M * k + k))%Q
      by (apply Qmult_le_0_compat; [apply Qmult_le_0_compat|]; nra).
    change (inject_Z 1) with 1%Q. nra.
Qed.

Lemma Qfloor_eq (x : Q) (T : Z) : (inject_Z T <= x < inject_Z T + 1)%Q -> Qfloor x = T.
Proof.
  intros [H1 H2]. pose proof (Qfloor_le x). pose proof (Qlt_floor x).
  rewrite inject_Z_plus in *. change (inject_Z 1) with 1%Q in *.
  assert (A : (inject_Z (Qfloor x) < inject_Z (T + 1))%Q) by (rewrite inject_Z_plus; change (inject_Z 1) with 1%Q; lra).
  assert (B : (inject_Z T < inject_Z (Qfloor x + 1))%Q) by (rewrite inject_Z_plus; change (inject_Z 1) with 1%Q; lra).
  rewrite <- Zlt_Qlt in A, B. lia.
Qed.

(** The number [ScoreDrawer.Draw] draws, [floor(value + 0.1)], reaches an
    integer target [T] of the smoother and stays there. *)
Lemma Delayed_floor_reaches (k : Q) (T : Z) (d : Delayed) :
  (0 < k < 1)%Q -> (Value d <= inject_Z T)%Q ->
  exists N : nat, forall n, (N <= n)%nat ->
    Qfloor (Value (Nat.iter n (fun x => DelayedUpdate k x (inject_Z T)) d) + (1 # 10)) = T.
Proof.
  intros Hk Hv. set (D := (inject_Z T - Value d)%Q).
  set (c := Qceiling (10 * D / k)).
  exists (S (Z.to_nat c)). intros n Hn. apply Qfloor_eq.
  pose proof (iter_DelayedUpdate k (inject_Z T) d n) as He. fold D in He.
  pose proof (decay_bound k n ltac:(lra)) as Hb.
  pose proof (Qpower_0_le (1 - k) (Z.of_nat n) ltac:(lra)) as HP.
  assert (Hx : (10 * D / k * k == 10 * D)%Q) by (field; lra).
  assert (H0 : (0 <= 10 * D / k)%Q) by (apply Qle_shift_div_l; unfold D in *; lra).
  pose proof (Qle_ceiling (10 * D / k)) as Hc. fold c in Hc.
  assert (Hc0 : (0 <= c)%Z) by (rewrite Zle_Qle; change (inject_Z 0) with 0%Q; lra).
  assert (HM : (inject_Z c + 1 <= inject_Z (Z.of_nat n))%Q).
  { change 1%Q with (inject_Z 1). rewrite <- inject_Z_plus, <- Zle_Qle. lia. }
  set (P := ((1 - k) ^ Z.of_nat n)%Q) in *. set (M := inject_Z (Z.of_nat n)) in *.
  set (X := (10 * D / k)%Q) in *.
  set (v := Value (Nat.iter n (fun x => DelayedUpdate k x (inject_Z T)) d)) in *.
  assert (HD : (0 <= D)%Q) by (unfold D; lra).
  assert (H1 : (10 * D < 1 + M * k)%Q) by nra.
  assert (H2 : (D * P * (1 + M * k) <= D)%Q) by nra.
  assert (Hs : (D * P < 1 # 10)%Q).
  { set (Y := (D * P)%Q) in *. set (W := (1 + M * k)%Q) in *.
    apply Qnot_le_lt. intros Hc'. nra. }
  assert (Hs0 : (0 <= D * P)%Q) by nra.
  lra.
Qed.

Lemma iter_ScoreUpdate (k src : Q) (d : ScoreDrawer) (n : nat) :
  Nat.iter n (fun x => ScoreUpdate k x src) d =
  mkScore (SCountdown d) (SMaxCountdown d) (ZeroFill d) (Nat.iter n (fun x => DelayedUpdate k x src) (Score d)).
Proof.
  induction n as [|n IH]; [destruct d; reflexivity|].
  simpl Nat.iter. rewrite IH. reflexivity.
Qed.

(** C33: the score counter shows an integer score exactly, in finite
    time.  Fed the same integer score [T] at every update, from a
    displayed value not above [T], with a smoothing factor [0 < k < 1]
    and a drawer that is drawn, there is an update count after which
    [ScoreDraw] draws exactly the digits of [T], padded with zeros to
    [ZeroFill]: the [+ 0.1] of [floor(value + 0.1)] makes the asymptotic
    smoother, which never reaches [T], show it. *)
Theorem score_reaches_target (k : Q) (T : Z) (d : ScoreDrawer) :
  (0 < k < 1)%Q -> (Value (Score d) <= inject_Z T)%Q -> (SMaxCountdown d = 0 \/ SCountdown d <> 0) ->
  exists N : nat, forall n, (N <= n)%nat ->
    ScoreDraw (Nat.iter n (fun x => ScoreUpdate k x (inject_Z T)) d) =
      digits T ++ repeat 0 (Z.to_nat (ZeroFill d - Z.of_nat (length (digits T)))).
Proof.
  intros Hk Hv Hdrawn. destruct (Delayed_floor_reaches k T (Score d) Hk Hv) as [N HN].
  exists N. intros n Hn. rewrite iter_ScoreUpdate. unfold ScoreDraw, score_digits. cbn [SCountdown SMaxCountdown ZeroFill Score].
  replace (negb (SMaxCountdown d =? 0) && (SCountdown d =? 0))%bool with false
    by (destruct Hdrawn as [H|H]; [rewrite H | rewrite (proj2 (Z.eqb_neq _ _) H), andb_false_r]; reflexivity).
  rewrite (HN n Hn). reflexivity.
Qed.

(** ** Witnesses *)

(** The witness of C32: the combo 1207 with 30-wide digits and a gap of 2
    is drawn as 7, 0, 2, 1 from offset 48 down to -48. *)
Lemma NumberDraw_layout_witness :
  0 < Combo (mkNumber 5 10 30 2 1207 (1 # 2)) /\
  map (fun '(v, _, _) => v) (NumberDraw (mkNumber 5 10 30 2 1207 (1 # 2))) = [7; 0; 2; 1] /\
  forall tx y, nth_error (NumberDraw (mkNumber 5 10 30 2 1207 (1 # 2))) 3 = Some (1, tx, y) -> (tx == -48)%Q.
Proof.
  assert (Hc : 0 < Combo (mkNumber 5 10 30 2 1207 (1 # 2))) by (simpl; lia).
  assert (Hs : MaxCountdown (mkNumber 5 10 30 2 1207 (1 # 2)) = 0 \/
               Countdown (mkNumber 5 10 30 2 1207 (1 # 2)) <> 0) by (right; simpl; lia).
  destruct (NumberDraw_layout _ Hc Hs) as [Hm Hn].
  split; [exact Hc|]. split; [rewrite Hm; vm_compute; reflexivity|].
  intros tx y H. destruct (Hn _ _ _ _ H) as [Htx _]. rewrite Htx. vm_compute. reflexivity.
Defined.

(** The witness of C29: the combo 1207. *)
Lemma digits_spec_witness :
  from_digits (digits 1207) = 1207 /\ Forall (fun x => 0 <= x <= 9) (digits 1207) /\
  (0 < 1207 -> last (digits 1207) 0 <> 0).
Proof. apply digits_spec. lia. Defined.

(** The witness of C30: a smoothed score of 99.95 is drawn as 100. *)
Lemma score_digits_spec_witness :
  from_digits (score_digits (9995 # 100) 1) = Qfloor ((9995 # 100) + (1 # 10))%Q /\
  Forall (fun x => 0 <= x <= 9) (score_digits (9995 # 100) 1) /\
  1 <= Z.of_nat (length (score_digits (9995 # 100) 1)) /\
  score_digits (9995 # 100) 1 = [0; 0; 1].
Proof.
  split; [|split; [|split]];
    [apply score_digits_spec .. | vm_compute; reflexivity];
    vm_compute; discriminate.
Defined.

(** The witness of C31: a combo going from 5 to 6 with a 30-tick bounce. *)
Lemma combo_display_time_witness :
  (forall k : nat, Z.of_nat k < 30 ->
     NumberDraw (Nat.iter k (fun x => Update x (Combo x)) (Update (mkNumber 0 30 1 0 5 (1 # 2)) 6))
       <> []) /\
  NumberDraw (Nat.iter (Z.to_nat 30) (fun x => Update x (Combo x))
                (Update (mkNumber 0 30 1 0 5 (1 # 2)) 6)) = [].
Proof. apply (combo_display_time (mkNumber 0 30 1 0 5 (1 # 2)) 6); simpl; lia. Defined.

(** The spec's smoother, from 0 toward 100 with
    [k = 1/10]. *)
Lemma Delayed_no_overshoot_witness :
  let v := fun m => Value (Nat.iter m (fun x => DelayedUpdate (1 # 10) x 100) (mkDelayed 0 0)) in
  (100 - v 3%nat == (100 - 0) * (1 - (1 # 10)) ^ Z.of_nat 3)%Q /\
  (v 3%nat < v 4%nat)%Q /\ (v 4%nat < 100)%Q.
Proof. apply (Delayed_no_overshoot (1 # 10) 100 (mkDelayed 0 0) 3); simpl; lra. Defined.

(** The witness of C33: a new score drawer fed the score 3 with
    [k = 1/2] draws the digit 3. *)
Lemma score_reaches_target_witness :
  exists N : nat, forall n, (N <= n)%nat ->
    ScoreDraw (Nat.iter n (fun x => ScoreUpdate (1 # 2) x (inject_Z 3)) NewScoreDrawer) = [3].
Proof.
  destruct (score_reaches_target (1 # 2) 3 NewScoreDrawer ltac:(split; reflexivity) ltac:(discriminate)
              ltac:(left; reflexivity)) as [N HN].
  exists N. intros n Hn. rewrite (HN n Hn). reflexivity.
Defined.

End Drawers.
