(* ===== verification/Play.v ===== *)
(** * Play: one tick of a play, the components composed in the spec's order

    The piano [ScenePlay.Update] that calls the components each tick is not
    under src/; the spec fixes the order of the calls: Clock.Tick, then
    Timeline.Advance ([s.Tick++] and [UpdateTransPoint] of play.go), then
    one call of the replay listener of replay.go, then the judgment
    (external: an opaque function with a state of its own), then the
    visual feedback of drawer.go ([MeterDrawer.AddMark] and [Update],
    [NumberDrawer.Update], [ScoreDrawer.Update]), then the scene
    transition of _scenechanger.go.

    Every component is an instance of the class [Component]: a step on its
    state with an input and an output, an invariant, and the law that the
    step keeps the invariant; [Total] adds that the step never panics on
    a state of the invariant.  The tick [play_tick] and the run
    [play_run] are written against the classes, in a section whose
    [Context] are the six instances, and their theorems use the class laws
    only.  The instances for the modelled code come after the section;
    they discharge the laws with the components' lemmas, and [gosu_tick]
    is the tick at those instances. *)

From Stdlib Require Import ZArith QArith List Lia.
From S2P Require Import Prelude Clock Replay Meter SceneChanger Timeline Drawers.
Import ListNotations.

Open Scope Z_scope.
Open Scope gosu_scope.

Module Play.

(** ** The interface between the tick and a component *)

Class Component (I O S : Type) := {
  cstep : I -> S -> option (S * O);
  cinv : S -> Prop;
  cstep_inv : forall i s s' o, cinv s -> cstep i s = Some (s', o) -> cinv s'
}.

Arguments cstep {I O S _} _ _.
Arguments cinv {I O S _} _.

(** A component whose step never panics on a state of its invariant. *)
Class Total (I O S : Type) {C : Component I O S} : Prop :=
  cstep_total : forall i s, cinv s -> exists s' o, cstep i s = Some (s', o).

Arguments cstep_total {I O S C _} _ _ _.

(** [n] steps of a component, with their inputs and outputs. *)
Fixpoint csteps {I O S : Type} {C : Component I O S} (ins : list I) (s : S) : option (S * list O) :=
  match ins with
  | [] => Some (s, [])
  | i :: ins' =>
      let? (s1, o) := cstep i s in
      let? (s2, os) := csteps ins' s1 in
      Some (s2, o :: os)
  end.

Lemma csteps_app {I O S : Type} {C : Component I O S} (l1 l2 : list I) (s : S) :
  csteps (l1 ++ l2) s =
    (let? (s1, o1) := csteps l1 s in
     let? (s2, o2) := csteps l2 s1 in
     Some (s2, o1 ++ o2))%gosu.
Proof.
  revert s. induction l1 as [|i l1 IH]; intros s; simpl.
  - destruct (csteps l2 s) as [[s2 o2]|]; reflexivity.
  - destruct (cstep i s) as [[s1 o]|]; cbn [obind]; [|reflexivity].
    rewrite IH. destruct (csteps l1 s1) as [[s3 o3]|]; cbn [obind]; [|reflexivity].
    destruct (csteps l2 s3) as [[s4 o4]|]; reflexivity.
Qed.

(** What the judgment hands to the feedback of one tick: the meter marks
    to add (offset and colour), the combo and the score. *)
Record Judgment := mkJudgment { JMarks : list (Z * Z); JCombo : Z; JScore : Q }.

(** The state of a play: the fields of [ScenePlay] the timeline uses, the
    replay closure, the judgment's state, the three drawers, and the
    game's scene changer. *)
Record Play (Scene J : Type) := mkPlayState {
  scene : Timeline.ScenePlay;
  listener : Replay.Listener;
  judgeState : J;
  meter : Meter.MeterDrawer;
  combo : Drawers.NumberDrawer;
  score : Drawers.ScoreDrawer;
  changer : SceneChanger.SceneChanger Scene
}.

Arguments mkPlayState {Scene J}.
Arguments scene {Scene J}.
Arguments listener {Scene J}.
Arguments judgeState {Scene J}.
Arguments meter {Scene J}.
Arguments combo {Scene J}.
Arguments score {Scene J}.
Arguments changer {Scene J}.

Section Tick.
Context {Scene J : Type}.
Context {CT : Component unit Z Timeline.ScenePlay}.
Context {CR : Component unit (list bool) Replay.Listener}.
Context {CM : Component (list (Z * Z)) unit Meter.MeterDrawer}.
Context {CN : Component Z unit Drawers.NumberDrawer}.
Context {CS : Component Q unit Drawers.ScoreDrawer}.
Context {CC : Component (option Scene) unit (SceneChanger.SceneChanger Scene)}.
Variable judge : J -> Z -> list bool -> J * Judgment.

(** One tick; [req] is the scene change requested during the tick.  The
    output is what the judgment was given: the clock's time and the keys. *)
Definition play_tick (req : option Scene) (p : Play Scene J) : option (Play Scene J * (Z * list bool)) :=
  let? (sp, now) := cstep tt (scene p) in
  let? (l, keys) := cstep tt (listener p) in
  let (js, j) := judge (judgeState p) now keys in
  let? (m, _) := cstep (JMarks j) (meter p) in
  let? (cd, _) := cstep (JCombo j) (combo p) in
  let? (sd, _) := cstep (JScore j) (score p) in
  let? (ch, _) := cstep req (changer p) in
  Some (mkPlayState sp l js m cd sd ch, (now, keys)).

(** One tick per request. *)
Fixpoint play_run (reqs : list (option Scene)) (p : Play Scene J)
  : option (Play Scene J * list (Z * list bool)) :=
  match reqs with
  | [] => Some (p, [])
  | r :: rs =>
      let? (p1, o) := play_tick r p in
      let? (p2, os) := play_run rs p1 in
      Some (p2, o :: os)
  end.

Definition play_inv (p : Play Scene J) : Prop :=
  cinv (scene p) /\ cinv (listener p) /\ cinv (meter p) /\
  cinv (combo p) /\ cinv (score p) /\ cinv (changer p).

Lemma play_tick_inv (r : option Scene) (p p' : Play Scene J) (o : Z * list bool) :
  play_inv p -> play_tick r p = Some (p', o) -> play_inv p'.
Proof.
  unfold play_tick, play_inv. intros (H1 & H2 & H3 & H4 & H5 & H6) H.
  obind_inv. subst. simpl.
  repeat split; eapply cstep_inv; eassumption.
Qed.

Lemma play_run_inv (reqs : list (option Scene)) :
  forall p p' os, play_inv p -> play_run reqs p = Some (p', os) -> play_inv p'.
Proof.
  induction reqs as [|r rs IH]; intros p p' os Hp H; simpl in H; obind_inv; subst;
    [exact Hp | eauto using play_tick_inv].
Qed.

Section Progress.
Context {TT : Total unit Z Timeline.ScenePlay}.
Context {TM : Total (list (Z * Z)) unit Meter.MeterDrawer}.
Context {TN : Total Z unit Drawers.NumberDrawer}.
Context {TS : Total Q unit Drawers.ScoreDrawer}.
Context {TC : Total (option Scene) unit (SceneChanger.SceneChanger Scene)}.

(** Every component but the replay is total: a tick panics only when the
    replay call does, and it advances the timeline and the replay by one
    step each. *)
Lemma play_tick_progress (r : option Scene) (p : Play Scene J) (l : Replay.Listener) (keys : list bool) :
  play_inv p -> cstep tt (listener p) = Some (l, keys) ->
  exists p' sp now, cstep tt (scene p) = Some (sp, now) /\
    play_tick r p = Some (p', (now, keys)) /\ listener p' = l /\ scene p' = sp.
Proof.
  intros (H1 & H2 & H3 & H4 & H5 & H6) Hl.
  destruct (cstep_total tt (scene p) H1) as (sp & now & Ht).
  destruct (judge (judgeState p) now keys) as [js j] eqn:Ej.
  destruct (cstep_total (JMarks j) (meter p) H3) as (m & [] & Hm).
  destruct (cstep_total (JCombo j) (combo p) H4) as (cd & [] & Hn).
  destruct (cstep_total (JScore j) (score p) H5) as (sd & [] & Hs).
  destruct (cstep_total r (changer p) H6) as (ch & [] & Hc).
  exists (mkPlayState sp l js m cd sd ch), sp, now. split; [exact Ht|].
  unfold play_tick. rewrite Ht; cbn [obind]. rewrite Hl; cbn [obind]. rewrite Ej.
  rewrite Hm; cbn [obind]. rewrite Hn; cbn [obind]. rewrite Hs; cbn [obind].
  rewrite Hc; cbn [obind]. repeat split.
Qed.

(** A run of the play projects onto a run of the replay and a run of the
    timeline: it succeeds whenever the replay's calls do, the keys it
    hands to the judgment are those the replay returns, and the times
    are those the timeline returns. *)
Lemma play_run_project (reqs : list (option Scene)) :
  forall p l keys, play_inv p ->
  csteps (repeat tt (length reqs)) (listener p) = Some (l, keys) ->
  exists p' sp outs, play_run reqs p = Some (p', outs) /\ listener p' = l /\
    map snd outs = keys /\ csteps (repeat tt (length reqs)) (scene p) = Some (sp, map fst outs) /\
    scene p' = sp /\ play_inv p'.
Proof.
  induction reqs as [|r rs IH]; intros p l keys Hp H; simpl in H |- *.
  - apply Some_eq_inv, pair_eq_inv in H as [<- <-]. exists p, (scene p), [].
    do 5 (split; [reflexivity|]). exact Hp.
  - obind_inv. subst.
    destruct (play_tick_progress r p l0 l1 Hp Ebind) as (p1 & sp & now & Ht & Hk & Hl1 & Hs1).
    assert (Hp1 : play_inv p1) by (eapply play_tick_inv; eassumption).
    rewrite <- Hl1 in Ebind0.
    destruct (IH p1 l l3 Hp1 Ebind0) as (p2 & sp2 & outs & Hr & Hl2 & Hk2 & Hc2 & Hs2 & Hp2).
    exists p2, sp2, ((now, l1) :: outs). rewrite Hk; cbn [obind]. rewrite Hr; cbn [obind].
    rewrite Ht; cbn [obind]. rewrite <- Hs1, Hc2; cbn [obind].
    do 5 (split; [simpl; congruence|]). exact Hp2.
Qed.

End Progress.

End Tick.

(** ** The instances: the modelled code behind the interface *)

(** [s.Tick++]: the spec's Clock.Tick. *)
Definition clock_tick (s : Timeline.ScenePlay) : Timeline.ScenePlay :=
  Timeline.mkPlay (Timeline.Tick s + 1) (Timeline.MainBPM s) (Timeline.SpeedBase s)
    (Timeline.TransPointRef s) (Timeline.LastVolume s) (Timeline.PlayVolume s).

(** Clock.Tick then Timeline.Advance; the output is [s.Time()]. *)
Definition timeline_step (GlobalVolume : Q) (MaxTPS : Z) (_ : unit) (s : Timeline.ScenePlay)
  : option (Timeline.ScenePlay * Z) :=
  let? s' := Timeline.UpdateTransPoint GlobalVolume MaxTPS (clock_tick s) in
  Some (s', Clock.Time MaxTPS (Timeline.Tick s')).

(** The cursor is a point of the chart's chain [chain]: not nil, and what
    follows it is the rest of the chain. *)
Definition timeline_inv (chain : list Timeline.TransPoint) (s : Timeline.ScenePlay) : Prop :=
  Timeline.TransPointRef s <> [] /\ exists pre, chain = pre ++ Timeline.TransPointRef s.

Lemma UpdateTransPoint_cursor (GlobalVolume : Q) (MaxTPS : Z) (s s' : Timeline.ScenePlay) :
  Timeline.UpdateTransPoint GlobalVolume MaxTPS s = Some s' ->
  Timeline.TransPointRef s' <> [] /\ Timeline.Tick s' = Timeline.Tick s /\
  exists pre, Timeline.TransPointRef s = pre ++ Timeline.TransPointRef s'.
Proof.
  unfold Timeline.UpdateTransPoint.
  destruct (Timeline.TransPointRef s) as [|cur rest]; [discriminate|].
  destruct (Timeline.advance_suffix (Clock.Time MaxTPS (Timeline.Tick s)) rest cur) as [pre Hpre].
  destruct (Timeline.advance _ cur rest) as [tp rest']. simpl in Hpre.
  intros H. destruct (negb _); apply Some_eq_inv in H; subst s'; simpl;
    (split; [discriminate | split; [reflexivity | exists pre; exact Hpre]]).
Qed.

Lemma UpdateTransPoint_Some (GlobalVolume : Q) (MaxTPS : Z) (s : Timeline.ScenePlay) :
  Timeline.TransPointRef s <> [] -> exists s', Timeline.UpdateTransPoint GlobalVolume MaxTPS s = Some s'.
Proof.
  unfold Timeline.UpdateTransPoint. destruct (Timeline.TransPointRef s) as [|cur rest]; [congruence|].
  destruct (Timeline.advance _ cur rest). destruct (negb _); eauto.
Qed.

Lemma timeline_step_inv (GlobalVolume : Q) (MaxTPS : Z) (chain : list Timeline.TransPoint)
  (u : unit) (s s' : Timeline.ScenePlay) (now : Z) :
  timeline_inv chain s -> timeline_step GlobalVolume MaxTPS u s = Some (s', now) ->
  timeline_inv chain s'.
Proof.
  unfold timeline_step, timeline_inv. intros Hs H. obind_inv. subst.
  destruct Hs as [_ [pre Hc]].
  destruct (UpdateTransPoint_cursor _ _ _ _ Ebind) as (Hne & _ & pre' & Hp).
  split; [exact Hne|]. exists (pre ++ pre'). rewrite <- app_assoc, <- Hp. exact Hc.
Qed.

#[export] Instance timeline_component (GlobalVolume : Q) (MaxTPS : Z) (chain : list Timeline.TransPoint)
  : Component unit Z Timeline.ScenePlay := {|
  cstep := timeline_step GlobalVolume MaxTPS;
  cinv := timeline_inv chain;
  cstep_inv := timeline_step_inv GlobalVolume MaxTPS chain
|}.

#[export] Instance timeline_total (GlobalVolume : Q) (MaxTPS : Z) (chain : list Timeline.TransPoint)
  : @Total _ _ _ (timeline_component GlobalVolume MaxTPS chain).
Proof.
  intros u s [Hne _]. simpl. unfold timeline_step.
  destruct (UpdateTransPoint_Some GlobalVolume MaxTPS (clock_tick s) Hne) as [s' E].
  rewrite E. cbn [obind]. eauto.
Qed.

(** The replay closure: one call per tick. *)
#[export] Instance replay_component : Component unit (list bool) Replay.Listener := {|
  cstep _ := Replay.listen;
  cinv := Replay.listener_inv;
  cstep_inv _ s s' o H E := proj1 (Replay.listen_inv s s' o H E)
|}.

Lemma replay_csteps (n : nat) (s : Replay.Listener) :
  csteps (C := replay_component) (repeat tt n) s = Replay.listen_n n s.
Proof.
  revert s. induction n as [|n IH]; intros s; [reflexivity|].
  simpl. destruct (Replay.listen s) as [[s1 o]|]; [|reflexivity]. cbn [obind].
  rewrite IH. reflexivity.
Qed.

(** The marks of the tick ([AddMark] once per judged note), then [Update]. *)
Definition meter_step (marks : list (Z * Z)) (d : Meter.MeterDrawer) : option (Meter.MeterDrawer * unit) :=
  Some (Meter.Update (fold_left (fun d '(offset, colorType) => Meter.AddMark d offset colorType) marks d), tt).

Lemma fold_AddMark_inv (marks : list (Z * Z)) :
  forall d, Meter.meter_inv d ->
  Meter.meter_inv (fold_left (fun d '(offset, colorType) => Meter.AddMark d offset colorType) marks d).
Proof.
  induction marks as [|[o c] marks IH]; intros d Hd; simpl; [exact Hd|].
  apply IH, Meter.AddMark_meter_inv, Hd.
Qed.

Lemma meter_step_inv (marks : list (Z * Z)) (d d' : Meter.MeterDrawer) (u : unit) :
  Meter.meter_inv d -> meter_step marks d = Some (d', u) -> Meter.meter_inv d'.
Proof.
  unfold meter_step. intros Hd H. apply Some_eq_inv, pair_eq_inv in H as [<- _].
  apply Meter.Update_meter_inv, fold_AddMark_inv, Hd.
Qed.

#[export] Instance meter_component : Component (list (Z * Z)) unit Meter.MeterDrawer := {|
  cstep := meter_step;
  cinv := Meter.meter_inv;
  cstep_inv := meter_step_inv
|}.

#[export] Instance meter_total : Total (list (Z * Z)) unit Meter.MeterDrawer.
Proof. intros marks d _. simpl. unfold meter_step. eauto. Qed.

(** [NumberDrawer.Update(combo)]; its bounce countdown stays in range. *)
Definition combo_step (c : Z) (d : Drawers.NumberDrawer) : option (Drawers.NumberDrawer * unit) :=
  Some (Drawers.Update d c, tt).

Definition combo_inv (d : Drawers.NumberDrawer) : Prop :=
  0 <= Drawers.Countdown d <= Drawers.MaxCountdown d.

Lemma combo_step_inv (c : Z) (d d' : Drawers.NumberDrawer) (u : unit) :
  combo_inv d -> combo_step c d = Some (d', u) -> combo_inv d'.
Proof.
  unfold combo_step, combo_inv, Drawers.Update. intros Hd H.
  apply Some_eq_inv, pair_eq_inv in H as [<- _].
  destruct (negb _); simpl; [lia|]. case_if; lia.
Qed.

#[export] Instance combo_component : Component Z unit Drawers.NumberDrawer := {|
  cstep := combo_step;
  cinv := combo_inv;
  cstep_inv := combo_step_inv
|}.

#[export] Instance combo_total : Total Z unit Drawers.NumberDrawer.
Proof. intros c d _. simpl. unfold combo_step. eauto. Qed.

(** [ScoreDrawer.Update(score)] with smoothing factor [k]; its base
    drawer has [MaxCountdown = 0], so the score is always drawn. *)
Definition score_step (k : Q) (sc : Q) (d : Drawers.ScoreDrawer) : option (Drawers.ScoreDrawer * unit) :=
  Some (Drawers.ScoreUpdate k d sc, tt).

Definition score_inv (d : Drawers.ScoreDrawer) : Prop := Drawers.SMaxCountdown d = 0.

Lemma score_step_inv (k sc : Q) (d d' : Drawers.ScoreDrawer) (u : unit) :
  score_inv d -> score_step k sc d = Some (d', u) -> score_inv d'.
Proof.
  unfold score_step. intros Hd H. apply Some_eq_inv, pair_eq_inv in H as [<- _]. exact Hd.
Qed.

#[export] Instance score_component (k : Q) : Component Q unit Drawers.ScoreDrawer := {|
  cstep := score_step k;
  cinv := score_inv;
  cstep_inv := score_step_inv k
|}.

#[export] Instance score_total (k : Q) : @Total _ _ _ (score_component k).
Proof. intros sc d _. simpl. unfold score_step. eauto. Qed.

(** The request of the tick ([changeScene]), then [SceneChanger.Update]. *)
Definition changer_step {Scene : Type} (MaxTPS : Z) (req : option Scene)
  (sc : SceneChanger.SceneChanger Scene) : option (SceneChanger.SceneChanger Scene * unit) :=
  let sc1 := match req with Some s => SceneChanger.changeScene MaxTPS sc s | None => sc end in
  let? sc' := SceneChanger.Update sc1 in
  Some (sc', tt).

Definition changer_cinv {Scene : Type} (MaxTPS : Z) (sc : SceneChanger.SceneChanger Scene) : Prop :=
  0 < SceneChanger.MaxTransCountDown MaxTPS /\ SceneChanger.changer_inv MaxTPS sc.

Lemma changer_request_inv {Scene : Type} (MaxTPS : Z) (req : option Scene) (sc : SceneChanger.SceneChanger Scene) :
  changer_cinv MaxTPS sc ->
  SceneChanger.changer_inv MaxTPS (match req with Some s => SceneChanger.changeScene MaxTPS sc s | None => sc end).
Proof.
  intros [HM Hi]. destruct req as [s|]; [apply SceneChanger.changeScene_inv; exact HM | exact Hi].
Qed.

Lemma changer_step_inv {Scene : Type} (MaxTPS : Z) (req : option Scene)
  (sc sc' : SceneChanger.SceneChanger Scene) (u : unit) :
  changer_cinv MaxTPS sc -> changer_step MaxTPS req sc = Some (sc', u) -> changer_cinv MaxTPS sc'.
Proof.
  unfold changer_step. intros Hc H. pose proof (changer_request_inv MaxTPS req sc Hc) as H1.
  obind_inv. subst. split; [exact (proj1 Hc)|]. eapply SceneChanger.Update_inv; eassumption.
Qed.

#[export] Instance changer_component (Scene : Type) (MaxTPS : Z)
  : Component (option Scene) unit (SceneChanger.SceneChanger Scene) := {|
  cstep := changer_step MaxTPS;
  cinv := changer_cinv MaxTPS;
  cstep_inv := changer_step_inv MaxTPS
|}.

#[export] Instance changer_total (Scene : Type) (MaxTPS : Z) : @Total _ _ _ (changer_component Scene MaxTPS).
Proof.
  intros req sc Hc. simpl. unfold changer_step.
  destruct (SceneChanger.Update_total _ MaxTPS _ (changer_request_inv MaxTPS req sc Hc)) as [sc' E].
  rewrite E. cbn [obind]. eauto.
Qed.

(** ** The play at the modelled components *)

(** [gosu_run GlobalVolume k MaxTPS chain judge reqs p]: one tick per
    request, the timeline on the chain [chain], the score smoothed with
    factor [k]. *)
Definition gosu_run {Scene J : Type} (GlobalVolume k : Q) (MaxTPS : Z) (chain : list Timeline.TransPoint)
  (judge : J -> Z -> list bool -> J * Judgment) (reqs : list (option Scene)) (p : Play Scene J)
  : option (Play Scene J * list (Z * list bool)) :=
  @play_run Scene J (timeline_component GlobalVolume MaxTPS chain) replay_component meter_component
    combo_component (score_component k) (changer_component Scene MaxTPS) judge reqs p.

(** The invariant of the play: the conjunction of the components'. *)
Definition gosu_inv {Scene J : Type} (MaxTPS : Z) (chain : list Timeline.TransPoint) (p : Play Scene J) : Prop :=
  timeline_inv chain (scene p) /\ Replay.listener_inv (listener p) /\ Meter.meter_inv (meter p) /\
  combo_inv (combo p) /\ score_inv (score p) /\ changer_cinv MaxTPS (changer p).

Lemma nth_pair {A B : Type} (l : list (A * B)) (a : A) (b : B) (m : nat) :
  nth m l (a, b) = (nth m (map fst l) a, nth m (map snd l) b).
Proof.
  revert m. induction l as [|[x y] l IH]; intros [|m]; simpl; auto.
Qed.

(** The times the timeline hands out: [s.Time()] after each [s.Tick++]. *)
Lemma timeline_csteps (GlobalVolume : Q) (MaxTPS : Z) (chain : list Timeline.TransPoint) (n : nat) :
  forall s s' times,
  csteps (C := timeline_component GlobalVolume MaxTPS chain) (repeat tt n) s = Some (s', times) ->
  length times = n /\
  forall m, (m < n)%nat -> nth m times 0 = Clock.Time MaxTPS (Timeline.Tick s + 1 + Z.of_nat m).
Proof.
  induction n as [|n IH]; intros s s' times H; simpl in H; obind_inv; subst; [split; [reflexivity | lia]|].
  unfold cstep in Ebind; simpl in Ebind. unfold timeline_step in Ebind. obind_inv. subst.
  destruct (UpdateTransPoint_cursor _ _ _ _ Ebind1) as (_ & HT & _). simpl in HT.
  destruct (IH _ _ _ Ebind0) as [Hl Hn]. split; [simpl; lia|].
  intros [|m] Hm; simpl; [rewrite HT; f_equal; lia|].
  rewrite Hn by lia. rewrite HT. f_equal. lia.
Qed.

(** ** Theorems of the play *)

(** C8: every run of the play keeps the invariants of all its components
    together, whatever the judgment does and whatever scene changes are
    requested: the timing cursor stays on the chart's chain and is never
    nil, the replay listener never stands on its sentinel, the meter marks
    stay in countdown order and in range, the combo's bounce countdown
    stays in range, the score is always drawn, and the scene changer's
    countdown stays within its window with a pending scene. *)
Theorem gosu_run_inv {Scene J : Type} (GlobalVolume k : Q) (MaxTPS : Z) (chain : list Timeline.TransPoint)
  (judge : J -> Z -> list bool -> J * Judgment) (reqs : list (option Scene))
  (p p' : Play Scene J) (outs : list (Z * list bool)) :
  gosu_inv MaxTPS chain p -> gosu_run GlobalVolume k MaxTPS chain judge reqs p = Some (p', outs) ->
  gosu_inv MaxTPS chain p'.
Proof.
  unfold gosu_run. intros Hp H.
  exact (play_run_inv (CT := timeline_component GlobalVolume MaxTPS chain) (CS := score_component k)
           (CC := changer_component Scene MaxTPS) judge reqs p p' outs Hp H).
Qed.

(** C4: the play hands the judgment the replay's keys and the clock's
    time.  For a replay as in the listener's refinement theorem (non-empty,
    positive waits from the third action, masks within [keyCount] bits,
    started no later than the first threshold, thresholds below [2^63]),
    a run of [n] ticks that
    ends before the sentinel's threshold never panics, and at tick [m]
    (from 0) the judgment is given the time [s.Time()] of tick
    [Tick + 1 + m] and the keys of the action active at the replay's time
    [waitBefore + m]: the replay counts one millisecond per tick, the
    clock [1000 / MaxTPS]. *)
Theorem gosu_run_replay {Scene J : Type} (GlobalVolume k : Q) (MaxTPS : Z) (chain : list Timeline.TransPoint)
  (judge : J -> Z -> list bool -> J * Judgment) (reqs : list (option Scene)) (p : Play Scene J)
  (trimmed : list Replay.Action) (kc w : Z) :
  gosu_inv MaxTPS chain p -> Replay.NewReplayListener trimmed kc w = Some (listener p) ->
  Forall (fun a => 1 <= Replay.W a) (skipn 2 trimmed) ->
  0 <= kc -> Forall (fun a => 0 <= Replay.X a < 2 ^ kc /\ Replay.X a < 2 ^ 63) trimmed ->
  - 2 ^ 63 <= w <= Replay.thr (trimmed ++ [Replay.sentinel]) 1 ->
  w + Z.of_nat (length reqs) <= Replay.thr (trimmed ++ [Replay.sentinel]) (length trimmed) < 2 ^ 63 ->
  exists p' outs,
    gosu_run GlobalVolume k MaxTPS chain judge reqs p = Some (p', outs) /\
    length outs = length reqs /\ gosu_inv MaxTPS chain p' /\
    forall m, (m < length reqs)%nat -> exists j, (j < length trimmed)%nat /\
      Replay.active (trimmed ++ [Replay.sentinel]) (w + Z.of_nat m) j /\
      nth m outs (0, []) =
        (Clock.Time MaxTPS (Timeline.Tick (scene p) + 1 + Z.of_nat m),
         Replay.key_bits (Z.to_nat kc) (Replay.X (nth j trimmed Replay.sentinel))).
Proof.
  intros Hp H0 Hwaits Hkc Hmasks Hstart Hend.
  destruct (Replay.NewReplayListener_window _ _ _ _ H0 Hstart) as (Hw & Ha & Hk & Ht).
  destruct (Replay.listen_n_window trimmed kc Hwaits Hkc Hmasks (proj2 Hend) (length reqs) (listener p) Ha Hk Hw
              ltac:(rewrite Ht; exact (proj1 Hend))) as (l & keys & Hn & Hlen & Hout).
  rewrite <- replay_csteps in Hn. rewrite Ht in Hout.
  destruct (play_run_project (CT := timeline_component GlobalVolume MaxTPS chain)
              (CR := replay_component) (CM := meter_component) (CN := combo_component)
              (CS := score_component k) (CC := changer_component Scene MaxTPS) judge reqs p l keys Hp Hn)
    as (p' & sp & outs & Hr & _ & Hkeys & Hc & _ & Hp').
  destruct (timeline_csteps _ _ _ _ _ _ _ Hc) as [Hlt Htimes]. rewrite length_map in Hlt.
  exists p', outs. split; [exact Hr|]. split; [exact Hlt|]. split; [exact Hp'|].
  intros m Hm. destruct (Hout m Hm) as (j & Hj & Hact & He). exists j.
  split; [exact Hj|]. split; [exact Hact|].
  rewrite nth_pair, Htimes, Hkeys, He by exact Hm. reflexivity.
Qed.

(** ** A demo play *)

(** A two-key replay: no key until -999 ms, key 0 until 1 ms, key 1 until
    501 ms, then none. *)
Definition demo_trimmed : list Replay.Action :=
  [Replay.mkAction (-1000) 0; Replay.mkAction 0 1; Replay.mkAction 1000 2; Replay.mkAction 500 0].

(** What [NewReplayListener demo_trimmed 2 (-1800)] returns. *)
Definition demo_listener : Replay.Listener :=
  Replay.mkListener (demo_trimmed ++ [Replay.sentinel]) 2 0 (-1800) (-999).

(** A judgment that marks the meter when a key is down and reports the
    number of keys down as the combo and the score. *)
Definition demo_judge (_ : unit) (now : Z) (keys : list bool) : unit * Judgment :=
  let n := Z.of_nat (length (filter (fun b => b) keys)) in
  (tt, mkJudgment (if existsb (fun b => b) keys then [(now mod 10, 1)] else []) n (inject_Z n)).

(** The play after [SetTick] with no replay buffer, on the chain
    [Timeline.spec_chain]; its meter is what [Meter.NewMeterDrawer]
    builds when package gosu's [TimeToTick] is package mode's. *)
Definition demo_play (MaxTPS : Z) : Play SceneChanger.demo_scene unit :=
  mkPlayState (Timeline.spec_play (snd (Clock.SetTick MaxTPS None))) demo_listener tt
    (Meter.mkMeter (Clock.TimeToTick MaxTPS 4000) []) (Drawers.mkNumber 0 200 30 0 0 (1 # 2)) Drawers.NewScoreDrawer
    (SceneChanger.NewSceneChanger (Some SceneChanger.SceneA)).

Lemma demo_inv (MaxTPS : Z) :
  0 < SceneChanger.MaxTransCountDown MaxTPS -> 0 <= Clock.TimeToTick MaxTPS 4000 ->
  gosu_inv MaxTPS Timeline.spec_chain (demo_play MaxTPS).
Proof.
  intros HM HT. unfold gosu_inv. simpl. split; [split; [discriminate | exists []; reflexivity]|].
  split; [split; [simpl; lia | reflexivity]|].
  split; [split; [exact HT | split; constructor]|].
  split; [unfold combo_inv; simpl; lia|]. split; [reflexivity|].
  split; [exact HM | apply SceneChanger.NewSceneChanger_inv; exact HM].
Qed.

Lemma demo_inv_240 : gosu_inv 240 Timeline.spec_chain (demo_play 240).
Proof. apply demo_inv; [apply Z.ltb_lt | apply Z.leb_le]; vm_compute; reflexivity. Qed.

(** The witness of the invariant of the play: 60 ticks of the demo play,
    with a scene change requested at the third. *)
Lemma gosu_run_inv_witness :
  match gosu_run 1 (1 # 10) 240 Timeline.spec_chain demo_judge
          (None :: None :: Some SceneChanger.SceneB :: repeat None 57) (demo_play 240) with
  | Some (p', _) => gosu_inv 240 Timeline.spec_chain p'
  | None => False
  end.
Proof.
  destruct (gosu_run 1 (1 # 10) 240 Timeline.spec_chain demo_judge
              (None :: None :: Some SceneChanger.SceneB :: repeat None 57) (demo_play 240))
    as [[p' outs]|] eqn:E; [|vm_compute in E; discriminate].
  exact (gosu_run_inv 1 (1 # 10) 240 Timeline.spec_chain demo_judge _ (demo_play 240) p' outs demo_inv_240 E).
Defined.

(** The witness of the replay theorem: 433 ticks of the demo play at 240
    ticks per second. *)
Lemma gosu_run_replay_witness :
  exists p' outs,
    gosu_run 1 (1 # 10) 240 Timeline.spec_chain demo_judge (repeat None 433) (demo_play 240) = Some (p', outs) /\
    length outs = 433%nat.
Proof.
  assert (Hw : Forall (fun a => 1 <= Replay.W a) (skipn 2 demo_trimmed)) by (repeat constructor; simpl; lia).
  assert (Hm : Forall (fun a => 0 <= Replay.X a < 2 ^ 2 /\ Replay.X a < 2 ^ 63) demo_trimmed)
    by (repeat constructor; simpl; lia).
  assert (Hs : - 2 ^ 63 <= -1800 <= Replay.thr (demo_trimmed ++ [Replay.sentinel]) 1)
    by (split; [lia | apply Z.leb_le; vm_compute; reflexivity]).
  assert (He : -1800 + Z.of_nat (length (@repeat (option SceneChanger.demo_scene) None 433)) <=
               Replay.thr (demo_trimmed ++ [Replay.sentinel]) (length demo_trimmed) < 2 ^ 63)
    by (split; [apply Z.leb_le | apply Z.ltb_lt]; vm_compute; reflexivity).
  destruct (gosu_run_replay 1 (1 # 10) 240 Timeline.spec_chain demo_judge (repeat None 433) (demo_play 240)
              demo_trimmed 2 (-1800) demo_inv_240 eq_refl Hw ltac:(lia) Hm Hs He)
    as (p' & outs & Hr & Hl & _).
  exists p', outs. split; [exact Hr | exact Hl].
Defined.


End Play.
