(* ===== verification/Result.v ===== *)
(** * Result: the result scene and its scene-change requests

    [SceneResult], [NewSceneResult], [Update] and [Draw] of
    src/_result.go.  The scene's calls on ebiten and ebitenui (drawing
    its image, updating and drawing its buttons) are the values of
    [Call] (Section [Screen]).  [Update] asks [g.ChangeScene] for the
    select scene on every tick the Escape key is held, then updates its
    buttons.  [g.ChangeScene] and [NewSceneSelect] are
    not under src/: the request is the input of the scene changer's tick
    ([Play.changer_component]: [changeScene] then [Update]), and the
    select scene is the section variable [sceneSelect].  The theorem
    shows what the missing busy guard of [changeScene] does to a held
    key. *)

From Stdlib Require Import ZArith List Lia.
From S2P Require Import Prelude SceneChanger Play.
Import ListNotations.

Open Scope Z_scope.

Module Result.

Section Screen.
Variable Image Button : Type.

(** [type SceneResult struct { ScreenResult *ebiten.Image; Buttons
    []ebitenui.Button }]: a nil image is [None]. *)
Record SceneResult := mkResult { ScreenResult : option Image; Buttons : list Button }.

(** The calls the result scene makes on ebiten and ebitenui:
    [screen.DrawImage(img, &ebiten.DrawImageOptions{})], [b.Update()],
    [b.Draw(screen)]. *)
Inductive Call :=
| DrawImage (img : option Image)
| ButtonUpdate (b : Button)
| ButtonDraw (b : Button).

(** [func (g *Game) NewSceneResult(sp ScenePlay) *SceneResult]:
    [sr := &SceneResult{}], the zero value ([sp] is not read). *)
Definition NewSceneResult : SceneResult := mkResult None [].

(** The loop of [SceneResult.Update]: [for _, b := range s.Buttons {
    b.Update() }], a call on a copy of each element in order; the slice
    itself is left as it is. *)
Definition result_button_updates (s : SceneResult) : list Call :=
  map ButtonUpdate (Buttons s).

(** [func (s *SceneResult) Draw(screen *ebiten.Image)]: the image, then
    each button. *)
Definition ResultDraw (s : SceneResult) : list Call :=
  DrawImage (ScreenResult s) :: map ButtonDraw (Buttons s).

End Screen.

Section Result.
Variable Scene : Type.
Variable sceneSelect : Scene.

(** [func (s *SceneResult) Update(g *Game) error]: the request of the
    tick, [if ebiten.IsKeyPressed(ebiten.KeyEscape) {
    g.ChangeScene(NewSceneSelect()) }]. *)
Definition ResultUpdate (escape : bool) : option Scene :=
  if escape then Some sceneSelect else None.

Lemma csteps_held (MaxTPS : Z) (n : nat) :
  1 < SceneChanger.MaxTransCountDown MaxTPS ->
  forall sc : SceneChanger.SceneChanger Scene,
  Play.csteps (C := Play.changer_component Scene MaxTPS) (repeat (ResultUpdate true) n) sc =
    Some (match n with
          | O => sc
          | S _ => SceneChanger.mkChanger (SceneChanger.GameScene sc) (SceneChanger.ChangerScene sc)
                     (Some sceneSelect) (SceneChanger.MaxTransCountDown MaxTPS - 1) (SceneChanger.InitLog sc)
          end, repeat tt n).
Proof.
  intros HM. induction n as [|n IH]; intros sc; [reflexivity|].
  simpl repeat. cbn [Play.csteps]. unfold Play.cstep; simpl. unfold Play.changer_step, ResultUpdate.
  unfold SceneChanger.changeScene. rewrite SceneChanger.Update_counting by exact HM. cbn [obind].
  rewrite IH. cbn [obind]. destruct n; reflexivity.
Qed.

Lemma csteps_idle (MaxTPS : Z) (k : nat) :
  forall (sc sc' : SceneChanger.SceneChanger Scene), orun k SceneChanger.Update sc = Some sc' ->
  Play.csteps (C := Play.changer_component Scene MaxTPS) (repeat None k) sc = Some (sc', repeat tt k).
Proof.
  induction k as [|k IH]; intros sc sc' H; simpl in H; [injection H as <-; reflexivity|].
  cbn [repeat Play.csteps Play.cstep Play.changer_component]. unfold Play.changer_step.
  destruct (SceneChanger.Update sc) as [sc1|]; cbn [obind] in H |- *; [|discriminate].
  rewrite (IH _ _ H). reflexivity.
Qed.

(** C13: holding Escape delays the change it asks for.  The result scene
    requests the select scene on every tick Escape is held, and
    [changeScene] has no busy guard: after [n + 1] ticks of holding, the
    game's scene is unchanged and the countdown is back at
    [MaxTransCountDown - 1]; the select scene becomes the game's scene
    (with its [Init] called once) only [MaxTransCountDown - 1] ticks
    after the key is released.  The spec says a request made during a
    transition is ignored, which would complete the change
    [MaxTransCountDown] ticks after the first press. *)
Theorem escape_held_delays_change (MaxTPS : Z) (sc : SceneChanger.SceneChanger Scene) (n : nat) :
  1 < SceneChanger.MaxTransCountDown MaxTPS ->
  Play.csteps (C := Play.changer_component Scene MaxTPS) (map ResultUpdate (repeat true (S n))) sc =
    Some (SceneChanger.mkChanger (SceneChanger.GameScene sc) (SceneChanger.ChangerScene sc) (Some sceneSelect)
            (SceneChanger.MaxTransCountDown MaxTPS - 1) (SceneChanger.InitLog sc), repeat tt (S n)) /\
  Play.csteps (C := Play.changer_component Scene MaxTPS)
    (map ResultUpdate (repeat true (S n) ++ repeat false (Z.to_nat (SceneChanger.MaxTransCountDown MaxTPS - 1)))) sc =
    Some (SceneChanger.mkChanger (Some sceneSelect) (SceneChanger.ChangerScene sc) None 0
            (sceneSelect :: SceneChanger.InitLog sc),
          repeat tt (S n + Z.to_nat (SceneChanger.MaxTransCountDown MaxTPS - 1))).
Proof.
  intros HM. rewrite map_app, !map_repeat.
  split; [exact (csteps_held MaxTPS (S n) HM sc)|].
  rewrite Play.csteps_app, (csteps_held MaxTPS (S n) HM sc). cbn [obind].
  change (ResultUpdate false) with (@None Scene).
  rewrite (csteps_idle MaxTPS _ _ _ (SceneChanger.countdown_finishes Scene (SceneChanger.GameScene sc)
            (SceneChanger.ChangerScene sc) sceneSelect (SceneChanger.MaxTransCountDown MaxTPS - 1)
            (SceneChanger.InitLog sc) ltac:(lia))).
  cbn [obind]. rewrite repeat_app. reflexivity.
Qed.

End Result.

(** The witness of C13: at 1000 TPS, holding Escape for three ticks on a
    fresh changer, then releasing it: the select scene arrives 799 ticks
    after the release. *)
Lemma escape_held_delays_change_witness :
  1 < SceneChanger.MaxTransCountDown 1000 /\
  Play.csteps (C := Play.changer_component SceneChanger.demo_scene 1000)
    (map (ResultUpdate _ SceneChanger.SceneC) (repeat true 3 ++ repeat false 799))
    (SceneChanger.NewSceneChanger (Some SceneChanger.SceneA)) =
    Some (SceneChanger.mkChanger (Some SceneChanger.SceneC) (Some SceneChanger.SceneA) None 0 [SceneChanger.SceneC],
          repeat tt 802).
Proof.
  assert (HM : 1 < SceneChanger.MaxTransCountDown 1000) by (apply Z.ltb_lt; vm_compute; reflexivity).
  split; [exact HM|].
  exact (proj2 (escape_held_delays_change _ SceneChanger.SceneC 1000
                  (SceneChanger.NewSceneChanger (Some SceneChanger.SceneA)) 2 HM)).
Defined.

End Result.
