(* ===== verification/Audio.v ===== *)
(** * Audio: the music player and the sample sounds of a play

    [SetMusicPlayer] and [SetSoundMap] of src/mode/play.go.  The audio
    library ([audioutil.NewPlayer], [audioutil.NewSoundMap], the player's
    [SetVolume]) is not under src/: its handles are the section variables
    [Player] and [Closer], [NewPlayer] returns what the library returns
    (a nil pointer is [None]), and the audio sink the spec describes is
    the log [VolumeCalls] of the [SetVolume] calls it receives. *)

From Stdlib Require Import ZArith QArith String List Lia.
From S2P Require Import Prelude.
Import ListNotations.

Open Scope Z_scope.
Open Scope gosu_scope.

Module Audio.

Section Audio.
Variable Player Closer Err : Type.
Variable NewPlayer : string -> option Player * option Closer * option Err.
Variable Dir : string -> string.
Variable Join : string -> string -> string.

(** The audio fields of [ScenePlay] ([MusicPlayer], [MusicCloser],
    [Sounds] as the paths registered in it) and the calls the external
    players have received. *)
Record AudioPlay := mkAudio {
  MusicPlayer : option Player;
  MusicCloser : option Closer;
  SoundPaths : list string;
  VolumeCalls : list (Player * Q)
}.

(** [func (s *ScenePlay) SetMusicPlayer(apath string) error]: [vol] is
    [s.Volume].  The three results of [NewPlayer] are assigned before
    [err] is checked; [SetVolume] on a nil player panics. *)
Definition SetMusicPlayer (apath : string) (vol : Q) (a : AudioPlay)
  : option (AudioPlay * option Err) :=
  if (String.eqb apath "virtual" || String.eqb apath "")%bool then Some (a, None)
  else
    let '(p, c, err) := NewPlayer apath in
    let a1 := mkAudio p c (SoundPaths a) (VolumeCalls a) in
    match err with
    | Some e => Some (a1, Some e)
    | None =>
        match p with
        | Some pl => Some (mkAudio p c (SoundPaths a) (VolumeCalls a ++ [(pl, vol)]), None)
        | None => None
        end
    end.

(** [func (s *ScenePlay) SetSoundMap(cpath string, names []string) error]:
    a fresh sound map, then [s.Sounds.Register(filepath.Join(
    filepath.Dir(cpath), name))] for each name in order; it returns nil. *)
Definition SetSoundMap (cpath : string) (names : list string) (a : AudioPlay)
  : AudioPlay * option Err :=
  (mkAudio (MusicPlayer a) (MusicCloser a) (map (fun name => Join (Dir cpath) name) names)
     (VolumeCalls a), None).

End Audio.

End Audio.
