(* ===== verification/Background.v ===== *)
(** * Background: the background of a play, in its two packages

    Two types share the name [BackgroundDrawer]: package gosu's, in
    src/drawer.go, which holds a pointer [Brightness] to a float the
    program owns elsewhere and a [draws.Sprite], and package mode's,
    which [ScenePlay] holds (its type is not under src/) and whose
    [Sprite] field, a [render.Sprite], [ScenePlay.SetBackground] of
    src/mode/play.go writes.  Section [Gosu] models the first with its
    [Draw]: the memory the pointer points into is [mem], read when
    [Draw] runs.  Section [Mode] models [SetBackground] as the sprite it
    assigns, through the field update [SetSprite] of the mode type.  The
    rendering library ([render.NewImage], [render.Sprite] with its
    [SetWidth] and [SetCenterY], [DefaultBackground], the sprite's
    [Draw]) is not under src/: its types and functions are section
    variables, and what [Draw] hands to it is its result. *)

From Stdlib Require Import ZArith QArith String List.
From S2P Require Import Prelude.
Import ListNotations.

Open Scope Q_scope.

Module Background.

Section Gosu.
Variable DrawsSprite Loc : Type.

(** [type BackgroundDrawer struct { Brightness *float64; Sprite
    draws.Sprite }] of package gosu: a nil pointer is [None]. *)
Record BackgroundDrawer := mkBackground { Brightness : option Loc; BgSprite : DrawsSprite }.

(** [func (d BackgroundDrawer) Draw(screen *ebiten.Image)]: the sprite
    drawn with [op.ColorM.ChangeHSV(0, 1, *d.Brightness)], given as the
    hue, saturation and value; dereferencing a nil [Brightness] panics. *)
Definition Draw (mem : Loc -> Q) (d : BackgroundDrawer) : option (DrawsSprite * (Q * Q * Q)) :=
  match Brightness d with
  | Some l => Some (BgSprite d, (0, 1, mem l))
  | None => None
  end.

End Gosu.

Section Mode.
Variable Image RenderSprite ModeDrawer : Type.
(** [render.NewImage(path)]: [None] for a nil image. *)
Variable NewImage : string -> option Image.
(** [render.Sprite{I: img, Filter: ebiten.FilterLinear}] *)
Variable LinearSprite : Image -> RenderSprite.
Variable SetWidth SetCenterY : Q -> RenderSprite -> RenderSprite.
Variable DefaultBackground : RenderSprite.
Variable screenSizeX screenSizeY : Q.
(** [s.BackgroundDrawer.Sprite = sprite] on package mode's drawer. *)
Variable SetSprite : RenderSprite -> ModeDrawer -> ModeDrawer.

(** [func (s *ScenePlay) SetBackground(path string)], on
    [s.BackgroundDrawer]: the loaded image scaled to the screen's width
    and centred vertically, or [DefaultBackground] when it is nil. *)
Definition SetBackground (path : string) (d : ModeDrawer) : ModeDrawer :=
  match NewImage path with
  | Some img =>
      let sprite := LinearSprite img in
      let sprite := SetWidth screenSizeX sprite in
      let sprite := SetCenterY (screenSizeY / 2) sprite in
      SetSprite sprite d
  | None => SetSprite DefaultBackground d
  end.

End Mode.

End Background.
