(* ===== verification/Input.v ===== *)
(** * Input: the key actions of a play

    [ScenePlay.KeyAction] of src/mode/play.go reads the key's state in
    the previous and the current pressed vectors ([LastPressed],
    [Pressed]) and hands the pair to [input.CurrentKeyAction], which is
    not under src/ and is the section variable [CurrentKeyAction].  In a
    replayed play the vectors are those the replay listener returns
    ([Replay.listen]), one per tick; the theorem relates the two. *)

From Stdlib Require Import ZArith List Lia.
From S2P Require Import Prelude Replay.
Import ListNotations.

Open Scope Z_scope.
Open Scope gosu_scope.

Module Input.

Section Input.
Variable Action : Type.
Variable CurrentKeyAction : bool -> bool -> Action.

(** The input fields of [ScenePlay]: [LastPressed, Pressed []bool]. *)
Record InputState := mkInput { LastPressed : list bool; Pressed : list bool }.

(** [func (s ScenePlay) KeyAction(k int) input.KeyAction]:
    [input.CurrentKeyAction(s.LastPressed[k], s.Pressed[k])]; an index
    out of range panics. *)
Definition KeyAction (s : InputState) (k : Z) : option Action :=
  if k <? 0 then None
  else
    let? last := nth_error (LastPressed s) (Z.to_nat k) in
    let? now := nth_error (Pressed s) (Z.to_nat k) in
    Some (CurrentKeyAction last now).

(** Indexing a vector of [kc] keys. *)
Lemma nth_error_vector (p : list bool) (kc k : Z) :
  length p = Z.to_nat kc -> 0 <= k ->
  nth_error p (Z.to_nat k) = if k <? kc then Some (nth (Z.to_nat k) p false) else None.
Proof.
  intros Hl Hk. case_if.
  - apply nth_error_nth'. lia.
  - apply nth_error_None. lia.
Qed.

(** The vectors of a run of the listener all have [keyCount] entries,
    and a run of at least one call implies [keyCount >= 0]. *)
Lemma listen_n_lengths (n : nat) :
  forall s0 s outs, Replay.listen_n n s0 = Some (s, outs) ->
  length outs = n /\ ((0 < n)%nat -> 0 <= Replay.keyCount s0) /\
  Forall (fun p => length p = Z.to_nat (Replay.keyCount s0)) outs.
Proof.
  induction n as [|n IH]; intros s0 s outs H; simpl in H; obind_inv; subst;
    [split; [reflexivity | split; [lia | constructor]]|].
  destruct (Replay.listen_keyCount _ _ _ Ebind) as (Hk & Hnn & Hl).
  destruct (IH _ _ _ Ebind0) as (Hn & _ & Hall). rewrite Hk in Hall.
  split; [simpl; lia|]. split; [intros _; exact Hnn | constructor; assumption].
Qed.

(** C15: on a replayed play, where the pressed vectors of consecutive
    ticks are consecutive results of the replay listener, [KeyAction k]
    never panics for a key [0 <= k < keyCount] and gives
    [CurrentKeyAction] of the key's previous and current states; for
    any other [k] it panics (index out of range). *)
Theorem KeyAction_replay (n : nat) (s0 s : Replay.Listener) (outs : list (list bool)) (m : nat) (k : Z) :
  Replay.listen_n n s0 = Some (s, outs) -> (S m < n)%nat ->
  KeyAction (mkInput (nth m outs []) (nth (S m) outs [])) k =
    if ((0 <=? k) && (k <? Replay.keyCount s0))%bool then
      Some (CurrentKeyAction (nth (Z.to_nat k) (nth m outs []) false)
                             (nth (Z.to_nat k) (nth (S m) outs []) false))
    else None.
Proof.
  intros Hrun Hm. destruct (listen_n_lengths n s0 s outs Hrun) as (Hlen & Hkc & Hall).
  specialize (Hkc ltac:(lia)).
  rewrite Forall_nth in Hall.
  unfold KeyAction. destruct (Z.ltb_spec k 0) as [Hk|Hk].
  { rewrite (proj2 (Z.leb_gt 0 k)) by lia. reflexivity. } cbn [LastPressed Pressed].
  rewrite (nth_error_vector _ (Replay.keyCount s0)) by (try apply Hall; lia).
  rewrite (proj2 (Z.leb_le 0 k)) by lia. cbn [andb].
  destruct (Z.ltb_spec k (Replay.keyCount s0)); [|reflexivity]. cbn [obind].
  rewrite (nth_error_vector _ (Replay.keyCount s0)) by (try apply Hall; lia).
  rewrite (proj2 (Z.ltb_lt _ _)) by lia. reflexivity.
Qed.

End Input.

(** The witness of C15: thirty calls of the example listener (two keys);
    at ticks 10 and 11, key 1 gives the pair of its states, key 2 panics. *)
Lemma KeyAction_replay_witness :
  match Replay.listen_n 30 Replay.example_listener with
  | Some (s, outs) =>
      KeyAction (bool * bool) pair (mkInput (nth 10 outs []) (nth 11 outs [])) 1 =
        Some (nth 1 (nth 10 outs []) false, nth 1 (nth 11 outs []) false) /\
      KeyAction (bool * bool) pair (mkInput (nth 10 outs []) (nth 11 outs [])) 2 = None
  | None => False
  end.
Proof.
  destruct (Replay.listen_n 30 Replay.example_listener) as [[s outs]|] eqn:E;
    [|vm_compute in E; discriminate E].
  split.
  - rewrite (KeyAction_replay _ pair 30 _ s outs 10 1 E ltac:(lia)). reflexivity.
  - rewrite (KeyAction_replay _ pair 30 _ s outs 10 2 E ltac:(lia)). reflexivity.
Defined.

End Input.
