(* ===== verification/Note.v ===== *)
(** * Note: the note record of src/common/note.go

    [common.Note] is a record of chart data (its times have the play's
    rate applied in advance); no code of src/ reads or writes it.  Go's
    [int16], [int64] and [int] are kept as [Z]. *)

From Stdlib Require Import ZArith String.

Open Scope Z_scope.

Module Note.

(** [type NoteType int16] *)
Definition NoteType : Type := Z.

(** [type Note struct { Type NoteType; Time, Time2 int64; SampleVolume
    int; SampleFilename string }] ([Type] is a keyword of Rocq). *)
Record Note := mkNote {
  Type' : NoteType;
  Time : Z;
  Time2 : Z;
  SampleVolume : Z;
  SampleFilename : string
}.

End Note.
