(* ===== verification/Assets.v ===== *)
(** * Assets: the chart's hash and the window title of a play

    [MD5] and [ScenePlay.SetWindowTitle] of src/mode/play.go.  The file
    system and the hash ([os.ReadFile], [md5.Sum]) are the section
    variables [ReadFile] and [Sum]; the title is the string handed to
    [ebiten.SetWindowTitle].  [Chart] is not under src/: its record has
    the two fields the title reads. *)

From Stdlib Require Import String.
From S2P Require Import Prelude.

Open Scope string_scope.

Module Assets.

Section Assets.
Variable Bytes Digest Err : Type.
(** [os.ReadFile(path)]: the file's bytes, or the error. *)
Variable ReadFile : string -> Bytes + Err.
(** [md5.Sum(b)] *)
Variable Sum : Bytes -> Digest.

(** [func MD5(path string) [md5.Size]byte]: [b, err := os.ReadFile(path)];
    [if err != nil { panic(err) }]; [return md5.Sum(b)]. *)
Definition MD5 (path : string) : option Digest :=
  match ReadFile path with
  | inl b => Some (Sum b)
  | inr _ => None
  end.

End Assets.

(** The fields of [Chart] that [SetWindowTitle] reads. *)
Record Chart := mkChart { MusicName : string; ChartName : string }.

(** [func (s ScenePlay) SetWindowTitle(c Chart)]: the title
    [fmt.Sprintf("gosu - %s - [%s]", c.MusicName, c.ChartName)] given to
    [ebiten.SetWindowTitle]. *)
Definition SetWindowTitle (c : Chart) : string :=
  "gosu - " ++ MusicName c ++ " - [" ++ ChartName c ++ "]".

End Assets.
